(** * Spectral fingerprinting pipeline: block partitioning, hashing, model
      scoring and cluster analysis.

    A shallow embedding of [analyse/utils.js] (extractBlocks, hash),
    [analyse/pattern_detection.js] (findclusters, getgrid, the scoring loop
    of detect, and the band masks and radix-2 transform of I_mat),
    [analyse/pattern.js] (hasThreeZerosInFirstFour, setData, and the
    validation run test) and of the helpers intToBase62 and
    imageToGrayscaleMatrix.

    Conventions.
    - Array indices, lengths and counters are integers ([Z] or [nat]); the
      JavaScript engine computes them on doubles, which is exact below 2^53.
    - The cluster score and the scoring ratio go through fractional
      arithmetic and division, so they are binary64 values ([float], the
      kernel's IEEE 754 doubles), with [Math.round] written out on the
      exact value of the double.
    - A function that may throw returns an [outcome]; a recursion that is
      not structural takes fuel and returns [None] when it runs out. *)

From stdpp Require Import base option list sorting strings gmap pretty.
From Stdlib Require Import Ascii ZArith Floats Reals Lra Lia.
From Equations Require Import Equations.

Set Warnings "-inexact-float".
Set Default Proof Using "Type".
Open Scope Z_scope.

(* ================================================================= *)
(** ** JavaScript numbers *)

Module JS.

(** Integer to double, correctly rounded (exact for |z| < 2^53). *)
Definition of_Z (z : Z) : float :=
  SF2Prim (binary_normalize prec emax z 0 false).

(** [Math.round]: the nearest integer, ties towards +infinity; zeros,
    infinities and NaN are returned unchanged, and a result that rounds
    to zero keeps the sign of the argument. *)
Definition Math_round (x : float) : float :=
  match Prim2SF x with
  | S754_finite s m e =>
      if 0 <=? e then x
      else
        let v := if s then Z.neg m else Z.pos m in
        let k := (2 * v + 2 ^ (- e)) / 2 ^ (1 - e) in
        if k =? 0 then (if s then (-0)%float else 0%float) else of_Z k
  | _ => x
  end.

(** [Math.pow(x, 2)]. *)
Definition Math_pow2 (x : float) : float := (x * x)%float.

Definition Math_sqrt (x : float) : float := PrimFloat.sqrt x.

End JS.

(** Outcome of a call that may throw. *)
Inductive error : Type :=
| Error (msg : string)
| TypeError (msg : string)
| RangeError (msg : string).

Inductive outcome (A : Type) : Type :=
| Returns (a : A)
| Throws (e : error).
Arguments Returns {A} a.
Arguments Throws {A} e.

Definition obind {A B} (m : outcome A) (f : A → outcome B) : outcome B :=
  match m with
  | Returns a => f a
  | Throws e => Throws e
  end.

(** Sequential loop over a list of indices with a body that may run out
    of fuel. *)
Fixpoint for_each {S I : Type} (l : list I) (body : I → S → option S) (s : S)
  : option S :=
  match l with
  | [] => Some s
  | x :: l => s' ← body x s; for_each l body s'
  end.

(** [for (i = start; i < bound; i += step) body]: a loop whose step is a
    variable. It does not end when [step] is 0 and [start < bound]; the
    model returns [None] when [fuel] iterations were not enough. *)
Fixpoint for_step {S : Type} (fuel i bound step : nat) (body : nat → S → option S)
    (s : S) : option S :=
  if decide (i < bound)%nat then
    match fuel with
    | O => None
    | S fuel => s' ← body i s; for_step fuel (i + step)%nat bound step body s'
    end
  else Some s.

(** [l.slice(a, b)] for [0 <= a <= b]. *)
Definition slice {A : Type} (l : list A) (a b : nat) : list A :=
  take (b - a) (drop a l).

(* ================================================================= *)
(** ** ClusterAnalyzer: findclusters (pattern_detection.js) *)

Module Cluster.

(** A binary grid as the code has it: an array of rows of numbers. *)
Abbreviation grid := (list (list Z)).
Abbreviation cell := (Z * Z)%type.

(** [grid[i][j]] for [0 <= i] and [0 <= j]; [None] is [undefined]. *)
Definition get (g : grid) (i j : Z) : option Z :=
  g !! Z.to_nat i ≫= (.!! Z.to_nat j).

(** [grid[i][j] = 0] on a cell that exists. *)
Definition clear (g : grid) (i j : Z) : grid :=
  alter (<[Z.to_nat j := 0]>) (Z.to_nat i) g.

(** The recursive flood fill. [fuel] bounds the depth of the recursion. *)
Fixpoint dfs (fuel : nat) (rows cols : Z) (g : grid) (i j : Z)
  : option (grid * Z) :=
  match fuel with
  | O => None
  | S fuel =>
      if bool_decide (i < 0 ∨ rows ≤ i ∨ j < 0 ∨ cols ≤ j ∨ get g i j ≠ Some 1)
      then Some (g, 0)
      else
        let g := clear g i j in
        let size := 1 in
        '(g, s) ← dfs fuel rows cols g (i + 1) j; let size := size + s in
        '(g, s) ← dfs fuel rows cols g (i - 1) j; let size := size + s in
        '(g, s) ← dfs fuel rows cols g i (j + 1); let size := size + s in
        '(g, s) ← dfs fuel rows cols g i (j - 1); let size := size + s in
        Some (g, size)
  end.

(** The object findclusters returns; [score] is [None] when the property
    is absent from the object. *)
Record clusters : Type := Clusters {
  count : Z;
  sizes : list Z;
  totalSize : Z;
  score : option float
}.

(** The variables the scan updates. *)
Record state : Type := State {
  st_grid : grid;
  st_score : float;
  st_sizes : list Z;
  st_totalSize : Z;
  st_count : Z
}.

(** [computedist(x, y)] with [n = Math.round(rows/2)], [m = Math.round(cols/2)]. *)
Definition center (len : Z) : float := JS.Math_round (JS.of_Z len / 2)%float.

Definition computedist (rows cols : Z) (x y : Z) : float :=
  let n := center rows in
  let m := center cols in
  JS.Math_round
    (JS.Math_sqrt (JS.Math_pow2 (JS.of_Z x - m) + JS.Math_pow2 (JS.of_Z y - n)))%float.

(** The term one qualifying island adds to the score. *)
Definition term (islandSize : Z) (dist : float) : float :=
  (JS.Math_round ((JS.of_Z islandSize * 0.4) / (dist * 0.6)) * 100)%float.

(** Number of cells equal to 1: a bound on the recursion depth of dfs. *)
Definition ones (g : grid) : nat :=
  sum_list ((λ row, length (filter (λ v, v = 1) row)) <$> g).

(** The body of the two nested loops at (i, j). *)
Definition visit (fuel : nat) (rows cols minSize : Z) (i j : Z) (st : state)
  : option state :=
  if bool_decide (get (st_grid st) i j = Some 1) then
    '(g, islandSize) ← dfs fuel rows cols (st_grid st) i j;
    if bool_decide (minSize ≤ islandSize) then
      Some {| st_grid := g;
              st_score := (st_score st + term islandSize (computedist rows cols j i))%float;
              st_sizes := st_sizes st ++ [islandSize];
              st_totalSize := st_totalSize st + islandSize;
              st_count := st_count st + 1 |}
    else
      Some {| st_grid := g;
              st_score := st_score st;
              st_sizes := st_sizes st;
              st_totalSize := st_totalSize st;
              st_count := st_count st |}
  else Some st.

Definition scan (fuel : nat) (rows cols minSize : Z) (st : state) : option state :=
  for_each (seqZ 0 rows)
    (λ i st, for_each (seqZ 0 cols) (λ j st, visit fuel rows cols minSize i j st) st)
    st.

(** [findclusters(grid, minSize)]. The early return on an empty grid
    builds an object without [score]. *)
Definition findclusters (g : grid) (minSize : Z) : option clusters :=
  if bool_decide (length g = 0%nat) then
    Some {| count := 0; sizes := []; totalSize := 0; score := None |}
  else
    let rows := Z.of_nat (length g) in
    let cols := Z.of_nat (length (default [] (g !! 0%nat))) in
    st ← scan (S (ones g)) rows cols minSize
            {| st_grid := g; st_score := 0%float; st_sizes := [];
               st_totalSize := 0; st_count := 0 |};
    Some {| count := st_count st; sizes := st_sizes st;
            totalSize := st_totalSize st; score := Some (st_score st) |}.

End Cluster.


(* ================================================================= *)
(** ** ModelScorer: getgrid and the scoring loop of detect
       (pattern_detection.js) *)

Module Scorer.

(** An entry of the trained model: [data[el]["0"]] and [data[el]["1"]]. *)
Record counts : Type := Counts { normal : Z; anomaly : Z }.

(** The trained model, keyed by token. *)
Abbreviation TrainedModel := (gmap string counts).

(** The memo of hash: coordinate keys with their tokens, in the order
    [Object.keys] lists them (the order of insertion). *)
Abbreviation TokenMemo := (list (string * list string)).

(** One step of [hashes.forEach]: both counters of the token are added
    when [data[el]] exists, 0 otherwise. *)
Definition add_token (data : TrainedModel) (score : Z * Z) (el : string) : Z * Z :=
  (score.1 + match data !! el with Some d => normal d | None => 0 end,
   score.2 + match data !! el with Some d => anomaly d | None => 0 end).

Definition tally (data : TrainedModel) (hashes : list string) : Z * Z :=
  foldl (add_token data) (0, 0) hashes.

(** [score["0"] / score["1"]]. *)
Definition ratio (score : Z * Z) : float :=
  (JS.of_Z score.1 / JS.of_Z score.2)%float.

(** The label pushed for one coordinate. *)
Definition label (data : TrainedModel) (hashes : list string) : Z :=
  let score := tally data hashes in
  if bool_decide (score.2 = 0) || (0.9 <? ratio score)%float then 0 else 1.

(** [keys.forEach(...)]: one label per key, in key order. *)
Definition activations (data : TrainedModel) (memo : TokenMemo) : list Z :=
  (λ kv, label data kv.2) <$> memo.

(** [getgrid(mat)]. *)
Definition getgrid {A : Type} (mat : list A) : option (list (list A)) :=
  let n := Nat.sqrt (length mat) in
  let temp := mat in
  for_step (length temp) 0 (length temp) n
    (λ i matrix, Some (matrix ++ [slice temp i (i + n)])) [].


(** What detect returns, the elapsed time apart. *)
Record detection : Type := Detection { det_score : option float; similar : Z }.

Definition detect_memo (data : TrainedModel) (memo : TokenMemo) : option detection :=
  matrix ← getgrid (activations data memo);
  cls ← Cluster.findclusters matrix 7;
  Some {| det_score := Cluster.score cls; similar := Cluster.count cls |}.

End Scorer.

(* ================================================================= *)
(** ** BlockPartitioner: extractBlocks (utils.js) *)

Module Blocks.

(** [m[i]] where a property of the row is read next: a missing row is a
    TypeError. *)
Definition row_at {A : Type} (m : list (list A)) (i : nat) : outcome (list A) :=
  match m !! i with
  | Some row => Returns row
  | None => Throws (TypeError "Cannot read properties of undefined")
  end.

Section ExtractBlocks.
Context {A : Type}.
Variable trimmedMat : list (list A).
Variable size : nat.

(** The innermost loop: the [size] rows of the block at (i, j). *)
Definition block_at (i j : nat) : outcome (list (list A)) :=
  foldl (λ acc k,
           obind acc (λ block,
           obind (row_at trimmedMat (i + k)) (λ row,
           Returns (block ++ [slice row j (j + size)]))))
        (Returns []) (seq 0 size).

(** The loop over j: the blocks of the strip that starts at row i. *)
Definition strip (trimmedW i : nat) (blocks : outcome (list (list (list A))))
  : option (outcome (list (list (list A)))) :=
  for_step trimmedW 0 trimmedW size
    (λ j acc, Some (obind acc (λ blocks,
                    obind (block_at i j) (λ block,
                    Returns (blocks ++ [block])))))
    blocks.

End ExtractBlocks.

(** [extractBlocks(mat, size)]. *)
Definition extractBlocks {A : Type} (mat : list (list A)) (size : nat)
  : option (outcome (list (list (list A)))) :=
  match mat !! 0%nat with
  | None => Some (Throws (TypeError "Cannot read properties of undefined"))
  | Some row0 =>
      let h := length mat in
      let w := length row0 in
      let trimmedH := (h - h mod size)%nat in
      let trimmedW := (w - w mod size)%nat in
      let trimmedMat := (λ row, slice row 0 trimmedW) <$> slice mat 0 trimmedH in
      for_step trimmedH 0 trimmedH size
        (λ i blocks, strip trimmedMat size trimmedW i blocks)
        (Returns [])
  end.

End Blocks.

(* ================================================================= *)
(** ** HashGenerator: hash (utils.js) *)

Module Hash.

(** The memo object: string keys with their token arrays, in the order
    the keys were first set. *)
Abbreviation memo_t := (list (string * list string)).

(** [memo[key] = v]: an existing key keeps its place. *)
Fixpoint memo_set (memo : memo_t) (key : string) (v : list string) : memo_t :=
  match memo with
  | [] => [(key, v)]
  | (k, x) :: memo =>
      if decide (k = key) then (k, v) :: memo else (k, x) :: memo_set memo key v
  end.

(** [memo[key]]. *)
Fixpoint memo_get (memo : memo_t) (key : string) : option (list string) :=
  match memo with
  | [] => None
  | (k, x) :: memo => if decide (k = key) then Some x else memo_get memo key
  end.

(** [memo[key].push(hsh)] on a key that is set. *)
Fixpoint memo_push (memo : memo_t) (key : string) (hsh : string) : memo_t :=
  match memo with
  | [] => []
  | (k, x) :: memo =>
      if decide (k = key) then (k, x ++ [hsh]) :: memo
      else (k, x) :: memo_push memo key hsh
  end.

(** The key of the coordinate (i, j). *)
Definition coord (i j : nat) : string :=
  "(" +:+ pretty i +:+ "," +:+ pretty j +:+ ")".

(** The eight neighbour offsets (di, dj) with their direction codes, in
    the order of the array literal. *)
Definition directions : list (Z * Z * Z) :=
  [(-1, -1, 0); (-1, 0, 0); (-1, 1, 0);
   (0, -1, 2); (0, 1, 4);
   (1, -1, 1); (1, 0, 1); (1, 1, 1)].

Section WithFeatures.
(** A feature value and its conversion to a string in a template literal. *)
Context {F : Type}.
Variable show : F → string.

(** [v[k]] inside a template literal. *)
Definition field (v : list F) (k : nat) : string :=
  match v !! k with
  | Some x => show x
  | None => "undefined"
  end.

(** [blocks[i][j]] as the object whose elements are read next. *)
Definition vector_at (blocks : list (list (list F))) (i j : Z) : outcome (list F) :=
  match blocks !! Z.to_nat i ≫= (.!! Z.to_nat j) with
  | Some v => Returns v
  | None => Throws (TypeError "Cannot read properties of undefined")
  end.

(** The quadrant code, with [r = blocks.length / 2]. *)
Definition rel_code (rows : Z) (i j : nat) : Z :=
  let r := (JS.of_Z rows / 2)%float in
  if (0 <=? JS.of_Z (Z.of_nat i) - r)%float then
    if (0 <=? JS.of_Z (Z.of_nat j) - r)%float then -1 else 0
  else
    if (0 <=? JS.of_Z (Z.of_nat j) - r)%float then 1 else 2.

Definition token (ext : bool) (block neighbor : list F) (rel dir : Z) : string :=
  if ext then
    field block 0 +:+ "_" +:+ field block 1 +:+ "_" +:+
    field neighbor 0 +:+ "_" +:+ field neighbor 1 +:+ "_" +:+
    pretty rel +:+ "_" +:+ pretty dir
  else
    field block 0 +:+ "_" +:+ field block 1 +:+ "_" +:+
    field neighbor 0 +:+ "_" +:+ field neighbor 1 +:+ "_" +:+ pretty dir.

(** The neighbour at offset (di, dj) exists. *)
Definition in_bounds (rows cols : Z) (i j : nat) (d : Z * Z * Z) : Prop :=
  0 ≤ Z.of_nat i + d.1.1 ∧ Z.of_nat i + d.1.1 < rows ∧
  0 ≤ Z.of_nat j + d.1.2 ∧ Z.of_nat j + d.1.2 < cols.

#[global] Instance in_bounds_dec rows cols i j d : Decision (in_bounds rows cols i j d).
Proof. unfold in_bounds. apply _. Defined.

(** One turn of the loop over the directions at (i, j). *)
Definition neighbour_step (blocks : list (list (list F))) (ext : bool)
    (rows cols : Z) (i j : nat) (acc : outcome (list string * memo_t))
    (d : Z * Z * Z) : outcome (list string * memo_t) :=
  obind acc (λ '(hashes, memo),
    if decide (in_bounds rows cols i j d) then
      obind (vector_at blocks (Z.of_nat i + d.1.1) (Z.of_nat j + d.1.2)) (λ neighbor,
      obind (vector_at blocks (Z.of_nat i) (Z.of_nat j)) (λ block,
        let hsh := token ext block neighbor (rel_code rows i j) d.2 in
        Returns (hashes ++ [hsh], memo_push memo (coord i j) hsh)))
    else Returns (hashes, memo)).

(** The body of the two nested loops at (i, j). The distance and channel
    values the source computes here are used nowhere and are left out. *)
Definition visit (blocks : list (list (list F))) (ext : bool) (rows cols : Z)
    (i j : nat) (acc : outcome (list string * memo_t))
  : outcome (list string * memo_t) :=
  obind acc (λ '(hashes, memo),
    foldl (neighbour_step blocks ext rows cols i j)
          (Returns (hashes, memo_set memo (coord i j) []))
          directions).

(** [hash(blocks, ext, multy)]: the pair of [hashes] and [memo]. The
    parameter [multy] is read nowhere. *)
Definition hash (blocks : list (list (list F))) (ext multy : bool)
  : outcome (list string * memo_t) :=
  let rows := length blocks in
  let cols := match blocks !! 0%nat with Some row => length row | None => 0%nat end in
  foldl (λ acc i,
           foldl (λ acc j, visit blocks ext (Z.of_nat rows) (Z.of_nat cols) i j acc)
                 acc (seq 0 cols))
        (Returns ([], [])) (seq 0 rows).

End WithFeatures.
End Hash.

(* ================================================================= *)
(** ** SpectralFeatureExtractor: I_mat (the second part of
       pattern_detection.js)

    The arithmetic of the transform and of the band masks is over the real
    numbers: [Math.sqrt], [Math.cos], [Math.sin], [Math.log] and
    [Math.PI] are the functions and the constant of that name. The one
    value of a double that the code produces with no real counterpart,
    NaN, is a constructor of its own. An array that may have an element
    missing is a list of options; reading a property of a missing element
    throws a TypeError. *)

Module Spectral.
Local Open Scope R_scope.

Record Complex : Type := mkComplex { real : R; imag : R }.

Definition add (a b : Complex) : Complex :=
  mkComplex (real a + real b) (imag a + imag b).

Definition subtract (a b : Complex) : Complex :=
  mkComplex (real a - real b) (imag a - imag b).

Definition multiply (a b : Complex) : Complex :=
  mkComplex (real a * real b - imag a * imag b)
            (real a * imag b + imag a * real b).

Definition magnitude (a : Complex) : R :=
  sqrt (real a * real a + imag a * imag a).

(** A number that may be NaN. *)
Inductive jsnum : Type :=
| Num (x : R)
| NaN.

(** [Math.round] on a real number: [floor (x + 1/2)]. *)
Definition Math_round (x : R) : R := IZR (Int_part (x + / 2)).

Definition undefined_read : error :=
  TypeError "Cannot read properties of undefined".

(** [a[k]] followed by a property access. *)
Definition read {A : Type} (a : list (option A)) (k : nat) : outcome A :=
  match a !! k with
  | Some (Some x) => Returns x
  | _ => Throws undefined_read
  end.

(** [a[k] = x] on an array: elements between the end and [k] stay
    missing ([hole]). *)
Definition assign {A : Type} (hole : A) (a : list A) (k : nat) (x : A) : list A :=
  if decide (k < length a)%nat then <[k := x]> a
  else a ++ replicate (k - length a)%nat hole ++ [x].

(** The loop that splits the input: even indices, odd indices. *)
Fixpoint split_parity {A : Type} (l : list A) : list A * list A :=
  match l with
  | [] => ([], [])
  | [x] => ([x], [])
  | x :: y :: l => let '(even, odd) := split_parity l in (x :: even, y :: odd)
  end.

(** The loop that combines the two half transforms, for [k < n / 2]. *)
Definition combine_step (n : nat) (evenTransformed oddTransformed : list (option Complex))
    (acc : outcome (list (option Complex))) (k : nat)
  : outcome (list (option Complex)) :=
  obind acc (λ output,
    let angle := - 2 * PI * INR k / INR n in
    let exponent := mkComplex (cos angle) (sin angle) in
    obind (read oddTransformed k) (λ o,
    let term := multiply exponent o in
    obind (read evenTransformed k) (λ e,
    let output := <[k := Some (add e term)]> output in
    (* [k + n / 2] is an index only when [n] is even *)
    let output :=
      if Nat.even n then <[(k + n / 2)%nat := Some (subtract e term)]> output
      else output in
    Returns output))).

Definition combine (n : nat) (evenTransformed oddTransformed : list (option Complex))
  : outcome (list (option Complex)) :=
  foldl (combine_step n evenTransformed oddTransformed)
        (Returns (replicate n None)) (seq 0 ((n + 1) / 2)%nat).

Lemma split_parity_length {A : Type} (l : list A) :
  (length (split_parity l).1 = (length l + 1) / 2 ∧
   length (split_parity l).2 = length l / 2)%nat.
Proof.
  induction l as [l IH] using (induction_ltof1 _ (@length A)). unfold ltof in IH.
  destruct l as [|x [|y l]]; [done|done|].
  cbn [split_parity]. destruct (IH l) as [H1 H2]; [simpl; lia|].
  destruct (split_parity l) as [even odd]. cbn [fst snd length] in *.
  rewrite H1, H2.
  replace (S (S (length l)) + 1)%nat with (length l + 1 + 1 * 2)%nat by lia.
  replace (S (S (length l))) with (length l + 1 * 2)%nat by lia.
  rewrite !Nat.div_add by lia. lia.
Qed.

(** The radix-2 transform. On an empty input the source calls itself
    without end; the engine ends that with a RangeError. *)
Equations? fft1D (input : list (option Complex)) : outcome (list (option Complex))
  by wf (length input) lt :=
fft1D [] := Throws (RangeError "Maximum call stack size exceeded");
fft1D [x] := obind (read [x] 0%nat) (λ x, Returns [Some (mkComplex (real x) (imag x))]);
fft1D (x :: y :: l) :=
  obind (fft1D (split_parity (x :: y :: l)).1) (λ evenTransformed,
  obind (fft1D (split_parity (x :: y :: l)).2) (λ oddTransformed,
  combine (length (x :: y :: l)) evenTransformed oddTransformed)).
Proof.
  all: destruct (split_parity_length (x :: y :: l)) as [H1 H2].
  all: cbn [length] in *.
  all: change (let '(even, odd) := split_parity l in (x :: even, y :: odd))
         with (split_parity (x :: y :: l)).
  - rewrite H1. replace (S (S (length l)) + 1)%nat with (length l + 1 + 1 * 2)%nat by lia.
    rewrite Nat.div_add by lia.
    assert ((length l + 1) / 2 ≤ length l)%nat; [|lia].
    destruct (length l); [done|]. apply Nat.Div0.div_le_upper_bound; lia.
  - rewrite H2. apply Nat.div_lt; lia.
Qed.

(** [Array.prototype.map] with a callback that may throw. *)
Fixpoint mapM {A B : Type} (f : A → outcome B) (l : list A) : outcome (list B) :=
  match l with
  | [] => Returns []
  | x :: l => obind (f x) (λ y, obind (mapM f l) (λ ys, Returns (y :: ys)))
  end.

(** [fft2D(matrix)]: the rows, then the columns. *)
Definition fft2D (matrix : list (list R)) : outcome (list (list (option Complex))) :=
  let rows := length matrix in
  match matrix !! 0%nat with
  | None => Throws undefined_read
  | Some row0 =>
      let cols := length row0 in
      obind
        (foldl (λ acc i,
                  obind acc (λ rowTransformed,
                  let row : list (option Complex) :=
                    fmap (M := list) (λ val : R, Some (mkComplex val 0)) (default [] (matrix !! i)) in
                  obind (fft1D row) (λ t, Returns (rowTransformed ++ [t]))))
               (Returns []) (seq 0 rows))
        (λ rowTransformed,
           foldl (λ acc j,
                    obind acc (λ result,
                    let col : list (option Complex) :=
                      fmap (M := list) (λ i : nat, mjoin (default [] (rowTransformed !! i) !! j))
                           (seq 0 rows) in
                    obind (fft1D col) (λ colTransformed,
                    Returns
                      (foldl (λ result i,
                                let r := default [] (result !! i) in
                                assign [] result i
                                  (assign None r j (mjoin (colTransformed !! i))))
                             result (seq 0 rows)))))
                 (Returns []) (seq 0 cols))
  end.

(** [fftShift(matrix)]: the zero frequency moved to the centre. *)
Definition fftShift (matrix : list (list (option Complex)))
  : outcome (list (list (option Complex))) :=
  let rows := length matrix in
  match matrix !! 0%nat with
  | None => Throws undefined_read
  | Some row0 =>
      let cols := length row0 in
      let halfRows := (rows / 2)%nat in
      let halfCols := (cols / 2)%nat in
      Returns
        (foldl (λ shifted i,
                  foldl (λ shifted j,
                           let newI := ((i + halfRows) mod rows)%nat in
                           let newJ := ((j + halfCols) mod cols)%nat in
                           alter (<[newJ := mjoin (default [] (matrix !! i) !! j)]>)
                                 newI shifted)
                        shifted (seq 0 cols))
               (replicate rows (replicate cols None)) (seq 0 rows))
  end.

(** [complex.magnitude()] on an element of the shifted spectrum. *)
Definition magnitude_of (c : option Complex) : outcome R :=
  match c with
  | Some c => Returns (magnitude c)
  | None => Throws undefined_read
  end.

#[global] Instance Rlt_decision (x y : R) : Decision (x < y) := Rlt_dec x y.
#[global] Instance Rle_decision (x y : R) : Decision (x <= y) := Rle_dec x y.
#[global] Instance Req_decision (x y : R) : Decision (x = y) := Req_dec_T x y.

(** The distance of every cell of a block from its centre. *)
Definition distFromCenter (blockSize : nat) : list (list R) :=
  let crow := INR blockSize / 2 in
  let ccol := INR blockSize / 2 in
  (λ y, (λ x, sqrt ((INR x - ccol) ^ 2 + (INR y - crow) ^ 2)) <$> seq 0 blockSize)
  <$> seq 0 blockSize.

Definition lowFreqMask (blockSize : nat) : list (list bool) :=
  (λ row : list R, (λ dist, bool_decide (dist <= INR blockSize / 4)) <$> row)
  <$> distFromCenter blockSize.

Definition midfreq (blockSize : nat) : list (list bool) :=
  (λ row : list R, (λ dist, bool_decide (dist < INR blockSize / 4) &&
                   bool_decide (INR blockSize / 2.5 < dist)) <$> row)
  <$> distFromCenter blockSize.

Definition highFreqMask (blockSize : nat) : list (list bool) :=
  (λ row : list R, (λ dist, bool_decide (INR blockSize / 2.5 < dist)) <$> row)
  <$> distFromCenter blockSize.

Definition jadd (a b : jsnum) : jsnum :=
  match a, b with
  | Num x, Num y => Num (x + y)
  | _, _ => NaN
  end.

(** [logMagnitude[y][x]] as an operand of [+=]: a missing row throws, a
    missing element is [undefined], which adds as NaN. *)
Definition log_at (logMagnitude : list (list R)) (y x : nat) : outcome jsnum :=
  match logMagnitude !! y with
  | None => Throws undefined_read
  | Some row => Returns (match row !! x with Some v => Num v | None => NaN end)
  end.

Definition mask_at (mask : list (list bool)) (y x : nat) : bool :=
  default false (mask !! y ≫= (.!! x)).

(** The two energy sums: (lowEnergy, highEnergy). *)
Definition energies (blockSize : nat) (logMagnitude : list (list R))
  : outcome (jsnum * jsnum) :=
  foldl (λ acc y,
           foldl (λ acc x,
                    obind acc (λ '(lowEnergy, highEnergy),
                    if mask_at (lowFreqMask blockSize) y x then
                      obind (log_at logMagnitude y x) (λ v,
                      Returns (jadd lowEnergy v, highEnergy))
                    else if mask_at (highFreqMask blockSize) y x then
                      obind (log_at logMagnitude y x) (λ v,
                      Returns (lowEnergy, jadd highEnergy v))
                    else Returns (lowEnergy, highEnergy)))
                 acc (seq 0 blockSize))
        (Returns (Num 0, Num 0)) (seq 0 blockSize).

(** [Math.round(e / binsize) * binsize]; dividing by a zero bin size gives
    NaN or an infinity, and NaN after the multiplication. *)
Definition quantize (e : jsnum) (binsize : R) : jsnum :=
  match e with
  | Num x => if decide (binsize = 0) then NaN else Num (Math_round (x / binsize) * binsize)
  | NaN => NaN
  end.

(** An array of arrays of booleans as an operand of [/]: the array is
    converted to the string of its elements joined by commas, and the
    string to a number. *)
Definition bool_string (b : bool) : string := if b then "true" else "false".

Fixpoint join (l : list string) : string :=
  match l with
  | [] => ""
  | [x] => x
  | x :: l => x +:+ "," +:+ join l
  end.

Definition mask_string (mask : list (list bool)) : string :=
  join ((λ row : list bool, join (bool_string <$> row)) <$> mask).

(** The number a string of the words true and false and of commas stands
    for: 0 for the empty string, and NaN for every other one, none of
    them being a numeric literal. *)
Definition mask_number (s : string) : jsnum :=
  if decide (s = "") then Num 0 else NaN.

(** The feature vector [hs] of one block. *)
Definition feature_vector (binsize : R) (ids : Z) (blockSize : nat)
    (lowEnergy highEnergy : jsnum) : list jsnum :=
  let hs := [quantize highEnergy binsize; quantize lowEnergy binsize] in
  if decide (2 < ids)%Z then
    hs ++ [quantize (mask_number (mask_string (midfreq blockSize))) binsize]
  else hs.

Definition sumR (l : list R) : R := foldl Rplus 0 l.

(** The body of the main loop for one block. *)
Definition block_features (mat : list (list R)) (binsize : R) (ids : Z)
    (blockSize : nat) : outcome (list jsnum) :=
  let flatMat := concat mat in
  let mean := sumR flatMat / INR (length flatMat) in
  let std := sqrt (foldl (λ sum val, sum + (val - mean) ^ 2) 0 flatMat
                   / INR (length flatMat)) in
  let matNormalized :=
    (λ row : list R, (λ val, (val - mean) / (std + / 10 ^ 10)) <$> row) <$> mat in
  obind (fft2D matNormalized) (λ n_I,
  obind (fftShift n_I) (λ n_I_shifted,
  obind (mapM (mapM magnitude_of) n_I_shifted) (λ magnitudeSpectrum,
  let logMagnitude :=
    (λ row : list R, (λ val, ln (1 + val)) <$> row) <$> magnitudeSpectrum in
  obind (energies blockSize logMagnitude) (λ '(lowEnergy, highEnergy),
  Returns (feature_vector binsize ids blockSize lowEnergy highEnergy))))).

(** [I_mat(matrices, binsize, ids, blockSize)]. The parameter [visualize]
    is read nowhere. *)
Definition I_mat (matrices : list (list (list R))) (binsize : R) (ids : Z)
    (blockSize : nat) : outcome (list (list (option (list jsnum)))) :=
  let n := Nat.sqrt (length matrices) in
  if decide (n * n ≠ length matrices)%nat then
    Throws (Error "Number of matrices must form a perfect square")
  else
    foldl (λ acc idx,
             obind acc (λ results,
             let row := (idx / n)%nat in
             let col := (idx mod n)%nat in
             obind (block_features (default [] (matrices !! idx)) binsize ids blockSize)
                   (λ hs, Returns (alter (<[col := Some hs]>) row results))))
          (Returns (replicate n (replicate n None))) (seq 0 (length matrices)).

End Spectral.

(* ================================================================= *)
(** ** findclusters and the array it is given (pattern_detection.js)

    dfs writes 0 into the cells of [grid] itself: the array the caller
    passed is changed by the call. *)

Module ClusterStore.
Import Cluster.

(** [findclusters(grid, minSize)] with the store: the array after the
    call, and the object returned. *)
Definition findclusters_in_place (g : grid) (minSize : Z) : option (grid * clusters) :=
  if bool_decide (length g = 0%nat) then
    Some (g, {| count := 0; sizes := []; totalSize := 0; score := None |})
  else
    let rows := Z.of_nat (length g) in
    let cols := Z.of_nat (length (default [] (g !! 0%nat))) in
    st ← scan (S (ones g)) rows cols minSize
            {| st_grid := g; st_score := 0%float; st_sizes := [];
               st_totalSize := 0; st_count := 0 |};
    Some (st_grid st,
          {| count := st_count st; sizes := st_sizes st;
             totalSize := st_totalSize st; score := Some (st_score st) |}).

End ClusterStore.

(* ================================================================= *)
(** ** intToBase62 (image_processing.js)

    A string built one character at a time is a list of characters. *)

Module Base62.

Definition base62Chars : list ascii :=
  String.list_ascii_of_string "0123456789ABCDEFGHIJKLMNOPQRSTUVWXYZabcdefghijklmnopqrstuvwxyz".

(** [base62Chars[k]] as an operand of [+]: an index that the string does
    not have gives [undefined], which is added as the text "undefined".
    The index -0 is the index 0. *)
Definition char_at (k : Z) : list ascii :=
  match (if decide (0 ≤ k) then base62Chars !! Z.to_nat k else None) with
  | Some c => [c]
  | None => String.list_ascii_of_string "undefined"
  end.

(** [do { ... } while (n > 0)]: [n % 62] is the remainder that has the
    sign of [n], and [Math.floor(n / 62)] rounds down. *)
Fixpoint digits (fuel : nat) (n : Z) (result : list ascii) : option (list ascii) :=
  match fuel with
  | O => None
  | S fuel =>
      let result := char_at (Z.rem n 62) ++ result in
      let n := n / 62 in
      if decide (0 < n) then digits fuel n result else Some result
  end.

(** [while (result.length < length) result = '0' + result]. *)
Fixpoint pad (fuel : nat) (len : Z) (result : list ascii) : option (list ascii) :=
  if decide (Z.of_nat (length result) < len) then
    match fuel with
    | O => None
    | S fuel => pad fuel len ("0"%char :: result)
    end
  else Some result.

(** [s.slice(start)]: a negative [start] counts from the end. *)
Definition slice_from (s : list ascii) (start : Z) : list ascii :=
  let n := Z.of_nat (length s) in
  let from := if decide (start < 0) then Z.max (n + start) 0 else Z.min start n in
  drop (Z.to_nat from) s.

(** [intToBase62(number, length)], on integers. *)
Definition intToBase62 (number len : Z) : option (list ascii) :=
  result ← digits (S (Z.to_nat (Z.log2 number))) number [];
  result ← pad (Z.to_nat len) len result;
  Some (if decide (len < Z.of_nat (length result)) then slice_from result (- len)
        else result).

End Base62.

(* ================================================================= *)
(** ** The validation run: test (test.js)

    [detect] is called on one image after the other inside [try] blocks
    whose [catch] is empty. What the run depends on is, for each call,
    the object the promise resolves to, or that it was rejected. *)

Module Validation.
Import Scorer.

Record stats : Type := Stats {
  tb_detected : Z; tb_missed : Z;
  nr_detected : Z; nr_missed : Z
}.

(** The variables of the run: [result], [tries] and [stats]. *)
Record run : Type := Run { result : Z; tries : Z; st : stats }.

(** [ToNumber] of the object detect resolves to. It is a plain object:
    its primitive value is the string "[object Object]", which is no
    numeral. *)
Definition to_number (ana : detection) : float := nan.

Definition tb_url (index : nat) : string :=
  "./Dataset of Tuberculosis Chest X-rays Images/TB Chest X-rays/TB." +:+
  pretty index +:+ ".jpg".

Definition nr_url (index : nat) : string :=
  "./chest_xray/train/PNEUMONIA/pneumia (" +:+ pretty index +:+ ").jpeg".

Section Test.
(** The parameters [ac] and [itm] are numbers that test only hands on. *)
Context {Num : Type}.
(** [await detect(url, ac, itm, ext)]: [None] when the promise is rejected. *)
Variable detect : string → Num → Num → bool → option detection.
Variables ac itm : Num.
Variable ext : bool.

(** The body of the first loop. *)
Definition tb_step (index : nat) (r : run) : option run :=
  Some
    match detect (tb_url index) ac itm ext with
    | Some ana =>
        let tries := tries r + 1 in
        if (1200 <? to_number ana)%float then   (* ana > 1200 *)
          {| result := result r + 1; tries := tries;
             st := {| tb_detected := tb_detected (st r) + 1; tb_missed := tb_missed (st r);
                      nr_detected := nr_detected (st r); nr_missed := nr_missed (st r) |} |}
        else
          {| result := result r; tries := tries;
             st := {| tb_detected := tb_detected (st r); tb_missed := tb_missed (st r) + 1;
                      nr_detected := nr_detected (st r); nr_missed := nr_missed (st r) |} |}
    | None => r
    end.

(** The body of the second loop. *)
Definition nr_step (index : nat) (r : run) : option run :=
  Some
    match detect (nr_url index) ac itm ext with
    | Some ana =>
        let tries := tries r + 1 in
        if (to_number ana <? 1200)%float then   (* ana < 1200 *)
          {| result := result r + 1; tries := tries;
             st := {| tb_detected := tb_detected (st r); tb_missed := tb_missed (st r);
                      nr_detected := nr_detected (st r) + 1; nr_missed := nr_missed (st r) |} |}
        else
          {| result := result r; tries := tries;
             st := {| tb_detected := tb_detected (st r); tb_missed := tb_missed (st r);
                      nr_detected := nr_detected (st r); nr_missed := nr_missed (st r) + 1 |} |}
    | None => r
    end.

(** [test(ac, itm, ext)]: the two values of the last [console.log],
    [result / tries] and [stats]. *)
Definition test : option (float * stats) :=
  r ← for_step 700 1 700 3 tb_step
        {| result := 0; tries := 0;
           st := {| tb_detected := 0; tb_missed := 0; nr_detected := 0; nr_missed := 0 |} |};
  r ← for_step 1500 800 1500 2 nr_step r;
  Some ((JS.of_Z (result r) / JS.of_Z (tries r))%float, st r).

End Test.
End Validation.



(* ================================================================= *)
(** ** Training: hasThreeZerosInFirstFour and setData (pattern.js)

    The model that setData builds is an object keyed by token. The keys
    are tokens of hash, numbers joined by underscores, none of which is
    the name of a property that every object inherits. *)

Module Training.
Import Scorer.

(** [inputString.split(sep)] for a separator of one character: the parts
    between the separators; a string without separator is one part. *)
Fixpoint split (sep : ascii) (s : string) : list string :=
  match s with
  | EmptyString => [EmptyString]
  | String c s =>
      if decide (c = sep) then EmptyString :: split sep s
      else
        match split sep s with
        | p :: ps => String c p :: ps
        | [] => [String c EmptyString]
        end
  end.

(** The value of [parseInt(part, 10)] as far as the comparisons with 0
    and 1 need it: NaN, or an integer with its sign ([parseInt("-0")] is
    -0). *)
Inductive parsed : Type :=
| PNaN
| PInt (negative : bool) (magnitude : N).

(** The white space that parseInt skips, among the characters below 256:
    TAB, LF, VT, FF, CR, space and the no-break space. *)
Definition is_white (c : ascii) : bool :=
  bool_decide (N_of_ascii c ∈ [9; 10; 11; 12; 13; 32; 160]%N).

Fixpoint trim_start (s : string) : string :=
  match s with
  | String c s' => if is_white c then trim_start s' else s
  | EmptyString => EmptyString
  end.

Definition digit_of (c : ascii) : option N :=
  let n := N_of_ascii c in
  if decide (48 ≤ n ≤ 57)%N then Some (n - 48)%N else None.

(** The integer that the decimal digits at the start of [s] stand for. *)
Fixpoint read_digits (s : string) (acc : N) : N :=
  match s with
  | String c s' =>
      match digit_of c with
      | Some d => read_digits s' (10 * acc + d)%N
      | None => acc
      end
  | EmptyString => acc
  end.

(** [parseInt(s, 10)]: white space, a sign, then digits up to the first
    character that is none; NaN when there is no digit. *)
Definition parseInt (s : string) : parsed :=
  let s := trim_start s in
  let '(negative, s) :=
    match s with
    | String "-" s' => (true, s')
    | String "+" s' => (false, s')
    | _ => (false, s)
    end in
  match s with
  | String c _ =>
      match digit_of c with
      | Some _ => PInt negative (read_digits s 0)
      | None => PNaN
      end
  | EmptyString => PNaN
  end.

(** [num === 0] holds for 0 and for -0. *)
Definition is_zero (num : parsed) : bool :=
  match num with PInt _ 0 => true | _ => false end.

(** [num === 1]. *)
Definition is_one (num : parsed) : bool :=
  match num with PInt false 1 => true | _ => false end.

Definition hasThreeZerosInFirstFour (inputString : string) : bool :=
  let parts := split "_" inputString in
  if decide (length parts < 4)%nat then false
  else
    let firstFour := parseInt <$> take 4 parts in
    let zeroCount := length (filter (λ num, is_zero num) firstFour) in
    let oneCount := length (filter (λ num, is_one num) firstFour) in
    bool_decide (3 ≤ zeroCount)%nat || bool_decide (3 ≤ oneCount)%nat.

(** *** setData *)

Definition basetb (dts : bool) (index : nat) : string :=
  if dts then "./Tuberculosis/Tuberculosis-" +:+ pretty index +:+ ".png"
  else "./Dataset of Tuberculosis Chest X-rays Images/TB Chest X-rays/TB." +:+
       pretty index +:+ ".jpg".

Definition basenr (dts : bool) (index : nat) : string :=
  if dts then "./Normal/Normal-" +:+ pretty index +:+ ".png"
  else "./Dataset of Tuberculosis Chest X-rays Images/Normal Chest X-rays/others (" +:+
       pretty index +:+ ").jpg".

(** The callback of [hashed.forEach] in the first loop. *)
Definition record_normal (hashes : TrainedModel) (e : string) : TrainedModel :=
  if negb (hasThreeZerosInFirstFour e) then
    match hashes !! e with
    | Some d => <[e := {| normal := normal d + 1; anomaly := anomaly d |}]> hashes
    | None => <[e := {| normal := 1; anomaly := 0 |}]> hashes
    end
  else hashes.

(** The callback of [hashed.forEach] in the second loop. *)
Definition record_tb (hashes : TrainedModel) (e : string) : TrainedModel :=
  if negb (hasThreeZerosInFirstFour e) then
    match hashes !! e with
    | Some d => <[e := {| normal := normal d; anomaly := anomaly d + 1 |}]> hashes
    | None => <[e := {| normal := 0; anomaly := 1 |}]> hashes
    end
  else hashes.

Section SetData.
(** [(await analyze(url, accuracy, itm, ext)).hashes]: [None] when the
    promise is rejected, which the [catch] of the loop body takes up. *)
Variable analyze : string → float → float → bool → option (list string).
Variable dts : bool.
Variables accuracy itm : float.
Variable ext : bool.

(** The body of the first loop. *)
Definition normal_step (index : nat) (hashes : TrainedModel) : option TrainedModel :=
  Some
    match analyze (basenr dts index) accuracy itm ext with
    | Some hashed => foldl record_normal hashes hashed
    | None => hashes
    end.

(** The body of the second loop: [analyze(url)] is called with the url
    alone, so with the default values of its parameters, [accuracy = 2],
    [itm = 2] and [ext = false]. *)
Definition tb_step (index : nat) (hashes : TrainedModel) : option TrainedModel :=
  Some
    match analyze (basetb dts index) 2%float 2%float false with
    | Some hashed => foldl record_tb hashes hashed
    | None => hashes
    end.

(** [setData(dts, accuracy, itm, ext)]: the object handed to
    downloadObjectAsJson. *)
Definition setData : option TrainedModel :=
  hashes ← for_step 160 1 160 2 normal_step ∅;
  for_step 600 1 600 10 tb_step hashes.

End SetData.
End Training.

(* ================================================================= *)
(** ** The pixel loop of imageToGrayscaleMatrix

    Loading the image and drawing it on a canvas is the browser's work.
    What the handler computes itself is the matrix, from the width and
    the height of the canvas and the array of its pixels. *)

Module Grayscale.

(** [data[idx]] as an operand of [*]: an element of the pixel array is an
    integer from 0 to 255, a missing one is [undefined], NaN as a number. *)
Definition channel (data : list Z) (idx : nat) : float :=
  match data !! idx with
  | Some v => JS.of_Z v
  | None => nan
  end.

(** The value pushed for the pixel whose first channel is at [idx]. *)
Definition gray (data : list Z) (idx : nat) : float :=
  let r := channel data idx in
  let g := channel data (idx + 1) in
  let b := channel data (idx + 2) in
  JS.Math_round (0.299 * r + 0.587 * g + 0.114 * b)%float.

(** The two loops of the [onload] handler of imageToGrayscaleMatrix, on
    the width and the height of the canvas and the array of its pixels:
    four elements for each pixel, row after row. *)
Definition grayscale_matrix (width height : nat) (data : list Z) : list (list float) :=
  foldl (λ matrix y,
           matrix ++
           [foldl (λ row x, row ++ [gray data ((y * width + x) * 4)%nat])
                  [] (seq 0 width)])
        [] (seq 0 height).

End Grayscale.


(* ================================================================= *)
(** * Proofs *)

(** ** Generic loop facts *)

Lemma for_each_app {S I : Type} (l1 l2 : list I) (body : I → S → option S) (s : S) :
  for_each (l1 ++ l2) body s = (s' ← for_each l1 body s; for_each l2 body s').
Proof.
  revert s. induction l1 as [|x l1 IH]; intros s; simpl; [done|].
  destruct (body x s) as [s'|]; simpl; [apply IH|done].
Qed.

(** Two nested loops are one loop over the pairs, outer index first. *)
Lemma for_each_nested {S I J : Type} (l1 : list I) (l2 : list J)
    (body : I → J → S → option S) (s : S) :
  for_each l1 (λ i s, for_each l2 (λ j s, body i j s) s) s =
  for_each (i ← l1; j ← l2; [(i, j)]) (λ p s, body p.1 p.2 s) s.
Proof.
  revert s. induction l1 as [|i l1 IH]; intros s; [done|].
  cbn [for_each mbind list_bind]. rewrite for_each_app.
  assert (Hin : ∀ s, for_each l2 (λ j s, body i j s) s =
                     for_each (j ← l2; [(i, j)]) (λ p s, body p.1 p.2 s) s).
  { clear. induction l2 as [|j l2 IH2]; intros s; [done|].
    simpl. destruct (body i j s); simpl; [apply IH2|done]. }
  rewrite Hin. destruct (for_each _ _ s) as [s'|]; simpl; [apply IH|done].
Qed.

(** Sum of a list of integers. *)
Definition sumZ (l : list Z) : Z := foldr Z.add 0 l.

Lemma sumZ_snoc l x : sumZ (l ++ [x]) = sumZ l + x.
Proof. unfold sumZ. induction l as [|y l IH]; simpl; lia. Qed.

(** A loop over [lo, lo + n) keeps an invariant indexed by the position. *)
Lemma for_each_seqZ_inv {S : Type} (Inv : Z → S → Prop) (body : Z → S → option S)
    (lo n : Z) (s : S) :
  (∀ k s, lo ≤ k < lo + n → Inv k s → ∃ s', body k s = Some s' ∧ Inv (k + 1) s') →
  0 ≤ n → Inv lo s →
  ∃ s', for_each (seqZ lo n) body s = Some s' ∧ Inv (lo + n) s'.
Proof.
  intros Hbody Hn. remember (Z.to_nat n) as m eqn:Hm.
  revert lo n s Hbody Hn Hm. induction m as [|m IH]; intros lo n s Hbody Hn Hm Hs.
  - assert (n = 0) as -> by lia. exists s. rewrite Z.add_0_r. by rewrite seqZ_nil.
  - rewrite seqZ_cons by lia. cbn [for_each].
    destruct (Hbody lo s) as (s1 & -> & Hs1); [lia|done|]. simpl.
    destruct (IH (Z.succ lo) (Z.pred n) s1) as (s' & E & Hs').
    + intros k s2 Hk. apply Hbody. lia.
    + lia.
    + lia.
    + by replace (Z.succ lo) with (lo + 1) by lia.
    + exists s'. split; [done|]. by replace (lo + n) with (Z.succ lo + Z.pred n) by lia.
Qed.

Section StepLoops.
Local Open Scope nat_scope.

(** A loop with a positive step keeps an invariant indexed by the number
    of iterations done, and ends after the least number [m] of iterations
    with [bound <= m * step]. *)
Lemma for_step_inv {S : Type} (Inv : nat → S → Prop) (body : nat → S → option S)
    (fuel bound step k : nat) (s : S) :
  0 < step → bound ≤ (k + fuel) * step →
  (∀ j s, j * step < bound → Inv j s →
          ∃ s', body (j * step) s = Some s' ∧ Inv (Datatypes.S j) s') →
  Inv k s →
  ∃ s' m, for_step fuel (k * step) bound step body s = Some s' ∧ Inv m s' ∧
          k ≤ m ∧ bound ≤ m * step ∧ (m = k ∨ (m - 1) * step < bound).
Proof.
  intros Hstep Hfuel Hbody. revert k s Hfuel.
  induction fuel as [|fuel IH]; intros k s Hfuel Hs.
  - exists s, k. simpl. case_decide; [lia|]. split_and!; auto; lia.
  - cbn [for_step]. case_decide as Hlt.
    + destruct (Hbody k s Hlt Hs) as (s1 & -> & Hs1). simpl.
      destruct (IH (Datatypes.S k) s1) as (s' & m & E & Hm & Hle & Hb & Hor).
      * lia.
      * done.
      * replace (k * step + step) with (Datatypes.S k * step) by lia.
        exists s', m. split_and!; [done|done|lia|done|].
        right. destruct Hor as [->|?]; [|done].
        by replace (Datatypes.S k - 1) with k by lia.
    + exists s, k. split_and!; auto; lia.
Qed.

(** A loop over [0, n) keeps an invariant indexed by the position. *)
Lemma foldl_seq_inv {S : Type} (Inv : nat → S → Prop) (f : S → nat → S) (s : S) (n : nat) :
  Inv 0 s → (∀ j s, j < n → Inv j s → Inv (Datatypes.S j) (f s j)) →
  Inv n (foldl f s (seq 0 n)).
Proof.
  intros H0 Hstep. induction n as [|n IH]; [done|].
  rewrite seq_S, foldl_app. simpl. apply Hstep; [lia|].
  apply IH. intros j s' Hj. apply Hstep. lia.
Qed.


End StepLoops.

Module ClusterFacts.
Import Cluster.

Section WithDims.
Variables rows cols : Z.

(** A cell inside the scanned area that holds 1. *)
Definition one (g : grid) (c : cell) : Prop :=
  0 ≤ c.1 < rows ∧ 0 ≤ c.2 < cols ∧ get g c.1 c.2 = Some 1.

(** Up, down, left, right. *)
Definition adj4 (a b : cell) : Prop :=
  (a.2 = b.2 ∧ (b.1 = a.1 + 1 ∨ b.1 = a.1 - 1)) ∨
  (a.1 = b.1 ∧ (b.2 = a.2 + 1 ∨ b.2 = a.2 - 1)).

(** One step between two 4-adjacent cells that both hold 1. *)
Definition link (g : grid) (a b : cell) : Prop :=
  one g a ∧ one g b ∧ adj4 a b.

(** 4-connectivity through cells that hold 1. *)
Definition connected (g : grid) : relation cell := rtc (link g).

(** Row-major order of the scan. *)
Definition rm_lt (a b : cell) : Prop := a.1 < b.1 ∨ (a.1 = b.1 ∧ a.2 < b.2).
Definition rm_le (a b : cell) : Prop := a.1 < b.1 ∨ (a.1 = b.1 ∧ a.2 ≤ b.2).

#[local] Instance one_dec g c : Decision (one g c).
Proof. unfold one. apply _. Defined.

Lemma adj4_sym a b : adj4 a b → adj4 b a.
Proof. unfold adj4. lia. Qed.

Lemma adj4_cases i j y :
  adj4 (i, j) y → y = (i + 1, j) ∨ y = (i - 1, j) ∨ y = (i, j + 1) ∨ y = (i, j - 1).
Proof.
  destruct y as [a b]. unfold adj4. simpl. intros H.
  assert (a = i + 1 ∧ b = j ∨ a = i - 1 ∧ b = j ∨ a = i ∧ b = j + 1 ∨ a = i ∧ b = j - 1)
    as [[-> ->]|[[-> ->]|[[-> ->]|[-> ->]]]] by lia; auto.
Qed.

Lemma get_clear_eq g i j v :
  0 ≤ i → 0 ≤ j → get g i j = Some v → get (clear g i j) i j = Some 0.
Proof.
  unfold get, clear. intros _ _ H.
  destruct (g !! Z.to_nat i) as [row|] eqn:Hrow; [|done]. simpl in H.
  rewrite list_lookup_alter_eq, Hrow. simpl.
  apply list_lookup_insert_eq. by eapply lookup_lt_Some.
Qed.

Lemma get_clear_ne g i j a b :
  0 ≤ i → 0 ≤ j → 0 ≤ a → 0 ≤ b → (a, b) ≠ (i, j) →
  get (clear g i j) a b = get g a b.
Proof.
  unfold get, clear. intros Hi Hj Ha Hb Hne.
  destruct (decide (Z.to_nat a = Z.to_nat i)) as [Heq|Hneq].
  - rewrite Heq, list_lookup_alter_eq.
    destruct (g !! Z.to_nat i) as [row|]; [|done]. simpl.
    apply list_lookup_insert_ne. intros Hb'.
    apply Hne. f_equal; lia.
  - by rewrite list_lookup_alter_ne.
Qed.

Lemma filter_insert_zero (row : list Z) (k : nat) :
  row !! k = Some 1 →
  S (length (filter (λ v, v = 1) (<[k:=0]> row))) = length (filter (λ v, v = 1) row).
Proof.
  revert k. induction row as [|v row IHr]; intros [|k] H; simpl in *; try done.
  - injection H as ->. rewrite !filter_cons. repeat case_decide; done.
  - rewrite !filter_cons. specialize (IHr k H). case_decide; simpl; lia.
Qed.

Lemma ones_cons (row : list Z) (g : grid) :
  ones (row :: g) = (length (filter (λ v : Z, v = 1%Z) row) + ones g)%nat.
Proof. done. Qed.

Lemma ones_clear g i j :
  get g i j = Some 1 → S (ones (clear g i j)) = ones g.
Proof.
  unfold get, clear.
  generalize (Z.to_nat i) as r. generalize (Z.to_nat j) as k. clear i j.
  intros k r. revert r. induction g as [|row g IH]; intros [|r] H; try done.
  - change (S (ones (<[k:=0]> row :: g)) = ones (row :: g)).
    rewrite !ones_cons, <- (filter_insert_zero row k H). done.
  - change (S (ones (row :: alter (<[k:=0]>) r g)) = ones (row :: g)).
    rewrite !ones_cons, <- (IH r H). lia.
Qed.

Lemma one_clear g i j x :
  one g (i, j) → one (clear g i j) x ↔ one g x ∧ x ≠ (i, j).
Proof.
  intros (Hi & Hj & Hg). destruct x as [a b]. unfold one. simpl in *. split.
  - intros (Ha & Hb & Hx). destruct (decide ((a, b) = (i, j))) as [[= -> ->]|Hne].
    + rewrite (get_clear_eq _ _ _ 1) in Hx; [done|lia|lia|done].
    + rewrite get_clear_ne in Hx by (done || lia). done.
  - intros ((Ha & Hb & Hx) & Hne). rewrite get_clear_ne by (done || lia). done.
Qed.

Lemma connected_mono g g' a b :
  (∀ x, one g' x → one g x) → connected g' a b → connected g a b.
Proof.
  intros Hsub. apply rtc_subrel. intros x y (Hx & Hy & Hadj).
  split_and!; auto.
Qed.

Lemma connected_one_start g a b : connected g a b → one g b → one g a.
Proof. intros H Hb. destruct H as [|a y b (Ha & _) _]; done. Qed.

Lemma connected_sym g a b : connected g a b → connected g b a.
Proof.
  induction 1 as [|a y b (Ha & Hy & Hadj) _ IH]; [done|].
  eapply rtc_r; [exact IH|]. split_and!; auto using adj4_sym.
Qed.

(** What one call of dfs at [c] on grid [g] does: it clears the cells
    [cs] and returns their number. *)
Record dfs_post (g : grid) (c : cell) (g' : grid) (n : Z) (cs : list cell) : Prop := {
  dp_nodup : NoDup cs;
  dp_size : n = Z.of_nat (length cs);
  dp_sound : ∀ x, x ∈ cs → one g x ∧ connected g c x;
  dp_grid : ∀ x, one g' x ↔ one g x ∧ x ∉ cs;
  dp_closed : ∀ x y, x ∈ cs → adj4 x y → ¬ one g' y;
  dp_start : one g c → c ∈ cs;
  dp_ones : (ones g' + length cs)%nat = ones g
}.

(** A neighbour call inside dfs: what it cleared is connected to the
    cell the caller cleared just before. *)
Lemma dfs_post_lift g c g1 c' g' n cs x :
  one g c → adj4 c c' → (∀ y, one g1 y → one g y) →
  dfs_post g1 c' g' n cs → x ∈ cs → one g x ∧ connected g c x.
Proof.
  intros Hc Hadj Hsub P Hx. destruct (dp_sound _ _ _ _ _ P x Hx) as [H1 Hconn].
  split; [auto|]. eapply rtc_l.
  - split_and!; [done| |done]. apply Hsub. by eapply connected_one_start.
  - by eapply connected_mono.
Qed.

Lemma dfs_correct fuel : ∀ g i j, (ones g < fuel)%nat →
  ∃ g' n cs, dfs fuel rows cols g i j = Some (g', n) ∧ dfs_post g (i, j) g' n cs.
Proof.
  induction fuel as [|fuel IH]; intros g i j Hfuel; [lia|].
  cbn [dfs]. case_bool_decide as Hguard.
  { exists g, 0, []. split; [done|]. split.
    - constructor.
    - done.
    - intros x Hx. by apply elem_of_nil in Hx.
    - intros x. split; [intros ?; split; [done|by intros ?%elem_of_nil]|tauto].
    - intros x y Hx. by apply elem_of_nil in Hx.
    - intros (Hi & Hj & Hg). simpl in *.
      destruct Hguard as [?|[?|[?|[?|?]]]]; lia || done.
    - simpl. lia. }
  assert (Hc : one g (i, j)).
  { unfold one. simpl.
    destruct (decide (i < 0)); [tauto|]. destruct (decide (rows ≤ i)); [tauto|].
    destruct (decide (j < 0)); [tauto|]. destruct (decide (cols ≤ j)); [tauto|].
    destruct (decide (get g i j = Some 1)); [|tauto]. split_and!; lia || done. }
  pose proof (ones_clear g i j (proj2 (proj2 Hc))) as Hones.
  pose proof (one_clear g i j) as Hg1.
  destruct (IH (clear g i j) (i + 1) j) as (g2 & s1 & cs1 & E1 & P1); [lia|].
  destruct (IH g2 (i - 1) j) as (g3 & s2 & cs2 & E2 & P2);
    [pose proof (dp_ones _ _ _ _ _ P1); lia|].
  destruct (IH g3 i (j + 1)) as (g4 & s3 & cs3 & E3 & P3);
    [pose proof (dp_ones _ _ _ _ _ P1); pose proof (dp_ones _ _ _ _ _ P2); lia|].
  destruct (IH g4 i (j - 1)) as (g5 & s4 & cs4 & E4 & P4);
    [pose proof (dp_ones _ _ _ _ _ P1); pose proof (dp_ones _ _ _ _ _ P2);
     pose proof (dp_ones _ _ _ _ _ P3); lia|].
  rewrite E1. simpl. rewrite E2. simpl. rewrite E3. simpl. rewrite E4. simpl.
  exists g5, (1 + s1 + s2 + s3 + s4), ((i, j) :: cs1 ++ cs2 ++ cs3 ++ cs4).
  split; [done|].
  assert (S1 : ∀ x, x ∈ cs1 → one g x ∧ connected g (i, j) x).
  { intros x. apply (dfs_post_lift g (i, j) (clear g i j) (i + 1, j) g2 s1); auto.
    - unfold adj4; simpl; lia.
    - intros y Hy. by apply Hg1 in Hy as [? _]. }
  assert (M2 : ∀ y, one g2 y → one g y ∧ y ≠ (i, j) ∧ (y ∉ cs1)).
  { intros y Hy. apply (dp_grid _ _ _ _ _ P1) in Hy as [Hy ?]. apply Hg1 in Hy; tauto. }
  assert (S2 : ∀ x, x ∈ cs2 → one g x ∧ connected g (i, j) x).
  { intros x. apply (dfs_post_lift g (i, j) g2 (i - 1, j) g3 s2); auto.
    - unfold adj4; simpl; lia.
    - intros y Hy. by apply M2. }
  assert (M3 : ∀ y, one g3 y → one g y ∧ y ≠ (i, j) ∧ (y ∉ cs1) ∧ (y ∉ cs2)).
  { intros y Hy. apply (dp_grid _ _ _ _ _ P2) in Hy as [Hy ?]. apply M2 in Hy; tauto. }
  assert (S3 : ∀ x, x ∈ cs3 → one g x ∧ connected g (i, j) x).
  { intros x. apply (dfs_post_lift g (i, j) g3 (i, j + 1) g4 s3); auto.
    - unfold adj4; simpl; lia.
    - intros y Hy. by apply M3. }
  assert (M4 : ∀ y, one g4 y → one g y ∧ y ≠ (i, j) ∧ (y ∉ cs1) ∧ (y ∉ cs2) ∧ (y ∉ cs3)).
  { intros y Hy. apply (dp_grid _ _ _ _ _ P3) in Hy as [Hy ?]. apply M3 in Hy; tauto. }
  assert (S4 : ∀ x, x ∈ cs4 → one g x ∧ connected g (i, j) x).
  { intros x. apply (dfs_post_lift g (i, j) g4 (i, j - 1) g5 s4); auto.
    - unfold adj4; simpl; lia.
    - intros y Hy. by apply M4. }
  assert (M5 : ∀ y, one g5 y ↔
            one g y ∧ y ≠ (i, j) ∧ (y ∉ cs1) ∧ (y ∉ cs2) ∧ (y ∉ cs3) ∧ (y ∉ cs4)).
  { intros y. rewrite (dp_grid _ _ _ _ _ P4), (dp_grid _ _ _ _ _ P3),
      (dp_grid _ _ _ _ _ P2), (dp_grid _ _ _ _ _ P1), Hg1 by done. tauto. }
  assert (D4 : ∀ y, ¬ one g4 y → ¬ one g5 y).
  { intros y Hn Hy. apply (dp_grid _ _ _ _ _ P4) in Hy. tauto. }
  assert (D3 : ∀ y, ¬ one g3 y → ¬ one g5 y).
  { intros y Hn. apply D4. intros Hy. apply (dp_grid _ _ _ _ _ P3) in Hy. tauto. }
  assert (D2 : ∀ y, ¬ one g2 y → ¬ one g5 y).
  { intros y Hn. apply D3. intros Hy. apply (dp_grid _ _ _ _ _ P2) in Hy. tauto. }
  assert (K : ∀ g0 c' g'' n' cs', dfs_post g0 c' g'' n' cs' → ¬ one g'' c').
  { intros g0 c' g'' n' cs' P Hy. pose proof Hy as Hy'.
    apply (dp_grid _ _ _ _ _ P) in Hy as [Hy Hnin]. by apply Hnin, (dp_start _ _ _ _ _ P). }
  split.
  - (* no cell is cleared twice *)
    apply NoDup_cons. split.
    + rewrite !elem_of_app. intros [H|[H|[H|H]]].
      * apply (dp_sound _ _ _ _ _ P1) in H as [H _]. apply Hg1 in H; tauto.
      * apply (dp_sound _ _ _ _ _ P2) in H as [H _]. apply M2 in H; tauto.
      * apply (dp_sound _ _ _ _ _ P3) in H as [H _]. apply M3 in H; tauto.
      * apply (dp_sound _ _ _ _ _ P4) in H as [H _]. apply M4 in H; tauto.
    + apply NoDup_app. split; [apply (dp_nodup _ _ _ _ _ P1)|]. split.
      * intros x Hx1. rewrite !elem_of_app. intros [H|[H|H]].
        -- apply (dp_sound _ _ _ _ _ P2) in H as [H _]. apply M2 in H; tauto.
        -- apply (dp_sound _ _ _ _ _ P3) in H as [H _]. apply M3 in H; tauto.
        -- apply (dp_sound _ _ _ _ _ P4) in H as [H _]. apply M4 in H; tauto.
      * apply NoDup_app. split; [apply (dp_nodup _ _ _ _ _ P2)|]. split.
        -- intros x Hx2. rewrite !elem_of_app. intros [H|H].
           ++ apply (dp_sound _ _ _ _ _ P3) in H as [H _]. apply M3 in H; tauto.
           ++ apply (dp_sound _ _ _ _ _ P4) in H as [H _]. apply M4 in H; tauto.
        -- apply NoDup_app. split; [apply (dp_nodup _ _ _ _ _ P3)|]. split.
           ++ intros x Hx3 H.
              apply (dp_sound _ _ _ _ _ P4) in H as [H _]. apply M4 in H; tauto.
           ++ apply (dp_nodup _ _ _ _ _ P4).
  - rewrite (dp_size _ _ _ _ _ P1), (dp_size _ _ _ _ _ P2),
      (dp_size _ _ _ _ _ P3), (dp_size _ _ _ _ _ P4).
    simpl. rewrite !length_app. lia.
  - intros x. rewrite elem_of_cons, !elem_of_app.
    intros [->|[H|[H|[H|H]]]]; auto. split; [done|apply rtc_refl].
  - intros x. rewrite M5, elem_of_cons, !elem_of_app. tauto.
  - intros x y. rewrite elem_of_cons, !elem_of_app.
    intros [->|[H|[H|[H|H]]]] Hadj.
    + apply adj4_cases in Hadj as [-> | [-> | [-> | ->]]].
      * apply D2. by eapply K.
      * apply D3. by eapply K.
      * apply D4. by eapply K.
      * by eapply K.
    + apply D2. by eapply (dp_closed _ _ _ _ _ P1).
    + apply D3. by eapply (dp_closed _ _ _ _ _ P2).
    + apply D4. by eapply (dp_closed _ _ _ _ _ P3).
    + by eapply (dp_closed _ _ _ _ _ P4).
  - intros _. apply elem_of_cons. by left.
  - pose proof (dp_ones _ _ _ _ _ P1). pose proof (dp_ones _ _ _ _ _ P2).
    pose proof (dp_ones _ _ _ _ _ P3). pose proof (dp_ones _ _ _ _ _ P4).
    simpl. rewrite !length_app. lia.
Qed.

(** Everything connected to the start cell has been cleared. *)
Lemma dfs_post_complete g c g' n cs x :
  dfs_post g c g' n cs → one g c → connected g c x → x ∈ cs.
Proof.
  intros P Hc Hconn. revert x Hconn. apply (rtc_ind_r (λ x, x ∈ cs)).
  - by apply (dp_start _ _ _ _ _ P).
  - intros y b Hconn (Hy & Hb & Hadj) IH.
    destruct (decide (b ∈ cs)) as [|Hnin]; [done|]. exfalso.
    apply (dp_closed _ _ _ _ _ P y b IH Hadj).
    apply (dp_grid _ _ _ _ _ P). done.
Qed.

(** [cs] lists, each once, the cells of the 4-connected component of [c]. *)
Definition component (g : grid) (c : cell) (cs : list cell) : Prop :=
  NoDup cs ∧ ∀ x, x ∈ cs ↔ one g x ∧ connected g c x.

Definition size_of (p : cell * list cell) : Z := Z.of_nat (length p.2).

(** The components that reach the minimum size, in the order given. *)
Definition qualifying (minSize : Z) (comps : list (cell * list cell))
  : list (cell * list cell) :=
  filter (λ p, minSize ≤ size_of p) comps.

(** The score of a list of components: the terms added from left to right,
    each for the size of the component and the distance of its discovery
    coordinate (row p.1.1, column p.1.2) from the centre. *)
Definition score_of (comps : list (cell * list cell)) : float :=
  foldl (λ acc p, (acc + term (size_of p) (computedist rows cols p.1.2 p.1.1))%float)
        0%float comps.

(** The state of the scan when it reaches position [pos], having found the
    components [comps] of the grid [g0] it started from. *)
Record scan_inv (g0 : grid) (minSize : Z) (pos : cell) (st : state)
    (comps : list (cell * list cell)) : Prop := {
  si_comp : ∀ p, p ∈ comps →
    one g0 p.1 ∧ component g0 p.1 p.2 ∧ (∀ x, x ∈ p.2 → rm_le p.1 x) ∧ rm_lt p.1 pos;
  si_sorted : StronglySorted rm_lt (comps.*1);
  si_grid : ∀ x, one (st_grid st) x ↔ one g0 x ∧ ∀ p, p ∈ comps → x ∉ p.2;
  si_pos : ∀ x, one (st_grid st) x → rm_le pos x;
  si_ones : (ones (st_grid st) ≤ ones g0)%nat;
  si_count : st_count st = Z.of_nat (length (qualifying minSize comps));
  si_sizes : st_sizes st = size_of <$> qualifying minSize comps;
  si_total : st_totalSize st = sumZ (size_of <$> qualifying minSize comps);
  si_score : st_score st = score_of (qualifying minSize comps)
}.

Lemma connected_one_end g a b : connected g a b → one g a → one g b.
Proof. intros H Ha. apply connected_sym in H. by eapply connected_one_start. Qed.

(** Removing whole components does not change the connectivity of what
    is left. *)
Lemma connected_remaining g0 g (comps : list (cell * list cell)) c x :
  (∀ p, p ∈ comps → component g0 p.1 p.2) →
  (∀ y, one g y ↔ one g0 y ∧ ∀ p, p ∈ comps → y ∉ p.2) →
  one g c → connected g0 c x → connected g c x.
Proof.
  intros Hcomp Hg Hc Hconn. revert x Hconn.
  apply (rtc_ind_r (λ x, connected g c x)); [apply rtc_refl|].
  intros y z _ (Hy0 & Hz0 & Hadj) IH.
  assert (Hy : one g y) by (by eapply connected_one_end).
  eapply rtc_r; [exact IH|]. split_and!; [done| |done].
  apply Hg. split; [done|]. intros p Hp Hz.
  apply Hg in Hy as [_ Hy]. apply (Hy p Hp).
  destruct (Hcomp p Hp) as [_ Hiff]. apply Hiff. split; [done|].
  apply Hiff in Hz as [_ Hz]. eapply rtc_r; [exact Hz|].
  split_and!; auto using adj4_sym.
Qed.

Lemma qualifying_snoc minSize comps p :
  qualifying minSize (comps ++ [p]) =
  if decide (minSize ≤ size_of p) then qualifying minSize comps ++ [p]
  else qualifying minSize comps.
Proof.
  unfold qualifying. rewrite filter_app, filter_cons, filter_nil.
  case_decide; [done|apply app_nil_r].
Qed.

(** A position that holds no 1 is passed over. *)
Lemma scan_inv_skip g0 minSize i j st comps :
  scan_inv g0 minSize (i, j) st comps → ¬ one (st_grid st) (i, j) →
  scan_inv g0 minSize (i, j + 1) st comps.
Proof.
  intros [Hcomp Hsorted Hgrid Hpos Hones Hc Hs Ht Hsc] Hn. split; try done.
  - intros p Hp. destruct (Hcomp p Hp) as (H1 & H2 & H3 & H4).
    split_and!; try done. unfold rm_lt in *. simpl in *. lia.
  - intros [a b] Hx. pose proof (Hpos _ Hx) as Hle.
    assert ((a, b) ≠ (i, j)) as Hne by (by intros [= -> ->]).
    unfold rm_le in *. simpl in *.
    destruct (decide (a = i)) as [->|]; [|lia].
    destruct (decide (b = j)) as [->|]; [done|lia].
Qed.

(** The scan at (i, j): a cell that holds 1 starts a new component, which
    dfs clears; it is the component in the grid the scan started from. *)
Lemma visit_step g0 minSize fuel i j st comps :
  (ones g0 < fuel)%nat → 0 ≤ i < rows → 0 ≤ j < cols →
  scan_inv g0 minSize (i, j) st comps →
  ∃ st' comps', visit fuel rows cols minSize i j st = Some st' ∧
                scan_inv g0 minSize (i, j + 1) st' comps'.
Proof.
  intros Hfuel Hi Hj Inv. unfold visit. case_bool_decide as Hget; cycle 1.
  { exists st, comps. split; [done|]. apply scan_inv_skip; [done|].
    intros (_ & _ & H). done. }
  assert (Hone : one (st_grid st) (i, j)) by (unfold one; simpl; split_and!; lia || done).
  destruct (dfs_correct fuel (st_grid st) i j) as (g' & n & cs & E & P).
  { pose proof (si_ones _ _ _ _ _ Inv). lia. }
  rewrite E. simpl.
  destruct Inv as [Hcomp Hsorted Hgrid Hpos Hones Hc Hs Ht Hsc].
  set (p := ((i, j), cs)).
  assert (Hone0 : one g0 (i, j)) by (by apply Hgrid in Hone as [? _]).
  assert (Hsub : ∀ y, one (st_grid st) y → one g0 y).
  { intros y Hy. by apply Hgrid in Hy as [? _]. }
  assert (Hnew : component g0 (i, j) cs).
  { split; [apply (dp_nodup _ _ _ _ _ P)|]. intros x. split.
    - intros Hx. apply (dp_sound _ _ _ _ _ P) in Hx as [Hx1 Hx2].
      split; [auto|]. by eapply connected_mono.
    - intros [Hx1 Hx2]. eapply dfs_post_complete; [exact P|done|].
      eapply connected_remaining; [|exact Hgrid|done|done].
      intros q Hq. by destruct (Hcomp q Hq) as (_ & ? & _). }
  assert (Hcomp' : ∀ q, q ∈ comps ++ [p] →
            one g0 q.1 ∧ component g0 q.1 q.2 ∧ (∀ x, x ∈ q.2 → rm_le q.1 x) ∧
            rm_lt q.1 (i, j + 1)).
  { intros q. rewrite elem_of_app, list_elem_of_singleton. intros [Hq| ->].
    - destruct (Hcomp q Hq) as (H1 & H2 & H3 & H4).
      split_and!; try done. unfold rm_lt in *. simpl in *. lia.
    - simpl. split_and!; try done.
      + intros x Hx. apply Hpos. by apply (dp_sound _ _ _ _ _ P) in Hx as [? _].
      + unfold rm_lt. simpl. lia. }
  assert (Hsorted' : StronglySorted rm_lt ((comps ++ [p]).*1)).
  { rewrite fmap_app. apply StronglySorted_app. split_and!.
    - intros x1 x2 Hx1. simpl. rewrite list_elem_of_singleton. intros ->.
      apply list_elem_of_fmap in Hx1 as (q & -> & Hq).
      by destruct (Hcomp q Hq) as (_ & _ & _ & ?).
    - done.
    - simpl. repeat constructor. }
  assert (Hgrid' : ∀ x, one g' x ↔ one g0 x ∧ ∀ q, q ∈ comps ++ [p] → x ∉ q.2).
  { intros x. rewrite (dp_grid _ _ _ _ _ P), Hgrid. split.
    - intros [[H1 H2] H3]. split; [done|]. intros q.
      rewrite elem_of_app, list_elem_of_singleton. intros [Hq| ->]; auto.
    - intros [H1 H2]. split_and!; [done| |].
      + intros q Hq. apply H2, elem_of_app. by left.
      + apply (H2 p), elem_of_app. right. by apply list_elem_of_singleton. }
  assert (Hpos' : ∀ x, one g' x → rm_le (i, j + 1) x).
  { intros [a b] Hx. apply (dp_grid _ _ _ _ _ P) in Hx as [Hx Hnin].
    pose proof (Hpos _ Hx) as Hle.
    assert ((a, b) ≠ (i, j)) as Hne.
    { intros [= -> ->]. by apply Hnin, (dp_start _ _ _ _ _ P). }
    unfold rm_le in *. simpl in *.
    destruct (decide (a = i)) as [->|]; [|lia].
    destruct (decide (b = j)) as [->|]; [done|lia]. }
  assert (Hones' : (ones g' ≤ ones g0)%nat).
  { pose proof (dp_ones _ _ _ _ _ P). lia. }
  assert (Hn : n = size_of p) by apply (dp_size _ _ _ _ _ P).
  pose proof (qualifying_snoc minSize comps p) as Hq.
  case_bool_decide as Hmin; eexists _, (comps ++ [p]); (split; [done|]);
    (split; [exact Hcomp'|exact Hsorted'|exact Hgrid'|exact Hpos'|exact Hones'|..]);
    cbn [st_count st_sizes st_totalSize st_score]; rewrite Hq;
    destruct (decide (minSize ≤ size_of p)); try lia; try done.
  - rewrite length_app, Hc. simpl. lia.
  - by rewrite fmap_app, Hs, Hn.
  - rewrite fmap_app. change (size_of <$> [p]) with [size_of p].
    by rewrite sumZ_snoc, Ht, Hn.
  - unfold score_of in *. by rewrite foldl_app, Hsc, Hn.
Qed.

(** The end of row [i] is the start of row [i + 1]. *)
Lemma scan_inv_next_row g0 minSize i st comps :
  scan_inv g0 minSize (i, cols) st comps → scan_inv g0 minSize (i + 1, 0) st comps.
Proof.
  intros [Hcomp Hsorted Hgrid Hpos Hones Hc Hs Ht Hsc]. split; try done.
  - intros p Hp. destruct (Hcomp p Hp) as (H1 & H2 & H3 & H4).
    split_and!; try done. destruct H1 as (_ & Hb & _).
    unfold rm_lt in *. simpl in *. lia.
  - intros x Hx. pose proof (Hpos _ Hx) as Hle. destruct Hx as (_ & Hb & _).
    unfold rm_le in *. simpl in *. lia.
Qed.

Definition init (g0 : grid) : state :=
  {| st_grid := g0; st_score := 0%float; st_sizes := [];
     st_totalSize := 0; st_count := 0 |}.

Lemma scan_inv_init g0 minSize : scan_inv g0 minSize (0, 0) (init g0) [].
Proof.
  split; try done.
  - intros p Hp. by apply elem_of_nil in Hp.
  - constructor.
  - intros x. split; [|tauto]. intros Hx. split; [done|].
    intros p Hp. by apply elem_of_nil in Hp.
  - intros x (Ha & Hb & _). unfold rm_le. simpl. lia.
Qed.

(** The whole scan: it returns, and has then found every component. *)
Lemma scan_correct g0 minSize fuel :
  (ones g0 < fuel)%nat → 0 ≤ rows → 0 ≤ cols →
  ∃ st comps, scan fuel rows cols minSize (init g0) = Some st ∧
              scan_inv g0 minSize (rows, 0) st comps.
Proof.
  intros Hfuel Hrows Hcols. unfold scan.
  destruct (for_each_seqZ_inv
              (λ i st, ∃ comps, scan_inv g0 minSize (i, 0) st comps)
              (λ i st, for_each (seqZ 0 cols)
                         (λ j st, visit fuel rows cols minSize i j st) st)
              0 rows (init g0)) as (st & E & comps & Inv); [|done| |].
  - intros i st Hi (comps & Inv).
    destruct (for_each_seqZ_inv
                (λ j st, ∃ comps, scan_inv g0 minSize (i, j) st comps)
                (λ j st, visit fuel rows cols minSize i j st)
                0 cols st) as (st' & E' & comps' & Inv'); [|done| |].
    + intros j st1 Hj (comps1 & Inv1).
      destruct (visit_step g0 minSize fuel i j st1 comps1) as (st2 & comps2 & ? & ?);
        [done|lia|lia|done|]. eauto.
    + eauto.
    + exists st'. split; [done|]. exists comps'. by apply scan_inv_next_row.
  - exists []. apply scan_inv_init.
  - eauto.
Qed.

End WithDims.

Definition rows_of (g : grid) : Z := Z.of_nat (length g).
Definition cols_of (g : grid) : Z := Z.of_nat (length (default [] (g !! 0%nat))).

(** The components of [g], each with its discovery coordinate, in the
    order the scan meets them: every entry is a whole component whose
    first cell in row-major order is the discovery coordinate, the
    discovery coordinates increase, and every cell that holds 1 is in one
    of the entries. *)
Definition components_of (g : grid) (comps : list (cell * list cell)) : Prop :=
  (∀ p, p ∈ comps →
     one (rows_of g) (cols_of g) g p.1 ∧
     component (rows_of g) (cols_of g) g p.1 p.2 ∧
     ∀ x, x ∈ p.2 → rm_le p.1 x) ∧
  StronglySorted rm_lt (comps.*1) ∧
  (∀ x, one (rows_of g) (cols_of g) g x → ∃ p, p ∈ comps ∧ x ∈ p.2).

(** The object built from the qualifying components. *)
Definition summary (g : grid) (minSize : Z) (comps : list (cell * list cell))
  : clusters :=
  let q := qualifying minSize comps in
  {| count := Z.of_nat (length q);
     sizes := size_of <$> q;
     totalSize := sumZ (size_of <$> q);
     score := Some (score_of (rows_of g) (cols_of g) q) |}.

Lemma findclusters_scan (g : grid) (minSize : Z) :
  g ≠ [] →
  ∃ comps, components_of g comps ∧ findclusters g minSize = Some (summary g minSize comps).
Proof.
  intros Hne. unfold findclusters. case_bool_decide as Hlen.
  { destruct g; [done|]. simpl in Hlen. lia. }
  cbn zeta.
  destruct (scan_correct (rows_of g) (cols_of g) g minSize (S (ones g)))
    as (st & comps & E & Inv); [lia|unfold rows_of; lia|unfold cols_of; lia|].
  unfold init, rows_of, cols_of in E. rewrite E. simpl.
  destruct Inv as [Hcomp Hsorted Hgrid Hpos Hones Hc Hs Ht Hsc].
  exists comps. split.
  - split_and!; [|done|].
    + intros p Hp. destruct (Hcomp p Hp) as (H1 & H2 & H3 & _). done.
    + intros x Hx. destruct (decide (Exists (λ p, x ∈ p.2) comps)) as [Hex|Hnex].
      * apply Exists_exists in Hex as (p & Hp & Hxp). eauto.
      * exfalso. assert (Hst : one (rows_of g) (cols_of g) (st_grid st) x).
        { apply Hgrid. split; [done|]. intros p Hp Hxp. apply Hnex.
          apply Exists_exists. eauto. }
        pose proof (Hpos _ Hst) as Hle. destruct Hst as (Ha & _).
        unfold rm_le in Hle. simpl in Hle. lia.
  - unfold summary. by rewrite Hc, Hs, Ht, Hsc.
Qed.

Lemma rm_le_antisym (a b : cell) : rm_le a b → rm_le b a → a = b.
Proof. destruct a, b. unfold rm_le. simpl. intros. f_equal; lia. Qed.

(** When all the cells that hold 1 form one component, the scan finds
    exactly that component, at its first cell in row-major order. *)
Lemma findclusters_single (g : grid) (minSize : Z) (c : cell) (cs : list cell) :
  g ≠ [] →
  one (rows_of g) (cols_of g) g c →
  component (rows_of g) (cols_of g) g c cs →
  (∀ x, one (rows_of g) (cols_of g) g x → x ∈ cs) →
  (∀ x, x ∈ cs → rm_le c x) →
  findclusters g minSize = Some (summary g minSize [(c, cs)]).
Proof.
  intros Hne Hc [Hnd Hcs] Hall Hmin.
  destruct (findclusters_scan g minSize Hne) as (comps & (Hcomp & Hsorted & Hcover) & ->).
  assert (Hdisc : ∀ q, q ∈ comps → q.1 = c).
  { intros q Hq. destruct (Hcomp q Hq) as (Hq1 & [_ Hq2] & Hq3).
    apply rm_le_antisym; [|by apply Hmin, Hall].
    apply Hq3, Hq2. split; [done|].
    apply connected_sym. by apply Hcs, Hall. }
  destruct (Hcover c Hc) as (p & Hp & Hcp).
  assert (comps = [p]) as ->.
  { destruct comps as [|q1 [|q2 comps]].
    - by apply elem_of_nil in Hp.
    - by apply list_elem_of_singleton in Hp as ->.
    - exfalso. simpl in Hsorted. apply StronglySorted_cons in Hsorted as [Hf _].
      apply Forall_cons in Hf as [Hlt _].
      rewrite (Hdisc q1), (Hdisc q2) in Hlt.
      + unfold rm_lt in Hlt. lia.
      + apply list_elem_of_further, list_elem_of_here.
      + apply list_elem_of_here. }
  destruct p as [c' cs']. pose proof (Hdisc (c', cs') Hp) as Hc'. simpl in Hc'. subst c'.
  destruct (Hcomp _ Hp) as (_ & [Hnd' Hcs'] & _). simpl in *.
  assert (Hlen : length cs' = length cs).
  { apply Permutation_length, NoDup_Permutation; [done..|].
    intros x. by rewrite Hcs, Hcs'. }
  unfold summary, qualifying, size_of. rewrite !filter_cons, !filter_nil. simpl.
  rewrite Hlen. destruct (decide _); [|done].
  unfold score_of, size_of. simpl. by rewrite Hlen.
Qed.

Lemma no_one_of_Forall (g : grid) (x : cell) :
  Forall (Forall (λ v, v ≠ 1)) g → ¬ one (rows_of g) (cols_of g) g x.
Proof.
  intros Hall (_ & _ & Hget). unfold get in Hget.
  destruct (g !! Z.to_nat x.1) as [row|] eqn:Hrow; [|done]. simpl in Hget.
  eapply Forall_lookup_1 in Hrow; [|exact Hall].
  eapply Forall_lookup_1 in Hget; [|exact Hrow]. done.
Qed.

(** The 16 x 16 grid of the end-to-end scenario: seven cells in row 8,
    columns 9 to 15; the first of them is at distance 1 from the centre. *)
Definition scenario_grid : grid :=
  <[8%nat := [0;0;0;0;0;0;0;0;0;1;1;1;1;1;1;1]]> (replicate 16 (replicate 16 0)).

(** The same seven cells moved one column to the left: the first of them
    is the centre cell (8, 8). *)
Definition centred_grid : grid :=
  <[8%nat := [0;0;0;0;0;0;0;0;1;1;1;1;1;1;1;0]]> (replicate 16 (replicate 16 0)).

Example findclusters_scenario :
  findclusters scenario_grid 7 =
  Some {| count := 1; sizes := [7]; totalSize := 7; score := Some 500%float |}.
Proof. vm_compute. reflexivity. Qed.

(** The cells of the scanned area that hold 1, in row-major order. *)
Definition cells_holding_one (rows cols : Z) (g : grid) : list cell :=
  filter (λ c, get g c.1 c.2 = Some 1)
         (i ← seqZ 0 rows; (λ j, (i, j)) <$> seqZ 0 cols).

Lemma one_enumerated (rows cols : Z) (g : grid) (x : cell) :
  one rows cols g x ↔ x ∈ cells_holding_one rows cols g.
Proof.
  unfold one, cells_holding_one. rewrite list_elem_of_filter, list_elem_of_bind.
  split.
  - intros (Hi & Hj & Hget). split; [done|]. exists x.1. split.
    + apply list_elem_of_fmap. exists x.2. split; [by destruct x|].
      apply elem_of_seqZ. lia.
    + apply elem_of_seqZ. lia.
  - intros (Hget & i & Hx & Hi). apply list_elem_of_fmap in Hx as (j & -> & Hj).
    apply elem_of_seqZ in Hi, Hj. simpl in *. split_and!; [lia..|done].
Qed.

(** The seven cells of the scenario. *)
Definition scenario_cells : list cell := (λ j, (8, j)) <$> seqZ 9 7.

Lemma scenario_cells_one (x : cell) :
  one (rows_of scenario_grid) (cols_of scenario_grid) scenario_grid x ↔ x ∈ scenario_cells.
Proof. by rewrite one_enumerated. Qed.

Lemma scenario_connected (k : nat) :
  (k ≤ 6)%nat →
  connected (rows_of scenario_grid) (cols_of scenario_grid) scenario_grid
            (8, 9) (8, 9 + Z.of_nat k).
Proof.
  assert (Hin : ∀ j, 9 ≤ j < 16 → (8, j) ∈ scenario_cells).
  { intros j Hj. apply list_elem_of_fmap. exists j. split; [done|].
    apply elem_of_seqZ. lia. }
  induction k as [|k IH]; intros Hk.
  - replace (9 + Z.of_nat 0) with 9 by lia. apply rtc_refl.
  - eapply rtc_r; [apply IH; lia|]. split_and!.
    + apply scenario_cells_one, Hin. lia.
    + apply scenario_cells_one, Hin. lia.
    + right. simpl. lia.
Qed.

(** The hypotheses of the 7-cell case hold on the scenario grid. *)
Lemma scenario_component :
  one (rows_of scenario_grid) (cols_of scenario_grid) scenario_grid (8, 9) ∧
  component (rows_of scenario_grid) (cols_of scenario_grid) scenario_grid
            (8, 9) scenario_cells ∧
  (∀ x, one (rows_of scenario_grid) (cols_of scenario_grid) scenario_grid x →
        x ∈ scenario_cells) ∧
  (∀ x, x ∈ scenario_cells → rm_le (8, 9) x).
Proof.
  split_and!.
  - apply scenario_cells_one. apply list_elem_of_here.
  - split.
    + apply NoDup_fmap_2; [by intros ?? [=]|apply NoDup_seqZ].
    + intros x. split.
      * intros Hx. split; [by apply scenario_cells_one|].
        apply list_elem_of_fmap in Hx as (j & -> & Hj). apply elem_of_seqZ in Hj.
        replace j with (9 + Z.of_nat (Z.to_nat (j - 9))) by lia.
        apply scenario_connected. lia.
      * intros [Hx _]. by apply scenario_cells_one.
  - intros x. apply scenario_cells_one.
  - intros x Hx. apply list_elem_of_fmap in Hx as (j & -> & Hj). apply elem_of_seqZ in Hj.
    right. simpl. lia.
Qed.

(** C3. On a grid with at least one row findclusters returns, and the
    object it returns is built from the 4-connected components of the
    cells that hold 1. The components of at least [minSize] cells, in the
    order of their discovery coordinates, give count, sizes and
    totalSize, and the score is the sum over them, added in that order,
    of round((size * 0.4) / (distance * 0.6)) * 100, where the distance of
    a component discovered at row i and column j is
    round(sqrt((j - round(cols / 2))^2 + (i - round(rows / 2))^2)), all in
    doubles; smaller components enter none of the four. In particular,
    when the cells that hold 1 form a single component of 7 cells
    discovered at distance 1 and the threshold is at most 7, the score is
    500 and the count is 1. *)
Theorem findclusters_score_components (g : grid) (minSize : Z) :
  g ≠ [] →
  let rows := Z.of_nat (length g) in
  let cols := Z.of_nat (length (default [] (g !! 0%nat))) in
  let distance (c : cell) : float :=
    let dj := (JS.of_Z c.2 - JS.Math_round (JS.of_Z cols / 2))%float in
    let di := (JS.of_Z c.1 - JS.Math_round (JS.of_Z rows / 2))%float in
    JS.Math_round (PrimFloat.sqrt (dj * dj + di * di))%float in
  (∃ comps, components_of g comps ∧
     let q := filter (λ p, minSize ≤ Z.of_nat (length p.2)) comps in
     findclusters g minSize =
     Some {| count := Z.of_nat (length q);
             sizes := (λ p, Z.of_nat (length p.2)) <$> q;
             totalSize := sumZ ((λ p, Z.of_nat (length p.2)) <$> q);
             score :=
               Some (foldl (λ acc p,
                         acc + JS.Math_round ((JS.of_Z (Z.of_nat (length p.2)) * 0.4) /
                                              (distance p.1 * 0.6)) * 100)%float
                      0%float q) |}) ∧
  (∀ c cs,
     one rows cols g c →
     component rows cols g c cs →
     (∀ x, one rows cols g x → x ∈ cs) →
     (∀ x, x ∈ cs → rm_le c x) →
     length cs = 7%nat →
     distance c = 1%float →
     minSize ≤ 7 →
     findclusters g minSize =
     Some {| count := 1; sizes := [7]; totalSize := 7; score := Some 500%float |}).
Proof.
  intros Hne rows cols distance. split.
  - destruct (findclusters_scan g minSize Hne) as (comps & Hcomps & ->).
    exists comps. split; [done|]. reflexivity.
  - intros c cs Hc Hcomp Hall Hmin Hlen Hdist Hsize.
    rewrite (findclusters_single g minSize c cs) by done.
    unfold summary, qualifying, size_of. rewrite filter_cons, filter_nil. simpl.
    rewrite Hlen. destruct (decide _) as [_|Hn]; [|simpl in Hn; lia].
    unfold score_of, size_of. simpl. rewrite Hlen.
    change (computedist (rows_of g) (cols_of g) c.2 c.1) with (distance c).
    rewrite Hdist. reflexivity.
Qed.

Lemma findclusters_score_components_scenario :
  length scenario_cells = 7%nat ∧
  findclusters scenario_grid 7 =
  Some {| count := 1; sizes := [7]; totalSize := 7; score := Some 500%float |}.
Proof.
  assert (Hlen : length scenario_cells = 7%nat) by reflexivity.
  split; [exact Hlen|].
  destruct (findclusters_score_components scenario_grid 7) as [_ H]; [done|].
  destruct scenario_component as (H1 & H2 & H3 & H4).
  apply (H (8, 9) scenario_cells H1 H2 H3 H4 Hlen); [vm_compute; reflexivity|lia].
Defined.

(** C2. No floor is applied to a distance of 0: a qualifying component
    discovered at the centre cell divides by zero, and the score is
    Infinity. *)
Theorem findclusters_centre_infinite :
  findclusters [[0; 0]; [0; 1]] 1 =
  Some {| count := 1; sizes := [1]; totalSize := 1; score := Some infinity |} ∧
  computedist 16 16 8 8 = 0%float ∧
  findclusters centred_grid 7 =
  Some {| count := 1; sizes := [7]; totalSize := 7; score := Some infinity |}.
Proof. split_and!; vm_compute; reflexivity. Qed.

(** C9. The empty grid takes the early return, whose object has count,
    sizes and totalSize but no score. A grid with at least one row and no
    cell equal to 1 gives all four fields, each zero or empty. *)
Theorem findclusters_no_ones (minSize : Z) :
  findclusters [] minSize =
  Some {| count := 0; sizes := []; totalSize := 0; score := None |} ∧
  (∀ g, g ≠ [] → Forall (Forall (λ v, v ≠ 1)) g →
        findclusters g minSize =
        Some {| count := 0; sizes := []; totalSize := 0; score := Some 0%float |}).
Proof.
  split; [done|]. intros g Hne Hall.
  destruct (findclusters_scan g minSize Hne) as (comps & (Hcomp & _) & ->).
  destruct comps as [|p comps]; [done|]. exfalso.
  destruct (Hcomp p) as (Hone & _); [apply list_elem_of_here|].
  by eapply no_one_of_Forall.
Qed.

Lemma findclusters_no_ones_zero_grid :
  findclusters [[0; 0]; [0; 0]] 7 =
  Some {| count := 0; sizes := []; totalSize := 0; score := Some 0%float |}.
Proof.
  destruct (findclusters_no_ones 7) as [_ H].
  apply H; [done|]. by repeat constructor.
Defined.

(** C10. findclusters returns, and in the object it returns count is the
    length of sizes and totalSize is the sum of the elements of sizes
    (on the empty grid as well). *)
Theorem findclusters_consistent (g : grid) (minSize : Z) :
  ∃ r, findclusters g minSize = Some r ∧
       count r = Z.of_nat (length (sizes r)) ∧
       totalSize r = sumZ (sizes r).
Proof.
  destruct (decide (g = [])) as [->|Hne].
  - eexists. split; [reflexivity|]. done.
  - destruct (findclusters_scan g minSize Hne) as (comps & _ & ->).
    eexists. split; [reflexivity|]. simpl. by rewrite length_fmap.
Qed.

(** *** The flood fill *)

(** One call of dfs at (i, j), with fuel for the depth of its recursion:
    it returns the number of cells of the 4-connected component of
    (i, j), which is 0 when (i, j) is outside the area or holds no 1, and
    in the grid it leaves exactly the cells of that component have
    stopped holding 1. *)
Theorem dfs_clears_component (rows cols : Z) (fuel : nat) (g : grid) (i j : Z) :
  (ones g < fuel)%nat →
  ∃ g' cs,
    dfs fuel rows cols g i j = Some (g', Z.of_nat (length cs)) ∧
    NoDup cs ∧
    (∀ x, x ∈ cs ↔ one rows cols g (i, j) ∧ connected rows cols g (i, j) x) ∧
    (∀ x, one rows cols g' x ↔ one rows cols g x ∧ x ∉ cs) ∧
    (ones g' + length cs = ones g)%nat.
Proof.
  intros Hfuel.
  destruct (dfs_correct rows cols fuel g i j Hfuel) as (g' & n & cs & E & P).
  exists g', cs. rewrite E, (dp_size _ _ _ _ _ _ _ P).
  split_and!; [done|apply (dp_nodup _ _ _ _ _ _ _ P)| |apply (dp_grid _ _ _ _ _ _ _ P)|
               apply (dp_ones _ _ _ _ _ _ _ P)].
  intros x. split.
  - intros Hx. destruct (dp_sound _ _ _ _ _ _ _ P x Hx) as [H1 H2].
    split; [by eapply connected_one_start|done].
  - intros [Hc Hconn]. by eapply dfs_post_complete.
Qed.

Lemma dfs_clears_component_corner :
  ∃ g' cs,
    dfs 4 2 2 [[1; 1]; [0; 1]] 0 0 = Some (g', Z.of_nat (length cs)) ∧
    (∀ x, one 2 2 g' x ↔ one 2 2 [[1; 1]; [0; 1]] x ∧ x ∉ cs).
Proof.
  destruct (dfs_clears_component 2 2 4 [[1; 1]; [0; 1]] 0 0) as (g' & cs & E & _ & _ & H & _).
  { unfold ones. simpl. lia. }
  exists g', cs. split; [exact E|exact H].
Defined.

(** *** The components are unique *)

Lemma sorted_rm_lt_NoDup (l : list cell) : StronglySorted rm_lt l → NoDup l.
Proof.
  induction 1 as [|x l _ IH Hall]; [constructor|]. constructor; [|done].
  intros Hx. eapply Forall_forall in Hall; [|exact Hx]. unfold rm_lt in Hall. lia.
Qed.

(** The discovery coordinates are the cells that come first, in row-major
    order, in their component. *)
Lemma discovery_first (g : grid) (comps : list (cell * list cell)) (c : cell) :
  components_of g comps →
  c ∈ comps.*1 ↔
  one (rows_of g) (cols_of g) g c ∧
  ∀ x, one (rows_of g) (cols_of g) g x → connected (rows_of g) (cols_of g) g c x →
       rm_le c x.
Proof.
  intros (Hcomp & _ & Hcover). split.
  - intros (p & -> & Hp)%list_elem_of_fmap.
    destruct (Hcomp p Hp) as (H1 & [_ H2] & H3). split; [done|].
    intros x Hx Hconn. apply H3, H2. done.
  - intros [Hc Hmin]. destruct (Hcover c Hc) as (p & Hp & Hcp).
    destruct (Hcomp p Hp) as (H1 & [_ H2] & H3).
    apply H2 in Hcp as Hcp'. destruct Hcp' as [_ Hconn].
    assert (c = p.1) as ->; [|by apply list_elem_of_fmap_2].
    apply rm_le_antisym; [|by apply H3].
    apply Hmin; [done|]. by apply connected_sym.
Qed.

Lemma components_keys_unique (g : grid) (comps1 comps2 : list (cell * list cell)) :
  components_of g comps1 → components_of g comps2 → comps1.*1 = comps2.*1.
Proof.
  intros C1 C2.
  apply (StronglySorted_unique_strong rm_lt).
  - intros x1 x2 _ _ H1 H2. unfold rm_lt in *. lia.
  - apply C1.
  - apply C2.
  - apply NoDup_Permutation.
    + apply sorted_rm_lt_NoDup, C1.
    + apply sorted_rm_lt_NoDup, C2.
    + intros c. by rewrite (discovery_first g comps1), (discovery_first g comps2).
Qed.

(** Two lists of the components of a grid give the same discovery
    coordinates with the same sizes. *)
Lemma components_sizes_unique (g : grid) (comps1 comps2 : list (cell * list cell)) :
  components_of g comps1 → components_of g comps2 →
  (λ p, (p.1, size_of p)) <$> comps1 = (λ p, (p.1, size_of p)) <$> comps2.
Proof.
  intros C1 C2. pose proof (components_keys_unique g comps1 comps2 C1 C2) as K.
  assert (Hlen : length comps1 = length comps2).
  { by rewrite <- (length_fmap fst comps1), K, length_fmap. }
  apply list_eq_same_length with (length comps1); [by rewrite length_fmap|by rewrite length_fmap|].
  intros k x y Hk Hx Hy. rewrite list_lookup_fmap in Hx, Hy.
  destruct (comps1 !! k) as [p|] eqn:Hp; [|done].
  destruct (comps2 !! k) as [q|] eqn:Hq; [|done].
  simpl in Hx, Hy. injection Hx as <-. injection Hy as <-.
  assert (Hpq : p.1 = q.1).
  { assert (H1 : comps1.*1 !! k = Some p.1) by (by rewrite list_lookup_fmap, Hp).
    assert (H2 : comps2.*1 !! k = Some q.1) by (by rewrite list_lookup_fmap, Hq).
    rewrite K in H1. congruence. }
  f_equal; [done|]. unfold size_of. f_equal.
  destruct C1 as (Hc1 & _), C2 as (Hc2 & _).
  destruct (Hc1 p) as (_ & [Hnd1 Hi1] & _); [by eapply list_elem_of_lookup_2|].
  destruct (Hc2 q) as (_ & [Hnd2 Hi2] & _); [by eapply list_elem_of_lookup_2|].
  apply Permutation_length, NoDup_Permutation; [done..|].
  intros x. rewrite Hi1, Hi2, Hpq. done.
Qed.

Lemma filter_fmap_size (m : Z) (comps : list (cell * list cell)) :
  size_of <$> filter (λ p, m ≤ size_of p) comps =
  filter (λ s, m ≤ s) (snd <$> ((λ p, (p.1, size_of p)) <$> comps)).
Proof.
  induction comps as [|p comps IH]; [done|].
  rewrite !fmap_cons, !filter_cons. cbn [snd].
  case_decide; [rewrite fmap_cons|]; by rewrite IH.
Qed.

(** Every component has a cell: the one it was discovered at. *)
Lemma component_size_pos (g : grid) (comps : list (cell * list cell)) p :
  components_of g comps → p ∈ comps → 1 ≤ size_of p.
Proof.
  intros (Hcomp & _) Hp. destruct (Hcomp p Hp) as (H1 & [_ H2] & _).
  assert (p.1 ∈ p.2) as Hin by (apply H2; split; [done|apply rtc_refl]).
  unfold size_of. destruct (p.2); [by apply elem_of_nil in Hin|simpl; lia].
Qed.

Lemma qualifying_all (g : grid) (comps : list (cell * list cell)) (m : Z) :
  components_of g comps → m ≤ 1 → qualifying m comps = comps.
Proof.
  intros C Hm. unfold qualifying.
  assert (Hall : Forall (λ p, m ≤ size_of p) comps).
  { apply Forall_forall. intros p Hp. pose proof (component_size_pos g comps p C Hp). lia. }
  clear C. induction Hall as [|p comps Hp Hall IH]; [done|].
  rewrite filter_cons, decide_True by done. by rewrite IH.
Qed.

Lemma sumZ_filter_le (P : Z → Prop) `{∀ x, Decision (P x)} (l : list Z) :
  Forall (λ s, 0 ≤ s) l → sumZ (filter P l) ≤ sumZ l.
Proof.
  induction 1 as [|x l Hx Hall IH]; [done|].
  rewrite filter_cons. case_decide; unfold sumZ in *; simpl; lia.
Qed.

(** The threshold only filters. Whatever minSize is, the sizes that
    findclusters reports are the sizes it reports for minSize 1 that
    reach minSize, in the same order; so a higher threshold never gives a
    higher count or total. *)
Theorem findclusters_threshold (g : grid) (minSize : Z) :
  ∃ r1 r,
    findclusters g 1 = Some r1 ∧ findclusters g minSize = Some r ∧
    sizes r = filter (λ s, minSize ≤ s) (sizes r1) ∧
    count r = Z.of_nat (length (sizes r)) ∧
    count r ≤ count r1 ∧ totalSize r ≤ totalSize r1.
Proof.
  destruct (decide (g = [])) as [->|Hne].
  { eexists _, _. split_and!; [reflexivity|reflexivity|done..]. }
  destruct (findclusters_scan g 1 Hne) as (comps1 & C1 & ->).
  destruct (findclusters_scan g minSize Hne) as (comps & C & ->).
  eexists _, _. split; [reflexivity|]. split; [reflexivity|].
  unfold summary. cbn [sizes count totalSize].
  rewrite (qualifying_all g comps1 1) by done. unfold qualifying.
  assert (Hs : size_of <$> filter (λ p, minSize ≤ size_of p) comps =
               filter (λ s, minSize ≤ s) (size_of <$> comps1)).
  { rewrite filter_fmap_size, (components_sizes_unique g comps comps1) by done.
    by rewrite <- list_fmap_compose. }
  rewrite Hs. split_and!.
  - done.
  - by rewrite <- Hs, length_fmap.
  - rewrite <- (length_fmap size_of), Hs.
    pose proof (length_filter (λ s, minSize ≤ s) (size_of <$> comps1)) as Hle.
    rewrite length_fmap in Hle. lia.
  - apply sumZ_filter_le, Forall_fmap, Forall_forall. intros p _. unfold size_of. simpl. lia.
Qed.

(** *** Every cell that holds 1 is in exactly one component *)

Lemma concat_snd_bind {A B : Type} (l : list (A * list B)) : concat (l.*2) = l ≫= snd.
Proof. induction l as [|p l IH]; [done|]. simpl. f_equal. exact IH. Qed.

Lemma NoDup_cells (rows cols : Z) :
  NoDup (i ← seqZ 0 rows; (λ j, (i, j)) <$> seqZ 0 cols).
Proof.
  apply NoDup_bind; [| |apply NoDup_seqZ].
  - intros i1 i2 [a b] _ _ (j1 & E1 & _)%list_elem_of_fmap (j2 & E2 & _)%list_elem_of_fmap.
    congruence.
  - intros i _. apply NoDup_fmap_2; [by intros ?? [=]|apply NoDup_seqZ].
Qed.

Lemma components_partition (g : grid) (comps : list (cell * list cell)) :
  components_of g comps →
  concat (comps.*2) ≡ₚ cells_holding_one (rows_of g) (cols_of g) g.
Proof.
  intros C. pose proof C as (Hcomp & Hsorted & Hcover).
  apply NoDup_Permutation.
  - rewrite concat_snd_bind. apply NoDup_bind.
    + intros p q x Hp Hq Hxp Hxq.
      destruct (Hcomp p Hp) as (Hp1 & [_ Hp2] & Hp3).
      destruct (Hcomp q Hq) as (Hq1 & [_ Hq2] & Hq3).
      apply Hp2 in Hxp as Hxp'. destruct Hxp' as [Hx Hcp].
      apply Hq2 in Hxq as Hxq'. destruct Hxq' as [_ Hcq].
      assert (Hkey : p.1 = q.1).
      { apply rm_le_antisym.
        - apply Hp3, Hp2. split; [done|].
          apply (rtc_trans _ x); [exact Hcp|by apply connected_sym].
        - apply Hq3, Hq2. split; [done|].
          apply (rtc_trans _ x); [exact Hcq|by apply connected_sym]. }
      pose proof (sorted_rm_lt_NoDup _ Hsorted) as Hnd.
      apply list_elem_of_lookup in Hp as [k1 Hk1]. apply list_elem_of_lookup in Hq as [k2 Hk2].
      assert (k1 = k2) as ->; [|congruence].
      eapply NoDup_lookup; [exact Hnd| |].
      * by rewrite list_lookup_fmap, Hk1.
      * by rewrite list_lookup_fmap, Hk2, Hkey.
    + intros p Hp. by destruct (Hcomp p Hp) as (_ & [? _] & _).
    + eapply NoDup_fmap_1, sorted_rm_lt_NoDup, Hsorted.
  - unfold cells_holding_one. apply NoDup_filter, NoDup_cells.
  - intros x. rewrite <- (one_enumerated (rows_of g) (cols_of g) g x).
    rewrite concat_snd_bind, list_elem_of_bind. split.
    + intros (p & Hx & Hp). destruct (Hcomp p Hp) as (_ & [_ H2] & _). by apply H2.
    + intros Hx. destruct (Hcover x Hx) as (p & Hp & Hxp). eauto.
Qed.

Lemma sumZ_sizes_concat (comps : list (cell * list cell)) :
  sumZ (size_of <$> comps) = Z.of_nat (length (concat (comps.*2))).
Proof.
  induction comps as [|p comps IH]; [done|].
  rewrite !fmap_cons. cbn [concat]. rewrite length_app.
  unfold sumZ in *. cbn [foldr]. rewrite IH. unfold size_of. lia.
Qed.

Lemma sumZ_filter_ge (m : Z) (l : list Z) :
  m * Z.of_nat (length (filter (λ s, m ≤ s) l)) ≤ sumZ (filter (λ s, m ≤ s) l).
Proof.
  induction l as [|x l IH]; [simpl; lia|].
  rewrite filter_cons. case_decide; [|done]. unfold sumZ in *. simpl. lia.
Qed.

(** The total that findclusters reports counts cells that hold 1 inside
    the scanned area, each at most once: with a threshold of at most 1 it
    is the number of those cells, and with any threshold it is at most
    that number and at least the threshold times the count. *)
Theorem findclusters_counts_cells (g : grid) (minSize : Z) :
  ∃ r, findclusters g minSize = Some r ∧
       totalSize r ≤ Z.of_nat (length (cells_holding_one (rows_of g) (cols_of g) g)) ∧
       (minSize ≤ 1 →
        totalSize r = Z.of_nat (length (cells_holding_one (rows_of g) (cols_of g) g))) ∧
       minSize * count r ≤ totalSize r.
Proof.
  destruct (decide (g = [])) as [->|Hne].
  { eexists. split; [reflexivity|]. simpl. split_and!; [done|done|lia]. }
  destruct (findclusters_scan g minSize Hne) as (comps & C & ->).
  eexists. split; [reflexivity|]. unfold summary. cbn [count totalSize].
  pose proof (Permutation_length (components_partition g comps C)) as Hlen.
  rewrite <- Hlen, <- sumZ_sizes_concat. unfold qualifying.
  rewrite filter_fmap_size, <- list_fmap_compose.
  change (snd ∘ (λ p : cell * list cell, (p.1, size_of p))) with size_of.
  split_and!.
  - apply sumZ_filter_le, Forall_fmap, Forall_forall. intros p _. unfold size_of. simpl. lia.
  - intros Hm. f_equal.
    assert (Hall : Forall (λ s, minSize ≤ s) (size_of <$> comps)).
    { apply Forall_fmap, Forall_forall. intros p Hp. simpl.
      pose proof (component_size_pos g comps p C Hp). lia. }
    induction Hall as [|x l Hx Hall IH]; [done|].
    rewrite filter_cons, decide_True by done. by rewrite IH.
  - rewrite <- (length_fmap size_of (filter _ comps)).
    rewrite filter_fmap_size, <- list_fmap_compose.
    change (snd ∘ (λ p : cell * list cell, (p.1, size_of p))) with size_of.
    apply sumZ_filter_ge.
Qed.

(** *** What the call does to the array it is given *)

(** [g'] is [g] with some of the cells that held 1 inside the area set
    to 0. *)
Definition cleared (rows cols : Z) (g g' : grid) : Prop :=
  length <$> g' = length <$> g ∧
  ∀ a b, 0 ≤ a → 0 ≤ b →
    get g' a b = get g a b ∨ (one rows cols g (a, b) ∧ get g' a b = Some 0).

Lemma cleared_refl rows cols g : cleared rows cols g g.
Proof. split; [done|]. intros. by left. Qed.

Lemma cleared_trans rows cols g1 g2 g3 :
  cleared rows cols g1 g2 → cleared rows cols g2 g3 → cleared rows cols g1 g3.
Proof.
  intros [S1 C1] [S2 C2]. split; [congruence|]. intros a b Ha Hb.
  destruct (C1 a b Ha Hb) as [E1|[O1 E1]], (C2 a b Ha Hb) as [E2|[O2 E2]].
  - left. congruence.
  - right. split; [|done]. destruct O2 as (? & ? & O2). simpl in *.
    split; [done|]. split; [done|]. simpl. congruence.
  - right. split; [done|]. congruence.
  - right. done.
Qed.

Lemma clear_shape (g : grid) (i j : Z) : length <$> clear g i j = length <$> g.
Proof.
  unfold clear. generalize (Z.to_nat i) as r. intros r. revert r.
  induction g as [|row g IH]; intros [|r]; simpl; try done.
  - by rewrite length_insert.
  - f_equal. apply IH.
Qed.

Lemma cleared_clear rows cols g i j :
  one rows cols g (i, j) → cleared rows cols g (clear g i j).
Proof.
  intros Hone. pose proof Hone as (Hi & Hj & Hget). simpl in *.
  split; [apply clear_shape|]. intros a b Ha Hb.
  destruct (decide ((a, b) = (i, j))) as [[= -> ->]|Hne].
  - right. split; [done|]. by eapply get_clear_eq; [lia|lia|].
  - left. apply get_clear_ne; lia || done.
Qed.

Lemma dfs_cleared rows cols fuel : ∀ g i j g' n,
  dfs fuel rows cols g i j = Some (g', n) → cleared rows cols g g'.
Proof.
  induction fuel as [|fuel IH]; intros g i j g' n; [done|].
  cbn [dfs]. case_bool_decide as Hguard.
  { intros [= <- <-]. apply cleared_refl. }
  assert (Hone : one rows cols g (i, j)).
  { unfold one. simpl. destruct (decide (get g i j = Some 1)); [|tauto].
    split; [lia|]. split; [lia|done]. }
  destruct (dfs fuel rows cols (clear g i j) (i + 1) j) as [[g1 s1]|] eqn:E1; [|done].
  simpl. destruct (dfs fuel rows cols g1 (i - 1) j) as [[g2 s2]|] eqn:E2; [|done].
  simpl. destruct (dfs fuel rows cols g2 i (j + 1)) as [[g3 s3]|] eqn:E3; [|done].
  simpl. destruct (dfs fuel rows cols g3 i (j - 1)) as [[g4 s4]|] eqn:E4; [|done].
  simpl. intros [= <- <-].
  eapply cleared_trans; [by apply cleared_clear|].
  eapply cleared_trans; [by eapply IH|].
  eapply cleared_trans; [by eapply IH|].
  eapply cleared_trans; [by eapply IH|by eapply IH].
Qed.

Lemma for_each_rel {S I : Type} (R : S → S → Prop) (l : list I)
    (body : I → S → option S) :
  (∀ s, R s s) → (∀ s1 s2 s3, R s1 s2 → R s2 s3 → R s1 s3) →
  (∀ x s s', body x s = Some s' → R s s') →
  ∀ s s', for_each l body s = Some s' → R s s'.
Proof.
  intros Hrefl Htrans Hbody. induction l as [|x l IH]; intros s s'; simpl.
  - intros [= <-]. apply Hrefl.
  - destruct (body x s) as [s1|] eqn:E; [|done]. simpl. intros H.
    eapply Htrans; [by eapply Hbody|by apply IH].
Qed.

Lemma scan_cleared rows cols fuel minSize st st' :
  scan fuel rows cols minSize st = Some st' →
  cleared rows cols (st_grid st) (st_grid st').
Proof.
  unfold scan.
  apply (for_each_rel (λ s s', cleared rows cols (st_grid s) (st_grid s')));
    [intros; apply cleared_refl|intros ???; apply cleared_trans|].
  intros i s s'.
  apply (for_each_rel (λ s s', cleared rows cols (st_grid s) (st_grid s')));
    [intros; apply cleared_refl|intros ???; apply cleared_trans|].
  clear. intros j s s'. unfold visit. case_bool_decide; [|intros [= <-]; apply cleared_refl].
  destruct (dfs _ _ _ _ _ _) as [[g n]|] eqn:E; [|done]. simpl.
  apply dfs_cleared in E. case_bool_decide; by intros [= <-].
Qed.

Lemma cleared_dims rows cols g g' :
  cleared rows cols g g' → rows_of g' = rows_of g ∧ cols_of g' = cols_of g.
Proof.
  intros [Hshape _]. unfold rows_of, cols_of. split.
  - by rewrite <- (length_fmap length g'), Hshape, length_fmap.
  - assert (H0 : (length <$> g') !! 0%nat = (length <$> g) !! 0%nat) by (by rewrite Hshape).
    rewrite !list_lookup_fmap in H0.
    destruct (g' !! 0%nat), (g !! 0%nat); simpl in *; congruence.
Qed.

(** findclusters works on the array it is given. After the call every
    cell that held 1 inside the scanned area holds 0, the components
    below the threshold included, and no other cell has changed; the
    object returned is the one of [findclusters]. A second call on the
    same array, with any threshold, finds nothing. *)
Theorem findclusters_in_place_erases (g : grid) (minSize : Z) :
  ∃ g' r,
    ClusterStore.findclusters_in_place g minSize = Some (g', r) ∧
    findclusters g minSize = Some r ∧
    length <$> g' = length <$> g ∧
    (∀ a b, 0 ≤ a → 0 ≤ b →
       (one (rows_of g) (cols_of g) g (a, b) → get g' a b = Some 0) ∧
       (¬ one (rows_of g) (cols_of g) g (a, b) → get g' a b = get g a b)) ∧
    (g ≠ [] → ∀ minSize',
       findclusters g' minSize' =
       Some {| count := 0; sizes := []; totalSize := 0; score := Some 0%float |}).
Proof.
  destruct (decide (g = [])) as [->|Hne].
  { exists [], {| count := 0; sizes := []; totalSize := 0; score := None |}.
    split_and!; [done..| |done]. intros a b _ _. split; [|done].
    intros (_ & _ & H). done. }
  unfold ClusterStore.findclusters_in_place. unfold findclusters at 1.
  case_bool_decide as Hlen; [destruct g; [done|simpl in Hlen; lia]|]. cbn zeta.
  destruct (scan_correct (rows_of g) (cols_of g) g minSize (S (ones g)))
    as (st & comps & E & Inv); [lia|unfold rows_of; lia|unfold cols_of; lia|].
  assert (Hcl := scan_cleared _ _ _ _ _ _ E). cbn [init st_grid] in Hcl.
  unfold init, rows_of, cols_of in E. rewrite E. simpl.
  eexists _, _. split; [reflexivity|]. split; [reflexivity|].
  assert (Hnone : ∀ x, ¬ one (rows_of g) (cols_of g) (st_grid st) x).
  { intros x Hx. pose proof (si_pos _ _ _ _ _ _ _ Inv x Hx) as Hle.
    destruct Hx as (Ha & _). unfold rm_le in Hle. simpl in Hle. lia. }
  destruct (cleared_dims _ _ _ _ Hcl) as [Hr Hc].
  split_and!.
  - apply Hcl.
  - intros a b Ha Hb. destruct Hcl as [_ Hcells]. split.
    + intros Hone. destruct (Hcells a b Ha Hb) as [Hsame|[_ ?]]; [|done].
      exfalso. apply (Hnone (a, b)). destruct Hone as (? & ? & Hg). simpl in *.
      split; [done|]. split; [done|]. simpl. congruence.
    + intros Hn. by destruct (Hcells a b Ha Hb) as [Hsame|[? _]].
  - intros _ minSize'.
    assert (Hne' : st_grid st ≠ []).
    { intros H0. unfold rows_of in Hr. rewrite H0 in Hr. simpl in Hr.
      destruct g; [done|simpl in Hr; lia]. }
    destruct (findclusters_scan (st_grid st) minSize' Hne') as (comps' & (Hcomp & _) & ->).
    destruct comps' as [|p comps']; [done|]. exfalso.
    destruct (Hcomp p) as (Hone & _); [apply list_elem_of_here|].
    rewrite Hr, Hc in Hone. by apply (Hnone p.1).
Qed.

(** A grid with a row and without any 1. *)
Lemma findclusters_zero_grid (g : grid) (minSize : Z) :
  g ≠ [] → Forall (Forall (λ v, v ≠ 1)) g →
  findclusters g minSize =
  Some {| count := 0; sizes := []; totalSize := 0; score := Some 0%float |}.
Proof.
  intros Hne Hall.
  destruct (findclusters_scan g minSize Hne) as (comps & (Hcomp & _) & ->).
  destruct comps as [|p comps]; [done|]. exfalso.
  destruct (Hcomp p) as (Hone & _); [apply list_elem_of_here|].
  by eapply no_one_of_Forall.
Qed.

End ClusterFacts.

(* ================================================================= *)
(** ** ModelScorer *)

Module ScorerFacts.
Import Scorer.

(** The model entries of the tokens that the model holds, in token order. *)
Definition present (data : TrainedModel) (toks : list string) : list counts :=
  omap (λ el, data !! el) toks.

Definition normal_sum (data : TrainedModel) (toks : list string) : Z :=
  sumZ (normal <$> present data toks).

Definition anomaly_sum (data : TrainedModel) (toks : list string) : Z :=
  sumZ (anomaly <$> present data toks).

Lemma sums_cons (data : TrainedModel) (el : string) (toks : list string) :
  normal_sum data (el :: toks) =
    match data !! el with Some d => normal d | None => 0 end + normal_sum data toks ∧
  anomaly_sum data (el :: toks) =
    match data !! el with Some d => anomaly d | None => 0 end + anomaly_sum data toks.
Proof.
  unfold normal_sum, anomaly_sum, present. cbn [omap list_omap].
  destruct (data !! el); done.
Qed.

Lemma foldl_add_token (data : TrainedModel) (toks : list string) (a b : Z) :
  foldl (add_token data) (a, b) toks =
  (a + normal_sum data toks, b + anomaly_sum data toks).
Proof.
  revert a b. induction toks as [|el toks IH]; intros a b.
  - unfold normal_sum, anomaly_sum. simpl. f_equal; lia.
  - cbn [foldl]. unfold add_token at 2. cbn [fst snd]. rewrite IH.
    destruct (sums_cons data el toks) as [-> ->]. f_equal; lia.
Qed.

Lemma tally_sums (data : TrainedModel) (toks : list string) :
  tally data toks = (normal_sum data toks, anomaly_sum data toks).
Proof. unfold tally. by rewrite foldl_add_token. Qed.

Lemma present_absent (data : TrainedModel) (toks : list string) :
  (∀ el, el ∈ toks → data !! el = None) → present data toks = [].
Proof.
  induction toks as [|el toks IH]; intros H; [done|].
  unfold present. cbn [omap list_omap]. rewrite (H el) by apply list_elem_of_here.
  apply IH. intros el' Hel. apply H. by apply list_elem_of_further.
Qed.

Section Getgrid.
Local Open Scope nat_scope.
Context {A : Type}.

(** getgrid returns, whatever the length: the rows are consecutive
    slices of width [floor (sqrt (length mat))]. *)
Lemma getgrid_slices (mat : list A) :
  ∃ m, getgrid mat =
         Some ((λ j, slice mat (j * Nat.sqrt (length mat))
                              (j * Nat.sqrt (length mat) + Nat.sqrt (length mat)))
               <$> seq 0 m) ∧
       length mat ≤ m * Nat.sqrt (length mat) ∧
       (m = 0 ∨ (m - 1) * Nat.sqrt (length mat) < length mat).
Proof.
  unfold getgrid. cbn zeta. set (n := Nat.sqrt (length mat)).
  destruct (decide (length mat = 0)) as [Hz|Hnz].
  - exists 0. rewrite Hz. simpl. split_and!; [done|lia|by left].
  - assert (0 < n).
    { pose proof (Nat.sqrt_spec (length mat) (Nat.le_0_l _)) as [_ Hs].
      fold n in Hs. destruct n; [simpl in Hs; lia|lia]. }
    destruct (for_step_inv
                (λ j matrix, matrix = (λ j, slice mat (j * n) (j * n + n)) <$> seq 0 j)
                (λ i matrix, Some (matrix ++ [slice mat i (i + n)]))
                (length mat) (length mat) n 0 [])
      as (g & m & E & -> & _ & Hle & Hor); [done|nia| |done|].
    + intros j matrix _ ->. eexists. split; [done|]. by rewrite seq_S, fmap_app.
    + exists m. simpl in E. split_and!; [done|done|]. destruct Hor; [by left|by right].
Qed.


End Getgrid.

(** C1. The scoring loop pushes one label per coordinate, in key order.
    The label of a coordinate is 1 exactly when the sum of the anomaly
    counts of its tokens is not zero and the quotient of the sum of the
    normal counts by the sum of the anomaly counts, a division of
    doubles, does not exceed 0.9; the sums range over the tokens the
    model holds, the others adding 0 to both. A coordinate none of whose
    tokens is in the model is labelled 0. *)
Theorem label_iff (data : TrainedModel) (memo : TokenMemo) :
  length (activations data memo) = length memo ∧
  ∀ k key toks, memo !! k = Some (key, toks) →
    ∃ l, activations data memo !! k = Some l ∧
         (l = 0 ∨ l = 1) ∧
         (l = 1 ↔
            anomaly_sum data toks ≠ 0 ∧
            (0.9 <? JS.of_Z (normal_sum data toks) / JS.of_Z (anomaly_sum data toks))%float
            = false) ∧
         ((∀ el, el ∈ toks → data !! el = None) → l = 0).
Proof.
  unfold activations. split; [by rewrite length_fmap|].
  intros k key toks Hk. exists (label data toks).
  rewrite list_lookup_fmap, Hk. split; [done|].
  unfold label, ratio. rewrite tally_sums. cbn [fst snd].
  split_and!.
  - destruct (_ || _); auto.
  - case_bool_decide as Hz; simpl.
    + split; [done|]. intros [? _]. done.
    + destruct (0.9 <? _)%float; split; try done. by intros [_ ?].
  - intros Habs. unfold anomaly_sum. rewrite present_absent by done.
    simpl. done.
Qed.

(** A model with three tokens and a memo of four coordinates. *)
Definition model3 : TrainedModel :=
  {[ "t" := {| normal := 1; anomaly := 2 |};
     "u" := {| normal := 9; anomaly := 10 |};
     "w" := {| normal := 10; anomaly := 10 |} ]}.

Definition memo4 : TokenMemo :=
  [("(0,0)", ["t"; "x"]); ("(0,1)", ["u"]); ("(1,0)", ["w"]); ("(1,1)", ["x"])].

(** The four cases of the rule: 1 / 2 and 9 / 10 do not exceed 0.9, so the
    first two coordinates are labelled 1; 10 / 10 exceeds it, and the
    last coordinate has no token in the model: both are labelled 0. *)
Lemma label_iff_model3 :
  activations model3 memo4 !! 0%nat = Some 1 ∧
  activations model3 memo4 !! 1%nat = Some 1 ∧
  activations model3 memo4 !! 2%nat = Some 0 ∧
  activations model3 memo4 !! 3%nat = Some 0.
Proof.
  destruct (label_iff model3 memo4) as [_ H]. split_and!.
  - destruct (H 0%nat "(0,0)" ["t"; "x"] eq_refl) as (l & -> & _ & [_ H1] & _).
    f_equal. apply H1. split; [vm_compute; discriminate|vm_compute; reflexivity].
  - destruct (H 1%nat "(0,1)" ["u"] eq_refl) as (l & -> & _ & [_ H1] & _).
    f_equal. apply H1. split; [vm_compute; discriminate|vm_compute; reflexivity].
  - destruct (H 2%nat "(1,0)" ["w"] eq_refl) as (l & -> & [-> | ->] & [H1 _] & _); [done|].
    destruct (H1 eq_refl) as [_ Hq]. vm_compute in Hq. discriminate Hq.
  - destruct (H 3%nat "(1,1)" ["x"] eq_refl) as (l & -> & _ & _ & H0).
    f_equal. apply H0. intros el Hel. apply list_elem_of_singleton in Hel as ->.
    vm_compute. reflexivity.
Defined.




(** *** detect on tokens the model does not hold *)

Lemma activations_absent (data : TrainedModel) (memo : TokenMemo) :
  (∀ kv el, kv ∈ memo → el ∈ kv.2 → data !! el = None) →
  activations data memo = replicate (length memo) 0.
Proof.
  intros Habs. unfold activations.
  induction memo as [|kv memo IH]; [done|].
  rewrite fmap_cons. cbn [length replicate]. f_equal.
  - unfold label. rewrite tally_sums. cbn [snd]. unfold anomaly_sum.
    rewrite present_absent; [done|].
    intros el Hel. eapply Habs; [apply list_elem_of_here|done].
  - apply IH. intros kv' el Hkv. apply Habs. by apply list_elem_of_further.
Qed.

(** When the model holds none of the tokens of the memo, as with an
    empty model, detect reports no cluster: [similar] is 0, and the score
    is 0, or undefined when the memo has no coordinate at all. *)
Theorem detect_memo_untrained (data : TrainedModel) (memo : TokenMemo) :
  (∀ kv el, kv ∈ memo → el ∈ kv.2 → data !! el = None) →
  detect_memo data memo =
  Some {| det_score := if decide (memo = []) then None else Some 0%float;
          similar := 0 |}.
Proof.
  intros Habs. unfold detect_memo. rewrite (activations_absent data memo Habs).
  destruct (getgrid_slices (replicate (length memo) 0)) as (m & -> & Hle & Hor).
  simpl. rewrite length_replicate in *.
  destruct memo as [|kv memo].
  { destruct Hor as [->|Hor]; [done|]. simpl in Hor. by apply Nat.nlt_0_r in Hor. }
  rewrite decide_False by done.
  rewrite (ClusterFacts.findclusters_zero_grid _ 7); [done| |].
  - destruct m; [simpl in *; lia|]. done.
  - apply Forall_fmap, Forall_forall. intros j _. simpl.
    unfold slice. apply Forall_take, Forall_drop.
    change (0 :: replicate (length memo) 0) with (replicate (S (length memo)) 0).
    apply Forall_replicate. lia.
Qed.

Lemma detect_memo_untrained_empty_model :
  detect_memo ∅ [("(0,0)", ["2_0_2_0_4"]); ("(0,1)", ["2_0_2_0_2"])] =
  Some {| det_score := Some 0%float; similar := 0 |}.
Proof.
  apply (detect_memo_untrained ∅ [("(0,0)", ["2_0_2_0_4"]); ("(0,1)", ["2_0_2_0_2"])]).
  intros kv el _ _. apply lookup_empty.
Defined.

End ScorerFacts.



(* ================================================================= *)
(** ** BlockPartitioner *)

Module BlocksFacts.
Import Blocks.
Local Open Scope nat_scope.

Section Tiles.
Context {A : Type}.

(** The tile of [m] whose top left corner is (i, j). *)
Definition tile (m : list (list A)) (size i j : nat) : list (list A) :=
  (λ k, slice (default [] (m !! (i + k))) j (j + size)) <$> seq 0 size.

Lemma block_at_tile (tm : list (list A)) (size i j : nat) :
  i + size ≤ length tm → block_at tm size i j = Returns (tile tm size i j).
Proof.
  intros Hi. unfold block_at, tile.
  apply (foldl_seq_inv (λ n acc,
           acc = Returns ((λ k, slice (default [] (tm !! (i + k))) j (j + size)) <$> seq 0 n))).
  - done.
  - intros k acc Hk ->. cbn [obind]. unfold row_at.
    destruct (lookup_lt_is_Some_2 tm (i + k)) as [row Hrow]; [lia|].
    rewrite Hrow. cbn [obind].
    rewrite seq_S, fmap_app. simpl. by rewrite Hrow.
Qed.

(** One strip: the tiles at row [i], from left to right. *)
Lemma strip_tiles (tm : list (list A)) (size nbw i : nat) (blocks : list (list (list A))) :
  0 < size → i + size ≤ length tm →
  strip tm size (nbw * size) i (Returns blocks) =
  Some (Returns (blocks ++ ((λ bj, tile tm size i (bj * size)) <$> seq 0 nbw))).
Proof.
  intros Hsize Hi. unfold strip.
  destruct (for_step_inv
              (λ n acc, acc = Returns (blocks ++ ((λ bj, tile tm size i (bj * size)) <$> seq 0 n)))
              (λ j acc, Some (obind acc (λ blocks,
                              obind (block_at tm size i j) (λ block,
                              Returns (blocks ++ [block])))))
              (nbw * size) (nbw * size) size 0 (Returns blocks))
    as (acc & m & E & -> & _ & Hle & Hor); [done|nia| | |].
  - intros n acc Hn ->. eexists. split; [done|]. cbn [obind].
    rewrite block_at_tile by done. cbn [obind].
    by rewrite seq_S, fmap_app, app_assoc.
  - simpl. by rewrite app_nil_r.
  - simpl in E. rewrite E. assert (m = nbw) as -> by nia. done.
Qed.

(** All the strips, from top to bottom. *)
Lemma strips_tiles (tm : list (list A)) (size nbh nbw : nat) :
  0 < size → nbh * size ≤ length tm →
  for_step (nbh * size) 0 (nbh * size) size
    (λ i blocks, strip tm size (nbw * size) i blocks) (Returns []) =
  Some (Returns (concat ((λ bi, (λ bj, tile tm size (bi * size) (bj * size)) <$> seq 0 nbw)
                         <$> seq 0 nbh))).
Proof.
  intros Hsize Hlen.
  destruct (for_step_inv
              (λ n acc, acc = Returns (concat ((λ bi, (λ bj, tile tm size (bi * size) (bj * size))
                                                       <$> seq 0 nbw) <$> seq 0 n)))
              (λ i blocks, strip tm size (nbw * size) i blocks)
              (nbh * size) (nbh * size) size 0 (Returns []))
    as (acc & m & E & -> & _ & Hle & Hor); [done|nia| |done|].
  - intros n acc Hn ->.
    assert (n < nbh) by nia.
    assert ((n + 1) * size ≤ nbh * size) by (apply Nat.mul_le_mono_r; lia).
    eexists. split; [apply strip_tiles; [done|lia]|].
    rewrite seq_S, fmap_app, concat_app. simpl. by rewrite app_nil_r.
  - simpl in E. rewrite E. assert (m = nbh) as -> by nia. done.
Qed.

Lemma lookup_concat_uniform (L : list (list (list (list A)))) (n bi bj : nat) :
  Forall (λ l, length l = n) L → bj < n →
  concat L !! (bi * n + bj) = L !! bi ≫= (.!! bj).
Proof.
  intros Hall Hbj. revert bi. induction Hall as [|l L Hl Hall IH]; intros bi.
  - by rewrite lookup_nil.
  - destruct bi as [|bi]; simpl.
    + rewrite lookup_app_l by lia. done.
    + rewrite lookup_app_r by lia. rewrite <- IH. f_equal. lia.
Qed.

Lemma length_concat_uniform (L : list (list (list (list A)))) (n : nat) :
  Forall (λ l, length l = n) L → length (concat L) = length L * n.
Proof.
  induction 1 as [|l L Hl Hall IH]; [done|]. simpl. rewrite length_app, IH, Hl. lia.
Qed.

Lemma trimmed_multiple (h size : nat) :
  0 < size → h - h mod size = (h - h mod size) / size * size.
Proof.
  intros Hs. pose proof (Nat.div_mod_eq h size) as E.
  assert (Hq : h - h mod size = h / size * size) by lia.
  rewrite Hq at 2. rewrite Nat.div_mul by lia. done.
Qed.

Lemma slice_lookup (row : list A) (a b l : nat) :
  l < b - a → slice row a b !! l = row !! (a + l).
Proof. intros Hl. unfold slice. by rewrite lookup_take_lt, lookup_drop by done. Qed.

Lemma slice_length (row : list A) (a b : nat) :
  b ≤ length row → length (slice row a b) = b - a.
Proof. intros Hb. unfold slice. rewrite length_take, length_drop. lia. Qed.

(** C5. On a matrix of h > 0 rows of w columns and a block side
    size > 0, extractBlocks returns
    ((h - h mod size) / size) * ((w - w mod size) / size) blocks; the
    block at position bi * ((w - w mod size) / size) + bj of the result has
    size rows of size samples, row k being the samples of row
    bi * size + k of the matrix at columns bj * size to
    bj * size + size - 1, all of them inside the trimmed bounds. *)
Theorem extractBlocks_tiles (mat : list (list A)) (h w size : nat) :
  length mat = h → 0 < h → Forall (λ row, length row = w) mat → 0 < size →
  ∃ blocks,
    extractBlocks mat size = Some (Returns blocks) ∧
    length blocks = (h - h mod size) / size * ((w - w mod size) / size) ∧
    ∀ bi bj, bi < (h - h mod size) / size → bj < (w - w mod size) / size →
      ∃ block,
        blocks !! (bi * ((w - w mod size) / size) + bj) = Some block ∧
        length block = size ∧
        ∀ k, k < size →
          ∃ brow,
            block !! k = Some brow ∧ length brow = size ∧
            ∀ l, l < size →
              bi * size + k < h - h mod size ∧
              bj * size + l < w - w mod size ∧
              is_Some (brow !! l) ∧
              brow !! l = mat !! (bi * size + k) ≫= (.!! (bj * size + l)).
Proof.
  intros Hh Hpos Hrect Hsize.
  set (nbh := (h - h mod size) / size). set (nbw := (w - w mod size) / size).
  pose proof (trimmed_multiple h size Hsize) as HH. fold nbh in HH.
  pose proof (trimmed_multiple w size Hsize) as HW. fold nbw in HW.
  unfold extractBlocks.
  destruct mat as [|row0 mat']; [simpl in Hh; lia|].
  cbn [lookup list_lookup]. cbn zeta.
  assert (Hw0 : length row0 = w) by (by apply Forall_cons in Hrect as [? _]).
  rewrite Hh, Hw0, HH, HW.
  set (M := row0 :: mat') in *.
  set (tm := (λ row, slice row 0 (nbw * size)) <$> slice M 0 (nbh * size)).
  assert (Htm : length tm = nbh * size).
  { unfold tm, slice. rewrite length_fmap, length_take, length_drop. lia. }
  rewrite strips_tiles by (done || lia).
  eexists. split; [done|].
  set (L := (λ bi, (λ bj, tile tm size (bi * size) (bj * size)) <$> seq 0 nbw) <$> seq 0 nbh).
  assert (HL : Forall (λ l, length l = nbw) L).
  { apply Forall_fmap, Forall_forall. intros bi _. simpl. by rewrite length_fmap, length_seq. }
  split.
  { rewrite (length_concat_uniform L nbw HL). unfold L. by rewrite length_fmap, length_seq. }
  intros bi bj Hbi Hbj.
  assert (Hrows : (bi + 1) * size ≤ nbh * size) by (apply Nat.mul_le_mono_r; lia).
  assert (Hcols : (bj + 1) * size ≤ nbw * size) by (apply Nat.mul_le_mono_r; lia).
  exists (tile tm size (bi * size) (bj * size)). split_and!.
  - rewrite (lookup_concat_uniform L nbw bi bj HL Hbj). unfold L.
    rewrite list_lookup_fmap, lookup_seq_lt by done. simpl.
    rewrite list_lookup_fmap, lookup_seq_lt by done. done.
  - unfold tile. by rewrite length_fmap, length_seq.
  - intros k Hk.
    assert (Hr : bi * size + k < nbh * size) by lia.
    destruct (lookup_lt_is_Some_2 M (bi * size + k)) as [row Hrow]; [lia|].
    assert (Hrl : length row = w).
    { eapply Forall_lookup_1 in Hrow; [|exact Hrect]. done. }
    assert (Htmr : tm !! (bi * size + k) = Some (slice row 0 (nbw * size))).
    { unfold tm. rewrite list_lookup_fmap. unfold slice at 2.
      rewrite lookup_take_lt by lia. rewrite lookup_drop. simpl. by rewrite Hrow. }
    exists (slice (slice row 0 (nbw * size)) (bj * size) (bj * size + size)). split_and!.
    + unfold tile. rewrite list_lookup_fmap, lookup_seq_lt by done. simpl.
      by rewrite Htmr.
    + rewrite slice_length; [lia|]. rewrite slice_length; lia.
    + intros l Hl. rewrite Hrow. simpl.
      rewrite slice_lookup by lia. rewrite slice_lookup by lia. simpl.
      split_and!; [lia|lia| |done].
      apply lookup_lt_is_Some_2. lia.
Qed.

End Tiles.

(** A 5 x 5 matrix cut into blocks of side 2. *)
Definition matrix5 : list (list Z) :=
  [[1; 2; 3; 4; 5]; [6; 7; 8; 9; 10]; [11; 12; 13; 14; 15];
   [16; 17; 18; 19; 20]; [21; 22; 23; 24; 25]]%Z.

Example extractBlocks_matrix5 :
  extractBlocks matrix5 2 =
  Some (Returns [[[1; 2]; [6; 7]]; [[3; 4]; [8; 9]];
                 [[11; 12]; [16; 17]]; [[13; 14]; [18; 19]]]%Z).
Proof. reflexivity. Qed.

Lemma extractBlocks_tiles_matrix5 :
  length matrix5 = 5 ∧ 0 < 5 ∧ Forall (λ row, length row = 5) matrix5 ∧ 0 < 2 ∧
  ∃ blocks,
    extractBlocks matrix5 2 = Some (Returns blocks) ∧
    length blocks = (5 - 5 mod 2) / 2 * ((5 - 5 mod 2) / 2).
Proof.
  assert (H1 : length matrix5 = 5) by reflexivity.
  assert (H2 : 0 < 5) by lia.
  assert (H3 : Forall (λ row, length row = 5) matrix5) by (repeat constructor).
  assert (H4 : 0 < 2) by lia.
  split_and!; [exact H1|exact H2|exact H3|exact H4|].
  destruct (extractBlocks_tiles matrix5 5 5 2 H1 H2 H3 H4) as (blocks & E & L & _).
  exists blocks. split; [exact E|exact L].
Defined.

(** *** extractBlocks on any matrix *)

(** extractBlocks fails only on a matrix with no row, where reading the
    length of the first row is a TypeError. On every other matrix, with
    rows of any lengths and any block side, it returns
    floor (h / size) * floor (w / size) blocks of [size] rows each, [w]
    being the length of the first row; that is no block at all when the
    side is 0 or exceeds the height or the width. *)
Theorem extractBlocks_total {A : Type} (size : nat) :
  extractBlocks (A := A) [] size =
  Some (Throws (TypeError "Cannot read properties of undefined")) ∧
  ∀ (row0 : list A) (mat : list (list A)),
    ∃ blocks,
      extractBlocks (row0 :: mat) size = Some (Returns blocks) ∧
      length blocks = length (row0 :: mat) / size * (length row0 / size) ∧
      Forall (λ block, length block = size) blocks.
Proof.
  split; [done|]. intros row0 mat. unfold extractBlocks.
  cbn [lookup list_lookup]. cbn zeta.
  set (M := row0 :: mat). set (h := length M). set (w := length row0).
  destruct (decide (size = 0)) as [->|Hsize].
  { exists []. rewrite !Nat.sub_diag. split; [done|]. by split_and!. }
  assert (Hs : 0 < size) by lia.
  set (nbh := (h - h mod size) / size). set (nbw := (w - w mod size) / size).
  pose proof (trimmed_multiple h size Hs) as HH. fold nbh in HH.
  pose proof (trimmed_multiple w size Hs) as HW. fold nbw in HW.
  assert (Hnbh : nbh = h / size).
  { unfold nbh. pose proof (Nat.div_mod_eq h size).
    replace (h - h mod size) with (h / size * size) by lia. by rewrite Nat.div_mul by lia. }
  assert (Hnbw : nbw = w / size).
  { unfold nbw. pose proof (Nat.div_mod_eq w size).
    replace (w - w mod size) with (w / size * size) by lia. by rewrite Nat.div_mul by lia. }
  rewrite HH, HW.
  set (tm := (λ row, slice row 0 (nbw * size)) <$> slice M 0 (nbh * size)).
  assert (Htm : length tm = nbh * size).
  { unfold tm, slice. rewrite length_fmap, length_take, length_drop. fold h. lia. }
  rewrite strips_tiles by (done || lia).
  eexists. split; [done|].
  set (L := (λ bi, (λ bj, tile tm size (bi * size) (bj * size)) <$> seq 0 nbw) <$> seq 0 nbh).
  assert (HL : Forall (λ l, length l = nbw) L).
  { apply Forall_fmap, Forall_forall. intros bi _. simpl. by rewrite length_fmap, length_seq. }
  split.
  - rewrite (length_concat_uniform L nbw HL). unfold L.
    by rewrite length_fmap, length_seq, Hnbh, Hnbw.
  - apply Forall_concat. unfold L. apply Forall_fmap, Forall_forall. intros bi _. simpl.
    apply Forall_fmap, Forall_forall. intros bj _. simpl.
    unfold tile. by rewrite length_fmap, length_seq.
Qed.

End BlocksFacts.

(* ================================================================= *)
(** ** HashGenerator *)

Module HashFacts.
Import Hash.

(** *** The coordinate keys are pairwise different *)

Fixpoint free_of (c : ascii) (s : string) : Prop :=
  match s with
  | EmptyString => True
  | String a s => a ≠ c ∧ free_of c s
  end.

Lemma pretty_N_go_free (c : ascii) (x : N) (s : string) :
  (∀ d, pretty_N_char d ≠ c) → free_of c s → free_of c (pretty_N_go x s).
Proof.
  intros Hc. revert s. induction (N.lt_wf_0 x) as [x _ IH]. intros s Hs.
  destruct (decide (x = 0%N)) as [->|Hx].
  - by rewrite pretty_N_go_0.
  - rewrite pretty_N_go_step by lia. apply IH.
    + apply N.div_lt; lia.
    + split; [apply Hc|done].
Qed.

Lemma pretty_nat_free (c : ascii) (n : nat) :
  (∀ d, pretty_N_char d ≠ c) → free_of c (pretty n).
Proof.
  intros Hc. unfold pretty, pretty_nat, pretty, pretty_N. case_decide.
  - split; [apply (Hc 0%N)|done].
  - by apply pretty_N_go_free.
Qed.

Lemma comma_no_digit (d : N) : pretty_N_char d ≠ ","%char.
Proof. unfold pretty_N_char. by repeat case_match. Qed.

Lemma paren_no_digit (d : N) : pretty_N_char d ≠ ")"%char.
Proof. unfold pretty_N_char. by repeat case_match. Qed.

(** Two strings cut at the first occurrence of a separator. *)
Lemma app_sep_inj (c : ascii) (a a' t t' : string) :
  free_of c a → free_of c a' →
  a +:+ String c t = a' +:+ String c t' → a = a' ∧ t = t'.
Proof.
  revert a'. induction a as [|x a IH]; intros [|x' a'] Ha Ha' E; simpl in *.
  - by injection E as ->.
  - injection E as <- _. by destruct Ha'.
  - injection E as -> _. by destruct Ha.
  - injection E as -> E. destruct Ha as [_ Ha], Ha' as [_ Ha'].
    destruct (IH a' Ha Ha' E) as [-> ->]. done.
Qed.

Lemma coord_inj (i j i' j' : nat) : coord i j = coord i' j' → i = i' ∧ j = j'.
Proof.
  unfold coord. intros E. simpl in E. injection E as E.
  apply app_sep_inj in E as [Ei Ej]; [|by apply pretty_nat_free, comma_no_digit..].
  apply (inj pretty) in Ei.
  apply app_sep_inj in Ej as [Ej _]; [|by apply pretty_nat_free, paren_no_digit..].
  apply (inj pretty) in Ej. done.
Qed.

(** *** The memo object *)

Lemma memo_set_fresh (memo : memo_t) (key : string) (v : list string) :
  key ∉ memo.*1 → memo_set memo key v = memo ++ [(key, v)].
Proof.
  induction memo as [|[k x] memo IH]; intros Hk; [done|].
  simpl in *. apply not_elem_of_cons in Hk as [Hne Hk].
  rewrite decide_False by done. by rewrite IH.
Qed.

Lemma memo_push_last (memo : memo_t) (key : string) (v : list string) (hsh : string) :
  key ∉ memo.*1 → memo_push (memo ++ [(key, v)]) key hsh = memo ++ [(key, v ++ [hsh])].
Proof.
  induction memo as [|[k x] memo IH]; intros Hk; simpl in *.
  - by rewrite decide_True.
  - apply not_elem_of_cons in Hk as [Hne Hk].
    rewrite decide_False by done. by rewrite IH.
Qed.

Section WithFeatures.
Context {F : Type}.
Variable show : F → string.
Variable blocks : list (list (list F)).
Variable ext : bool.
Variables rows cols : nat.
Hypothesis blocks_rows : length blocks = rows.
Hypothesis blocks_cols : Forall (λ row, length row = cols) blocks.

(** [blocks[a][b]] of a grid that has it. *)
Definition cell_at (a b : Z) : list F :=
  default [] (blocks !! Z.to_nat a ≫= (.!! Z.to_nat b)).

(** The tokens of the coordinate (i, j): one for each neighbour offset
    that lands inside the grid, in the order of the offsets. *)
Definition tokens_at (i j : nat) : list string :=
  (λ d, token show ext (cell_at (Z.of_nat i) (Z.of_nat j))
              (cell_at (Z.of_nat i + d.1.1) (Z.of_nat j + d.1.2))
              (rel_code (Z.of_nat rows) i j) d.2)
  <$> filter (in_bounds (Z.of_nat rows) (Z.of_nat cols) i j) directions.

Lemma vector_at_in_range (a b : Z) :
  0 ≤ a < Z.of_nat rows → 0 ≤ b < Z.of_nat cols →
  vector_at blocks a b = Returns (cell_at a b).
Proof using blocks_rows blocks_cols.
  intros Ha Hb. unfold vector_at, cell_at.
  destruct (lookup_lt_is_Some_2 blocks (Z.to_nat a)) as [row Hrow]; [lia|].
  rewrite Hrow. simpl.
  assert (length row = cols) by (by eapply Forall_lookup_1 in Hrow; [|exact blocks_cols]).
  destruct (lookup_lt_is_Some_2 row (Z.to_nat b)) as [v Hv]; [lia|].
  by rewrite Hv.
Qed.

(** The loop over the directions at (i, j), started on an entry of the
    memo that is the last one. *)
Lemma neighbour_fold (i j : nat) (ds : list (Z * Z * Z)) :
  (i < rows)%nat → (j < cols)%nat →
  ∀ (hashes : list string) (memo : memo_t) (toks : list string),
  coord i j ∉ memo.*1 →
  foldl (neighbour_step show blocks ext (Z.of_nat rows) (Z.of_nat cols) i j)
        (Returns (hashes, memo ++ [(coord i j, toks)])) ds =
  Returns
    (hashes ++ ((λ d, token show ext (cell_at (Z.of_nat i) (Z.of_nat j))
                        (cell_at (Z.of_nat i + d.1.1) (Z.of_nat j + d.1.2))
                        (rel_code (Z.of_nat rows) i j) d.2)
                <$> filter (in_bounds (Z.of_nat rows) (Z.of_nat cols) i j) ds),
     memo ++ [(coord i j,
               toks ++ ((λ d, token show ext (cell_at (Z.of_nat i) (Z.of_nat j))
                                (cell_at (Z.of_nat i + d.1.1) (Z.of_nat j + d.1.2))
                                (rel_code (Z.of_nat rows) i j) d.2)
                        <$> filter (in_bounds (Z.of_nat rows) (Z.of_nat cols) i j) ds))]).
Proof using blocks_rows blocks_cols.
  intros Hi Hj. induction ds as [|d ds IH]; intros hashes memo toks Hkey.
  - simpl. by rewrite !app_nil_r.
  - cbn [foldl]. unfold neighbour_step at 2. cbn [obind].
    rewrite filter_cons. destruct (decide (in_bounds _ _ i j d)) as [Hin|Hout].
    + destruct Hin as (H1 & H2 & H3 & H4).
      rewrite vector_at_in_range by lia. cbn [obind].
      rewrite vector_at_in_range by lia. cbn [obind].
      rewrite memo_push_last by done. rewrite IH by done.
      rewrite fmap_cons. by rewrite <- !app_assoc.
    + by rewrite IH.
Qed.

Lemma visit_tokens (i j : nat) (hashes : list string) (memo : memo_t) :
  (i < rows)%nat → (j < cols)%nat → coord i j ∉ memo.*1 →
  visit show blocks ext (Z.of_nat rows) (Z.of_nat cols) i j (Returns (hashes, memo)) =
  Returns (hashes ++ tokens_at i j, memo ++ [(coord i j, tokens_at i j)]).
Proof using blocks_rows blocks_cols.
  intros Hi Hj Hkey. unfold visit. cbn [obind].
  rewrite memo_set_fresh by done. by rewrite neighbour_fold.
Qed.

(** The two loops over a list of pairwise different coordinates. *)
Lemma visit_all (cs : list (nat * nat)) :
  ∀ (hashes : list string) (memo : memo_t),
  NoDup cs → (∀ c, c ∈ cs → (c.1 < rows)%nat ∧ (c.2 < cols)%nat) →
  (∀ c, c ∈ cs → coord c.1 c.2 ∉ memo.*1) →
  foldl (λ acc c, visit show blocks ext (Z.of_nat rows) (Z.of_nat cols) c.1 c.2 acc)
        (Returns (hashes, memo)) cs =
  Returns (hashes ++ concat ((λ c, tokens_at c.1 c.2) <$> cs),
           memo ++ ((λ c, (coord c.1 c.2, tokens_at c.1 c.2)) <$> cs)).
Proof using blocks_rows blocks_cols.
  induction cs as [|c cs IH]; intros hashes memo Hnd Hrange Hkeys.
  - simpl. by rewrite !app_nil_r.
  - apply NoDup_cons in Hnd as [Hc Hnd]. cbn [foldl].
    destruct (Hrange c) as [? ?]; [apply list_elem_of_here|].
    rewrite visit_tokens by (done || apply Hkeys, list_elem_of_here).
    rewrite IH; [|done| |].
    + rewrite !fmap_cons. simpl. by rewrite <- !app_assoc.
    + intros c' Hc'. by apply Hrange, list_elem_of_further.
    + intros c' Hc'. rewrite fmap_app, elem_of_app. intros [Hin|Hin].
      * apply (Hkeys c'); [by apply list_elem_of_further|done].
      * simpl in Hin. apply list_elem_of_singleton in Hin.
        apply coord_inj in Hin as [H1 H2]. apply Hc.
        by replace c with c' by (destruct c, c'; simpl in *; congruence).
Qed.

Lemma foldl_nested {S I J : Type} (f : I → J → S → S) (l1 : list I) (l2 : list J) (s : S) :
  foldl (λ acc i, foldl (λ acc j, f i j acc) acc l2) s l1 =
  foldl (λ acc p, f p.1 p.2 acc) s (i ← l1; j ← l2; [(i, j)]).
Proof.
  revert s. induction l1 as [|i l1 IH]; intros s; [done|].
  cbn [foldl mbind list_bind]. rewrite foldl_app, <- IH. f_equal.
  clear. revert s. induction l2 as [|j l2 IH]; intros s; [done|].
  simpl. by rewrite IH.
Qed.

Lemma NoDup_pairs (n m : nat) :
  NoDup (i ← seq 0 n; j ← seq 0 m; [(i, j)]).
Proof.
  apply NoDup_bind; [| |apply NoDup_seq].
  - intros i1 i2 [a b] _ _ H1 H2.
    apply list_elem_of_bind in H1 as (j1 & H1 & _). apply list_elem_of_singleton in H1.
    apply list_elem_of_bind in H2 as (j2 & H2 & _). apply list_elem_of_singleton in H2.
    congruence.
  - intros i _. apply NoDup_bind; [| |apply NoDup_seq].
    + intros j1 j2 [a b] _ _ H1%list_elem_of_singleton H2%list_elem_of_singleton. congruence.
    + intros j _. apply NoDup_singleton.
Qed.

(** Reading the memo at the key of a coordinate. *)
Lemma memo_get_entries (cs : list (nat * nat)) (i j : nat) :
  (i, j) ∈ cs →
  memo_get ((λ c, (coord c.1 c.2, tokens_at c.1 c.2)) <$> cs) (coord i j) =
  Some (tokens_at i j).
Proof.
  induction cs as [|[a b] cs IH]; intros Hin; [by apply elem_of_nil in Hin|].
  rewrite fmap_cons. cbn [memo_get fst snd]. case_decide as Hk.
  - apply coord_inj in Hk as [-> ->]. done.
  - apply IH. apply elem_of_cons in Hin as [[= -> ->]|Hin]; done.
Qed.

End WithFeatures.

(** The number of neighbour offsets that land inside an n x n grid. *)
Lemma neighbour_count (n i j : nat) :
  (3 ≤ n)%nat → (i < n)%nat → (j < n)%nat →
  length (filter (in_bounds (Z.of_nat n) (Z.of_nat n) i j) directions) =
  if decide ((i = 0 ∨ i = n - 1) ∧ (j = 0 ∨ j = n - 1))%nat then 3%nat
  else if decide (i = 0 ∨ i = n - 1 ∨ j = 0 ∨ j = n - 1)%nat then 5%nat
  else 8%nat.
Proof.
  intros Hn Hi Hj. unfold directions.
  assert (i = 0 ∨ i = n - 1 ∨ (0 < i ∧ i < n - 1))%nat as Ci by lia.
  assert (j = 0 ∨ j = n - 1 ∨ (0 < j ∧ j < n - 1))%nat as Cj by lia.
  destruct Ci as [Ci|[Ci|Ci]], Cj as [Cj|[Cj|Cj]];
    repeat (rewrite filter_cons;
            destruct (decide (in_bounds _ _ i j _)) as [Hb|Hb];
            unfold in_bounds in Hb; cbn [fst snd] in Hb; (lia || clear Hb));
    rewrite filter_nil; repeat case_decide; simpl; lia.
Qed.

(** C6 as the code has it. On a square feature grid of side n >= 3, hash
    returns, and the memo it returns holds, at the key of every
    coordinate (i, j), as many tokens as neighbour offsets land inside the
    grid: 3 at the four corners, 5 at the other border cells, 8 inside. *)
Theorem hash_token_count {F : Type} (show : F → string)
    (blocks : list (list (list F))) (n : nat) (ext multy : bool) :
  (3 ≤ n)%nat → length blocks = n → Forall (λ row, length row = n) blocks →
  ∃ hashes memo,
    hash show blocks ext multy = Returns (hashes, memo) ∧
    ∀ i j, (i < n)%nat → (j < n)%nat →
      ∃ toks,
        memo_get memo (coord i j) = Some toks ∧
        length toks =
          length (filter (in_bounds (Z.of_nat n) (Z.of_nat n) i j) directions) ∧
        length toks =
          if decide ((i = 0 ∨ i = n - 1) ∧ (j = 0 ∨ j = n - 1))%nat then 3%nat
          else if decide (i = 0 ∨ i = n - 1 ∨ j = 0 ∨ j = n - 1)%nat then 5%nat
          else 8%nat.
Proof.
  intros Hn Hrows Hcols. unfold hash. cbn zeta.
  destruct blocks as [|row0 blocks']; [simpl in Hrows; lia|].
  cbn [lookup list_lookup].
  assert (Hrow0 : length row0 = n) by (by apply Forall_cons in Hcols as [? _]).
  rewrite Hrow0, Hrows. set (B := row0 :: blocks') in *.
  rewrite (foldl_nested (λ i j acc, visit show B ext (Z.of_nat n) (Z.of_nat n) i j acc)).
  rewrite (visit_all show B ext n n Hrows Hcols); [|apply NoDup_pairs| |].
  - eexists _, _. split; [done|]. intros i j Hi Hj.
    exists (tokens_at show B ext n n i j). split_and!.
    + cbn [app]. apply memo_get_entries.
      apply list_elem_of_bind. exists i. split; [|apply elem_of_seq; lia].
      apply list_elem_of_bind. exists j. split; [|apply elem_of_seq; lia].
      apply list_elem_of_here.
    + unfold tokens_at. by rewrite length_fmap.
    + unfold tokens_at. rewrite length_fmap. by apply neighbour_count.
  - intros [a b] Hc. apply list_elem_of_bind in Hc as (i & Hc & Hi%elem_of_seq).
    apply list_elem_of_bind in Hc as (j & Hc%list_elem_of_singleton & Hj%elem_of_seq).
    injection Hc as -> ->. simpl. lia.
  - intros c _ Hin. by apply elem_of_nil in Hin.
Qed.

(** A 3 x 3 feature grid whose vectors are all [0; 0]. *)
Definition grid3 : list (list (list Z)) := replicate 3 (replicate 3 [0; 0]).

(** On that grid the corner (0, 0) gets three tokens, not four, and the
    border cell (0, 1) five, not six. *)
Lemma hash_corner_three_tokens :
  ∃ hashes memo,
    hash pretty grid3 true false = Returns (hashes, memo) ∧
    memo_get memo (coord 0 0) = Some ["0_0_0_0_2_4"; "0_0_0_0_2_1"; "0_0_0_0_2_1"] ∧
    length <$> memo_get memo (coord 0 0) = Some 3%nat ∧
    length <$> memo_get memo (coord 0 1) = Some 5%nat.
Proof. eexists _, _. split; [vm_compute; reflexivity|]. split_and!; reflexivity. Qed.

Lemma hash_token_count_grid3 :
  (3 ≤ 3)%nat ∧ length grid3 = 3%nat ∧ Forall (λ row, length row = 3%nat) grid3 ∧
  ∃ hashes memo,
    hash pretty grid3 true false = Returns (hashes, memo) ∧
    ∃ toks, memo_get memo (coord 1 1) = Some toks ∧ length toks = 8%nat.
Proof.
  assert (H1 : (3 ≤ 3)%nat) by lia.
  assert (H2 : length grid3 = 3%nat) by reflexivity.
  assert (H3 : Forall (λ row, length row = 3%nat) grid3) by (repeat constructor).
  split_and!; [exact H1|exact H2|exact H3|].
  destruct (hash_token_count pretty grid3 3 true false H1 H2 H3) as (hashes & memo & E & H).
  exists hashes, memo. split; [exact E|].
  destruct (H 1%nat 1%nat) as (toks & Hget & _ & Hlen); [lia|lia|].
  exists toks. split; [exact Hget|exact Hlen].
Defined.

(** *** The memo and the list of all tokens *)

Lemma length_bind_pairs (l1 l2 : list nat) :
  length (i ← l1; j ← l2; [(i, j)]) = (length l1 * length l2)%nat.
Proof.
  induction l1 as [|i l1 IH]; [done|].
  cbn [mbind list_bind length]. rewrite length_app.
  change (length (l1 ≫= λ i, l2 ≫= λ j, [(i, j)]) = length l1 * length l2)%nat in IH.
  rewrite IH.
  assert (Hin : length (l2 ≫= λ j, [(i, j)]) = length l2).
  { clear. induction l2 as [|j l2 IH2]; [done|].
    cbn [mbind list_bind length app].
    change (length (l2 ≫= λ j, [(i, j)]) = length l2) in IH2. by rewrite IH2. }
  rewrite Hin. lia.
Qed.

Lemma length_pairs (n m : nat) :
  length (i ← seq 0 n; j ← seq 0 m; [(i, j)]) = (n * m)%nat.
Proof. by rewrite length_bind_pairs, !length_seq. Qed.

Lemma elem_of_pairs (n m : nat) (c : nat * nat) :
  c ∈ (i ← seq 0 n; j ← seq 0 m; [(i, j)]) ↔ (c.1 < n)%nat ∧ (c.2 < m)%nat.
Proof.
  rewrite list_elem_of_bind. split.
  - intros (i & Hc & Hi%elem_of_seq).
    apply list_elem_of_bind in Hc as (j & Hc%list_elem_of_singleton & Hj%elem_of_seq).
    subst c. simpl. lia.
  - intros [Hi Hj]. exists c.1. split; [|apply elem_of_seq; lia].
    apply list_elem_of_bind. exists c.2. split; [|apply elem_of_seq; lia].
    destruct c. apply list_elem_of_here.
Qed.

(** hash on a grid of rows of the same length. *)
Lemma hash_rectangular {F : Type} (show : F → string)
    (blocks : list (list (list F))) (rows cols : nat) (ext multy : bool) :
  length blocks = rows → Forall (λ row, length row = cols) blocks →
  hash show blocks ext multy =
  Returns (concat ((λ c, tokens_at show blocks ext rows cols c.1 c.2)
                   <$> (i ← seq 0 rows; j ← seq 0 cols; [(i, j)])),
           (λ c, (coord c.1 c.2, tokens_at show blocks ext rows cols c.1 c.2))
           <$> (i ← seq 0 rows; j ← seq 0 cols; [(i, j)])).
Proof.
  intros Hrows Hcols. unfold hash. cbn zeta.
  destruct blocks as [|row0 blocks'].
  { simpl in Hrows. subst rows. done. }
  cbn [lookup list_lookup].
  assert (Hrow0 : length row0 = cols) by (by apply Forall_cons in Hcols as [? _]).
  rewrite Hrow0, Hrows. set (B := row0 :: blocks') in *.
  rewrite (foldl_nested (λ i j acc, visit show B ext (Z.of_nat rows) (Z.of_nat cols) i j acc)).
  rewrite (visit_all show B ext rows cols Hrows Hcols); [done|apply NoDup_pairs| |].
  - intros c Hc. by apply elem_of_pairs.
  - intros c _ Hin. by apply elem_of_nil in Hin.
Qed.

(** On every grid of rows of the same length, the grid with no row
    included, hash returns. The memo it returns has one key per
    coordinate, ["(i,j)"], in row-major order, and [hashes] is the token
    lists of the memo put end to end in that order. *)
Theorem hash_memo_keys {F : Type} (show : F → string)
    (blocks : list (list (list F))) (rows cols : nat) (ext multy : bool) :
  length blocks = rows → Forall (λ row, length row = cols) blocks →
  ∃ hashes memo,
    hash show blocks ext multy = Returns (hashes, memo) ∧
    memo.*1 = (λ c, coord c.1 c.2) <$> (i ← seq 0 rows; j ← seq 0 cols; [(i, j)]) ∧
    NoDup (memo.*1) ∧
    length memo = (rows * cols)%nat ∧
    hashes = concat (memo.*2).
Proof.
  intros Hrows Hcols. rewrite (hash_rectangular show blocks rows cols) by done.
  eexists _, _. split; [done|]. split_and!.
  - by rewrite <- list_fmap_compose.
  - rewrite <- list_fmap_compose. apply NoDup_fmap_2_strong; [|apply NoDup_pairs].
    intros [a b] [a' b'] _ _ E. simpl in E. by apply coord_inj in E as [-> ->].
  - by rewrite length_fmap, length_pairs.
  - by rewrite <- list_fmap_compose.
Qed.

Lemma hash_memo_keys_grid3 :
  ∃ hashes memo,
    hash pretty grid3 true false = Returns (hashes, memo) ∧
    length memo = 9%nat ∧ hashes = concat (memo.*2).
Proof.
  destruct (hash_memo_keys pretty grid3 3 3 true false) as (hashes & memo & E & _ & _ & L & H);
    [reflexivity|by repeat constructor|].
  exists hashes, memo. split_and!; [exact E|exact L|exact H].
Defined.

(** *** The number of tokens *)

(** The offsets -1, 0, 1 that keep the index [i] inside [0, n). *)
Definition inside (n i : nat) : nat :=
  (1 + (if decide (0 < i) then 1 else 0) + (if decide (i + 1 < n) then 1 else 0))%nat.

Lemma neighbour_count_inside (rows cols i j : nat) :
  (i < rows)%nat → (j < cols)%nat →
  (length (filter (in_bounds (Z.of_nat rows) (Z.of_nat cols) i j) directions) + 1 =
   inside rows i * inside cols j)%nat.
Proof.
  intros Hi Hj. unfold directions, inside.
  destruct (decide (0 < i)%nat), (decide (i + 1 < rows)%nat),
           (decide (0 < j)%nat), (decide (j + 1 < cols)%nat);
    repeat (rewrite filter_cons;
            destruct (decide (in_bounds _ _ i j _)) as [Hb|Hb];
            unfold in_bounds in Hb; cbn [fst snd] in Hb; (lia || clear Hb));
    rewrite filter_nil; simpl; lia.
Qed.

Lemma sum_inside (n : nat) : (1 ≤ n)%nat → (sum_list (inside n <$> seq 0 n) = 3 * n - 2)%nat.
Proof.
  intros Hn.
  assert (H : ∀ k, (k ≤ n)%nat →
            (sum_list (inside n <$> seq 0 k) = k + (k - 1) + Nat.min k (n - 1))%nat).
  { induction k as [|k IH]; intros Hk; [done|].
    rewrite seq_S, fmap_app, sum_list_with_app, IH by lia.
    cbn [fmap list_fmap sum_list_with]. unfold inside, Datatypes.id.
    repeat case_decide; lia. }
  rewrite H by lia. lia.
Qed.

Lemma sum_pairs (a b : nat → nat) (l1 l2 : list nat) :
  (sum_list ((λ c, a c.1 * b c.2) <$> (i ← l1; j ← l2; [(i, j)])) =
   sum_list (a <$> l1) * sum_list (b <$> l2))%nat.
Proof.
  induction l1 as [|i l1 IH]; [done|].
  cbn [mbind list_bind]. rewrite fmap_app, sum_list_with_app.
  change (sum_list ((λ c, a c.1 * b c.2) <$> (l1 ≫= λ i, l2 ≫= λ j, [(i, j)])) =
          sum_list (a <$> l1) * sum_list (b <$> l2))%nat in IH.
  rewrite IH, fmap_cons. cbn [sum_list_with].
  assert (Hin : (sum_list ((λ c, a c.1 * b c.2) <$> (l2 ≫= λ j, [(i, j)])) =
                 a i * sum_list (b <$> l2))%nat).
  { clear. induction l2 as [|j l2 IH2]; [simpl; lia|].
    cbn [mbind list_bind]. rewrite fmap_app, sum_list_with_app.
    change (sum_list ((λ c, a c.1 * b c.2) <$> (l2 ≫= λ j, [(i, j)])) =
            a i * sum_list (b <$> l2))%nat in IH2.
    rewrite IH2, !fmap_cons. cbn [fmap list_fmap sum_list_with fst snd].
    unfold Datatypes.id. lia. }
  rewrite Hin. unfold Datatypes.id. lia.
Qed.

Lemma length_concat_plus {A C : Type} (f : C → list A) (g : C → nat) (cs : list C) :
  (∀ c, c ∈ cs → length (f c) + 1 = g c)%nat →
  (length (concat (f <$> cs)) + length cs = sum_list (g <$> cs))%nat.
Proof.
  induction cs as [|c cs IH]; intros H; [done|].
  rewrite !fmap_cons. cbn [concat length sum_list_with].
  rewrite length_app.
  specialize (IH (λ c' Hc', H c' (list_elem_of_further _ _ _ Hc'))).
  pose proof (H c (list_elem_of_here _ _)) as Hc.
  unfold Datatypes.id at 1. lia.
Qed.

(** The number of tokens of a whole grid. On a grid of [rows] >= 1 rows
    of [cols] >= 1 cells hash emits
    (3 rows - 2) (3 cols - 2) - rows cols tokens: one for every ordered
    pair of cells that touch by a side or a corner. On a square grid of
    side n that is 8 n^2 - 12 n + 4. *)
Theorem hash_token_total {F : Type} (show : F → string)
    (blocks : list (list (list F))) (rows cols : nat) (ext multy : bool) :
  (1 ≤ rows)%nat → (1 ≤ cols)%nat →
  length blocks = rows → Forall (λ row, length row = cols) blocks →
  ∃ hashes memo,
    hash show blocks ext multy = Returns (hashes, memo) ∧
    (length hashes + rows * cols = (3 * rows - 2) * (3 * cols - 2))%nat ∧
    (rows = cols → length hashes + 12 * rows = 8 * rows * rows + 4)%nat.
Proof.
  intros Hr Hc Hrows Hcols. rewrite (hash_rectangular show blocks rows cols) by done.
  eexists _, _. split; [done|].
  assert (Htotal : (length (concat ((λ c, tokens_at show blocks ext rows cols c.1 c.2)
                              <$> (i ← seq 0 rows; j ← seq 0 cols; [(i, j)]))) +
                    rows * cols = (3 * rows - 2) * (3 * cols - 2))%nat).
  { rewrite <- (length_pairs rows cols) at 1.
    rewrite (length_concat_plus _ (λ c, inside rows c.1 * inside cols c.2)%nat).
    - by rewrite sum_pairs, !sum_inside.
    - intros c [Hi Hj]%elem_of_pairs. unfold tokens_at. rewrite length_fmap.
      by apply neighbour_count_inside. }
  split; [exact Htotal|]. intros <-. nia.
Qed.

Lemma hash_token_total_grid3 :
  ∃ hashes memo,
    hash pretty grid3 true false = Returns (hashes, memo) ∧
    (length hashes + 3 * 3 = (3 * 3 - 2) * (3 * 3 - 2))%nat.
Proof.
  destruct (hash_token_total pretty grid3 3 3 true false) as (hashes & memo & E & H & _);
    [lia|lia|reflexivity|by repeat constructor|].
  exists hashes, memo. split; [exact E|exact H].
Defined.

End HashFacts.

(* ================================================================= *)
(** ** SpectralFeatureExtractor *)

Module SpectralFacts.
Import Spectral.
Local Open Scope nat_scope.

(** Once a loop has thrown, it stays thrown. *)
Lemma foldl_throws {A I : Type} (step : outcome A → I → outcome A) (e : error) (l : list I) :
  (∀ i, step (Throws e) i = Throws e) → foldl step (Throws e) l = Throws e.
Proof. intros H. induction l as [|i l IH]; [done|]. simpl. by rewrite H. Qed.

Lemma split_parity_defined {A : Type} (l : list (option A)) :
  Forall is_Some l →
  Forall is_Some (split_parity l).1 ∧ Forall is_Some (split_parity l).2.
Proof.
  induction l as [l IH] using (induction_ltof1 _ (@length (option A))). unfold ltof in IH.
  destruct l as [|x [|y l]]; intros H.
  - done.
  - split; [done|constructor].
  - apply Forall_cons in H as [Hx H]. apply Forall_cons in H as [Hy H].
    cbn [split_parity]. destruct (IH l) as [H1 H2]; [simpl; lia|done|].
    destruct (split_parity l). split; by constructor.
Qed.

Lemma read_Some {A : Type} (a : list (option A)) (k : nat) :
  k < length a → Forall is_Some a → ∃ x, read a k = Returns x ∧ a !! k = Some (Some x).
Proof.
  intros Hk Hall. destruct (lookup_lt_is_Some_2 a k Hk) as [o Ho].
  destruct (Forall_lookup_1 _ _ _ _ Hall Ho) as [x ->].
  exists x. unfold read. by rewrite Ho.
Qed.

Lemma read_None {A : Type} (a : list (option A)) (k : nat) :
  length a ≤ k → read a k = Throws undefined_read.
Proof. intros Hk. unfold read. by rewrite lookup_ge_None_2. Qed.

(** Every failure of the combining loop is the same TypeError, and what
    it returns has the length it was asked for. *)
Lemma combine_step_outcome n e o acc k :
  (∃ out, acc = Returns out ∧ length out = n) ∨ acc = Throws undefined_read →
  (∃ out, combine_step n e o acc k = Returns out ∧ length out = n) ∨
  combine_step n e o acc k = Throws undefined_read.
Proof.
  intros [(out & -> & Hlen)| ->]; [|by right]. unfold combine_step. cbn [obind].
  unfold read. destruct (o !! k) as [[x|]|]; cbn [obind]; try by right.
  destruct (e !! k) as [[y|]|]; cbn [obind]; try by right.
  left. eexists. split; [done|]. destruct (Nat.even n); by rewrite ?length_insert.
Qed.

Lemma combine_steps_outcome n e o acc l :
  (∃ out, acc = Returns out ∧ length out = n) ∨ acc = Throws undefined_read →
  (∃ out, foldl (combine_step n e o) acc l = Returns out ∧ length out = n) ∨
  foldl (combine_step n e o) acc l = Throws undefined_read.
Proof.
  revert acc. induction l as [|k l IH]; intros acc H; [done|].
  simpl. apply IH. by apply combine_step_outcome.
Qed.

Lemma combine_outcome n e o :
  (∃ out, combine n e o = Returns out ∧ length out = n) ∨
  combine n e o = Throws undefined_read.
Proof.
  unfold combine. apply combine_steps_outcome. left.
  eexists. split; [done|]. by rewrite length_replicate.
Qed.

(** The loop reaches an index beyond the odd half: it throws. *)
Lemma combine_short n e o :
  length o < (n + 1) / 2 → combine n e o = Throws undefined_read.
Proof.
  intros Hlen. unfold combine.
  assert (Hsplit : seq 0 ((n + 1) / 2) =
                   seq 0 (length o) ++ length o :: seq (S (length o)) ((n + 1) / 2 - S (length o))).
  { replace ((n + 1) / 2) with (length o + S ((n + 1) / 2 - S (length o))) at 1 by lia.
    by rewrite seq_app. }
  rewrite Hsplit, foldl_app. cbn [foldl].
  assert (Hthrow : ∀ acc,
            (∃ out, acc = Returns out ∧ length out = n) ∨ acc = Throws undefined_read →
            combine_step n e o acc (length o) = Throws undefined_read).
  { intros acc [(out & -> & _)| ->]; [|done]. unfold combine_step. cbn [obind].
    by rewrite read_None. }
  rewrite Hthrow.
  - by apply foldl_throws.
  - apply combine_steps_outcome. left. eexists. split; [done|]. by rewrite length_replicate.
Qed.

(** On two fully defined halves of the same length the combining loop
    returns a fully defined array of twice that length. *)
Lemma combine_defined (h : nat) (e o : list (option Complex)) :
  length e = h → length o = h → Forall is_Some e → Forall is_Some o →
  ∃ out, combine (2 * h) e o = Returns out ∧ length out = 2 * h ∧ Forall is_Some out.
Proof.
  intros He Ho Hde Hdo. unfold combine.
  replace ((2 * h + 1) / 2) with h.
  2:{ replace (2 * h + 1) with (1 + h * 2) by lia. rewrite Nat.div_add by lia. done. }
  pose (Inv := λ (j : nat) (acc : outcome (list (option Complex))),
          ∃ out, acc = Returns out ∧ length out = 2 * h ∧
                 ∀ i, i < j → is_Some (mjoin (out !! i)) ∧ is_Some (mjoin (out !! (i + h)))).
  assert (HI : Inv h (foldl (combine_step (2 * h) e o)
                        (Returns (replicate (2 * h) None)) (seq 0 h))).
  { apply foldl_seq_inv.
    - exists (replicate (2 * h) None). split_and!; [done|by rewrite length_replicate|lia].
    - intros j acc Hj (out & -> & Hlen & Hdef). unfold combine_step. cbn [obind].
      destruct (read_Some o j) as (x & -> & _); [lia|done|]. cbn [obind].
      destruct (read_Some e j) as (y & -> & _); [lia|done|]. cbn [obind].
      assert (Nat.even (2 * h) = true) as -> by (rewrite Nat.even_mul; done).
      replace (2 * h / 2) with h by (rewrite Nat.mul_comm, Nat.div_mul; lia).
      eexists. split; [done|]. split; [by rewrite !length_insert|].
      intros i Hi. destruct (decide (i = j)) as [->|Hne].
      + split.
        * rewrite list_lookup_insert_ne by lia.
          rewrite list_lookup_insert_eq by lia. by eexists.
        * rewrite list_lookup_insert_eq by (rewrite length_insert; lia). by eexists.
      + rewrite !list_lookup_insert_ne by lia. apply Hdef. lia. }
  destruct HI as (out & -> & Hlen & Hdef). exists out. split_and!; [done|done|].
  apply Forall_lookup. intros i x Hx.
  assert (i < 2 * h) by (rewrite <- Hlen; by eapply lookup_lt_Some).
  destruct (decide (i < h)) as [Hi|Hi].
  - destruct (Hdef i Hi) as [H1 _]. rewrite Hx in H1. done.
  - destruct (Hdef (i - h)) as [_ H2]; [lia|].
    replace (i - h + h) with i in H2 by lia. rewrite Hx in H2. done.
Qed.

(** fft1D on a fully defined input whose length is a power of two. *)
Lemma fft1D_pow2 (k : nat) : ∀ input : list (option Complex),
  length input = 2 ^ k → Forall is_Some input →
  ∃ out, fft1D input = Returns out ∧ length out = 2 ^ k ∧ Forall is_Some out.
Proof.
  induction k as [|k IH]; intros input Hlen Hdef.
  - destruct input as [|x [|y l]]; try done.
    apply Forall_cons in Hdef as [[c ->] _]. simp fft1D. simpl.
    eexists. split_and!; [done|done|]. repeat constructor. by eexists.
  - assert (2 ≤ length input).
    { rewrite Hlen. change (2 ^ S k) with (2 * 2 ^ k). pose proof (Nat.pow_nonzero 2 k). lia. }
    destruct input as [|x [|y l]]; [simpl in *; lia..|].
    simp fft1D.
    destruct (split_parity_length (x :: y :: l)) as [L1 L2].
    destruct (split_parity_defined (x :: y :: l) Hdef) as [D1 D2].
    rewrite Hlen in L1, L2. change (2 ^ S k) with (2 * 2 ^ k) in L1, L2.
    replace ((2 * 2 ^ k + 1) / 2) with (2 ^ k) in L1.
    2:{ replace (2 * 2 ^ k + 1) with (1 + 2 ^ k * 2) by lia. by rewrite Nat.div_add by lia. }
    replace (2 * 2 ^ k / 2) with (2 ^ k) in L2 by (rewrite Nat.mul_comm, Nat.div_mul; lia).
    destruct (IH _ L1 D1) as (e & -> & Le & De).
    destruct (IH _ L2 D2) as (o & -> & Lo & Do).
    cbn [obind]. rewrite Hlen. change (2 ^ S k) with (2 * 2 ^ k).
    by apply combine_defined.
Qed.

(** On a non-empty input fft1D returns an array of the same length or
    throws the TypeError of a read beyond an array. *)
Lemma fft1D_outcome (input : list (option Complex)) :
  1 ≤ length input →
  (∃ out, fft1D input = Returns out ∧ length out = length input) ∨
  fft1D input = Throws undefined_read.
Proof.
  induction input as [input IH] using (induction_ltof1 _ (@length (option Complex))).
  unfold ltof in IH. intros Hlen.
  destruct input as [|x [|y l]]; [simpl in Hlen; lia| |].
  - simp fft1D. destruct x as [c|]; [left|right]; [|done]. eexists. by split.
  - simp fft1D. destruct (split_parity_length (x :: y :: l)) as [L1 L2].
    cbn [length] in L1, L2.
    assert (1 ≤ (S (S (length l)) + 1) / 2 < S (S (length l))).
    { replace (S (S (length l)) + 1) with (length l + 1 + 1 * 2) by lia.
      rewrite Nat.div_add by lia. split; [lia|].
      pose proof (Nat.Div0.div_lt_upper_bound (length l + 1) 2 (length l + 1)). lia. }
    assert (1 ≤ S (S (length l)) / 2 < S (S (length l))).
    { split; [|apply Nat.div_lt; lia].
      replace (S (S (length l))) with (length l + 1 * 2) by lia.
      rewrite Nat.div_add by lia. lia. }
    destruct (IH (split_parity (x :: y :: l)).1) as [(e & -> & _)| ->];
      [cbn [length]; lia|lia| |by right].
    destruct (IH (split_parity (x :: y :: l)).2) as [(o & -> & _)| ->];
      [cbn [length]; lia|lia| |by right].
    cbn [obind]. apply combine_outcome.
Qed.

(** fft1D on an input whose length is not a power of two. *)
Lemma fft1D_not_pow2 (input : list (option Complex)) :
  1 ≤ length input → (∀ k, length input ≠ 2 ^ k) →
  fft1D input = Throws undefined_read.
Proof.
  induction input as [input IH] using (induction_ltof1 _ (@length (option Complex))).
  unfold ltof in IH. intros Hlen Hnp.
  destruct input as [|x [|y l]]; [simpl in Hlen; lia|by destruct (Hnp 0)|].
  simp fft1D. destruct (split_parity_length (x :: y :: l)) as [L1 L2].
  set (n := length (x :: y :: l)) in *.
  assert (2 ≤ n) by (unfold n; simpl; lia).
  destruct (Nat.Even_or_Odd n) as [[h Hh]|[h Hh]].
  - (* an even length: the even half has a length that is no power of two *)
    assert (Hhalf : (n + 1) / 2 = h).
    { rewrite Hh. replace (2 * h + 1) with (1 + h * 2) by lia.
      by rewrite Nat.div_add by lia. }
    rewrite IH; [done|unfold n in *; lia|lia|].
    intros k Hk. apply (Hnp (S k)). fold n. rewrite Hh.
    change (2 ^ S k) with (2 * 2 ^ k). lia.
  - (* an odd length: the loop reads one element more than the odd half has *)
    assert (Hup : (n + 1) / 2 = h + 1).
    { rewrite Hh. replace (2 * h + 1 + 1) with (0 + (h + 1) * 2) by lia.
      by rewrite Nat.div_add by lia. }
    assert (Hdown : n / 2 = h).
    { rewrite Hh. replace (2 * h + 1) with (1 + h * 2) by lia.
      by rewrite Nat.div_add by lia. }
    destruct (fft1D_outcome (split_parity (x :: y :: l)).1) as [(e & -> & _)| ->];
      [lia| |done].
    destruct (fft1D_outcome (split_parity (x :: y :: l)).2) as [(o & -> & Lo)| ->];
      [lia| |done].
    cbn [obind]. apply combine_short. fold n. lia.
Qed.

Lemma fmap_const {A B : Type} (f : A → B) (c : B) (l : list A) :
  (∀ x, f x = c) → f <$> l = replicate (length l) c.
Proof. intros H. induction l as [|x l IH]; [done|]. by rewrite fmap_cons, H, IH. Qed.

(** No distance is below a quarter of the side and above the side over
    2.5 at once. *)
Lemma mid_selector_false (blockSize : nat) (dist : R) :
  0 < blockSize →
  bool_decide (dist < INR blockSize / 4)%R && bool_decide (INR blockSize / 2.5 < dist)%R = false.
Proof.
  intros Hpos. apply lt_0_INR in Hpos.
  do 2 case_bool_decide; try done. exfalso. lra.
Qed.

Lemma join_cons_ne (x : string) (l : list string) : x ≠ "" → join (x :: l) ≠ "".
Proof. destruct x as [|c x]; [done|]. destruct l; done. Qed.

Lemma mask_string_ne (b : nat) (v : bool) :
  mask_string (replicate (S b) (replicate (S b) v)) ≠ "".
Proof.
  unfold mask_string. cbn [replicate fmap list_fmap].
  apply join_cons_ne, join_cons_ne. by destruct v.
Qed.

(** C7. For a block side of at least 1 the mid-band mask holds false in
    every cell; with a band count above 2 the third element of the
    feature vector is NaN, whatever the energies of the block. *)
Theorem midfreq_never_true (blockSize : nat) :
  0 < blockSize →
  midfreq blockSize = replicate blockSize (replicate blockSize false) ∧
  ∀ (binsize : R) (ids : Z) (lowEnergy highEnergy : jsnum),
    (2 < ids)%Z →
    feature_vector binsize ids blockSize lowEnergy highEnergy =
    [quantize highEnergy binsize; quantize lowEnergy binsize; NaN].
Proof.
  intros Hpos.
  assert (Hmid : midfreq blockSize = replicate blockSize (replicate blockSize false)).
  { unfold midfreq, distFromCenter. cbn zeta. rewrite <- list_fmap_compose.
    rewrite (fmap_const _ (replicate blockSize false)).
    - by rewrite length_seq.
    - intros y. unfold compose. rewrite <- list_fmap_compose.
      rewrite (fmap_const _ false); [by rewrite length_seq|].
      intros x. unfold compose. by apply mid_selector_false. }
  split; [done|]. intros binsize ids lowEnergy highEnergy Hids.
  unfold feature_vector. rewrite decide_True by done. rewrite Hmid.
  destruct blockSize as [|b]; [lia|].
  unfold mask_number. rewrite decide_False by apply mask_string_ne. done.
Qed.

Lemma midfreq_never_true_at_8 :
  (0 < 8)%nat ∧
  midfreq 8 = replicate 8 (replicate 8 false) ∧
  feature_vector 2 3 8 (Num 0) (Num 0) = [quantize (Num 0) 2; quantize (Num 0) 2; NaN].
Proof.
  assert (H : (0 < 8)%nat) by lia.
  destruct (midfreq_never_true 8 H) as [H1 H2].
  split; [exact H|]. split; [exact H1|]. apply H2. lia.
Defined.

(** *** I_mat on blocks whose sides are powers of two *)

Lemma assign_end {A : Type} (hole : A) (a : list A) (x : A) :
  assign hole a (length a) x = a ++ [x].
Proof.
  unfold assign. rewrite decide_False by lia.
  by replace (length a - length a) with 0 by lia.
Qed.

Lemma assign_inside {A : Type} (hole : A) (a : list A) (k : nat) (x : A) :
  k < length a → assign hole a k x = <[k := x]> a.
Proof. intros Hk. unfold assign. by rewrite decide_True. Qed.

(** The transform of the rows. *)
Lemma fft2D_rows (matrix : list (list R)) (b : nat) :
  Forall (λ row, length row = 2 ^ b) matrix →
  ∃ rt, foldl (λ acc i,
                 obind acc (λ rowTransformed,
                 let row : list (option Complex) :=
                   fmap (M := list) (λ val : R, Some (mkComplex val 0))
                        (default [] (matrix !! i)) in
                 obind (fft1D row) (λ t, Returns (rowTransformed ++ [t]))))
              (Returns []) (seq 0 (length matrix)) = Returns rt ∧
        length rt = length matrix ∧
        Forall (λ r, length r = 2 ^ b ∧ Forall is_Some r) rt.
Proof.
  intros Hrows.
  apply (foldl_seq_inv (λ i acc, ∃ rt, acc = Returns rt ∧ length rt = i ∧
                          Forall (λ r, length r = 2 ^ b ∧ Forall is_Some r) rt)).
  - exists []. by split_and!.
  - intros i acc Hi (rt & -> & Hlen & Hall). cbn [obind]. cbn zeta.
    destruct (lookup_lt_is_Some_2 matrix i Hi) as [row Hrow]. rewrite Hrow. simpl.
    assert (length row = 2 ^ b) by (by eapply Forall_lookup_1 in Hrow; [|exact Hrows]).
    destruct (fft1D_pow2 b ((λ val : R, Some (mkComplex val 0)) <$> row))
      as (t & -> & Lt & Dt).
    + by rewrite length_fmap.
    + apply Forall_fmap, Forall_forall. intros x _. by eexists.
    + cbn [obind]. eexists. split; [done|]. split.
      * rewrite length_app. simpl. lia.
      * apply Forall_app. split; [done|]. by repeat constructor.
Qed.

Lemma assign_lookup {A : Type} (hole : A) (a : list A) (k k' : nat) (x : A) :
  k ≤ length a →
  assign hole a k x !! k' = if decide (k' = k) then Some x else a !! k'.
Proof.
  intros Hk. destruct (decide (k < length a)) as [Hlt|Hge].
  - rewrite assign_inside by done. case_decide as Hkk.
    + subst. by rewrite list_lookup_insert_eq.
    + by rewrite list_lookup_insert_ne.
  - assert (k = length a) as -> by lia. rewrite assign_end. case_decide as Hkk.
    + subst. by rewrite list_lookup_middle.
    + destruct (decide (k' < length a)).
      * by rewrite lookup_app_l.
      * rewrite !lookup_ge_None_2; [done|lia|rewrite length_app; simpl; lia].
Qed.

Lemma assign_length {A : Type} (hole : A) (a : list A) (k : nat) (x : A) :
  k ≤ length a → length (assign hole a k x) = Nat.max (length a) (S k).
Proof.
  intros Hk. destruct (decide (k < length a)) as [Hlt|Hge].
  - rewrite assign_inside by done. rewrite length_insert. lia.
  - assert (k = length a) as -> by lia. rewrite assign_end, length_app. simpl. lia.
Qed.

(** One column of the second pass: the transformed column is written at
    index [j] of every row of the result. *)
Lemma fft2D_write_column (rows j : nat) (colTransformed : list (option Complex))
    (result : list (list (option Complex))) :
  length colTransformed = rows → Forall is_Some colTransformed →
  length result ≤ rows →
  (∀ i, i < rows → length (default [] (result !! i)) = j ∧
                   Forall is_Some (default [] (result !! i))) →
  let result' :=
    foldl (λ result i,
             let r := default [] (result !! i) in
             assign [] result i (assign None r j (mjoin (colTransformed !! i))))
          result (seq 0 rows) in
  length result' = rows ∧
  ∀ i, i < rows → length (default [] (result' !! i)) = S j ∧
                  Forall is_Some (default [] (result' !! i)).
Proof.
  intros Hlen Hdef Hres Hrows. cbn zeta.
  pose (Inv := λ (i : nat) (res : list (list (option Complex))),
          i ≤ length res ≤ rows ∧
          (∀ i', i' < i → length (default [] (res !! i')) = S j ∧
                          Forall is_Some (default [] (res !! i'))) ∧
          (∀ i', i ≤ i' < rows → length (default [] (res !! i')) = j ∧
                                 Forall is_Some (default [] (res !! i')))).
  assert (HI : Inv rows (foldl (λ result i,
             let r := default [] (result !! i) in
             assign [] result i (assign None r j (mjoin (colTransformed !! i))))
          result (seq 0 rows))).
  { apply foldl_seq_inv.
    - split_and!; [lia|lia|intros; lia|]. intros i' Hi'. apply Hrows. lia.
    - intros i res Hi ([Hl1 Hl2] & Hdone & Htodo). cbn zeta.
      destruct (Htodo i) as [Lr Dr]; [lia|].
      destruct (read_Some colTransformed i) as (c & _ & ->); [lia|done|].
      cbn [mjoin option_join]. simpl.
      rewrite <- Lr at 1. rewrite assign_end.
      split_and!.
      + rewrite assign_length by done. lia.
      + rewrite assign_length by done. lia.
      + intros i' Hi'. rewrite assign_lookup by done. case_decide as Hii.
        * simpl. rewrite length_app. simpl. split; [lia|].
          apply Forall_app. split; [done|]. by repeat constructor.
        * apply Hdone. lia.
      + intros i' Hi'. rewrite assign_lookup by done. rewrite decide_False by lia.
        apply Htodo. lia. }
  destruct HI as ([Hl1 Hl2] & Hdone & _).
  split; [apply Nat.le_antisymm; [exact Hl2|exact Hl1]|exact Hdone].
Qed.

(** The transform of the columns. *)
Lemma fft2D_columns (rowTransformed : list (list (option Complex))) (a b : nat) :
  length rowTransformed = 2 ^ a →
  Forall (λ r, length r = 2 ^ b ∧ Forall is_Some r) rowTransformed →
  ∃ res,
    foldl (λ acc j,
             obind acc (λ result,
             let col : list (option Complex) :=
               fmap (M := list) (λ i : nat, mjoin (default [] (rowTransformed !! i) !! j))
                    (seq 0 (2 ^ a)) in
             obind (fft1D col) (λ colTransformed,
             Returns
               (foldl (λ result i,
                         let r := default [] (result !! i) in
                         assign [] result i
                           (assign None r j (mjoin (colTransformed !! i))))
                      result (seq 0 (2 ^ a))))))
          (Returns []) (seq 0 (2 ^ b)) = Returns res ∧
    length res = 2 ^ a ∧
    Forall (λ r, length r = 2 ^ b ∧ Forall is_Some r) res.
Proof.
  intros Hlen Hall.
  pose (Inv := λ (j : nat) (acc : outcome (list (list (option Complex)))),
          ∃ res, acc = Returns res ∧ length res ≤ 2 ^ a ∧
                 (0 < j → length res = 2 ^ a) ∧
                 ∀ i, i < 2 ^ a → length (default [] (res !! i)) = j ∧
                                  Forall is_Some (default [] (res !! i))).
  match goal with |- ∃ res, ?loop = _ ∧ _ => assert (HI : Inv (2 ^ b) loop) end.
  { apply foldl_seq_inv.
    - exists []. split_and!; [done|simpl; lia|lia|]. intros i _. by rewrite lookup_nil.
    - intros j acc Hj (res & -> & Hle & _ & Hrows). cbn [obind]. cbn zeta.
      destruct (fft1D_pow2 a
                  ((λ i : nat, mjoin (default [] (rowTransformed !! i) !! j)) <$> seq 0 (2 ^ a)))
        as (colT & -> & Lc & Dc).
      + by rewrite length_fmap, length_seq.
      + apply Forall_fmap, Forall_forall. intros i Hi%elem_of_seq. simpl.
        destruct (lookup_lt_is_Some_2 rowTransformed i) as [r Hr]; [lia|].
        rewrite Hr. simpl.
        destruct (Forall_lookup_1 _ _ _ _ Hall Hr) as [Lr Dr].
        destruct (read_Some r j) as (c & _ & ->); [lia|done|]. by eexists.
      + cbn [obind].
        destruct (fft2D_write_column (2 ^ a) j colT res Lc Dc Hle Hrows) as [L' R'].
        eexists. split; [done|].
        split_and!; [exact (Nat.eq_le_incl _ _ L')|intros _; exact L'|exact R']. }
  destruct HI as (res & -> & _ & Hfull & Hrows).
  assert (0 < 2 ^ b) by (pose proof (Nat.pow_nonzero 2 b); lia).
  exists res. split_and!; [done|by apply Hfull|].
  apply Forall_lookup. intros i r Hr.
  assert (i < 2 ^ a) by (rewrite <- Hfull by done; by eapply lookup_lt_Some).
  specialize (Hrows i). rewrite Hr in Hrows. by apply Hrows.
Qed.

(** fft2D on a matrix of [2 ^ a] rows of length [2 ^ b]. *)
Lemma fft2D_pow2 (matrix : list (list R)) (a b : nat) :
  length matrix = 2 ^ a → Forall (λ row, length row = 2 ^ b) matrix →
  ∃ res, fft2D matrix = Returns res ∧ length res = 2 ^ a ∧
         Forall (λ r, length r = 2 ^ b ∧ Forall is_Some r) res.
Proof.
  intros Hlen Hrows. unfold fft2D.
  assert (0 < 2 ^ a) by (pose proof (Nat.pow_nonzero 2 a); lia).
  destruct (lookup_lt_is_Some_2 matrix 0) as [row0 H0]; [lia|]. rewrite H0.
  destruct (fft2D_rows matrix b Hrows) as (rt & Hrt & Lrt & Drt).
  cbv zeta in Hrt |- *. rewrite Hrt. cbn [obind].
  rewrite (Forall_lookup_1 _ _ _ _ Hrows H0).
  rewrite Hlen in *. by apply fft2D_columns.
Qed.

(** The index map of the shift reaches every index. *)
Lemma shift_index_onto (n a : nat) :
  a < n → ∃ i, i < n ∧ (i + n / 2) mod n = a.
Proof.
  intros Ha. assert (n / 2 < n) by (apply Nat.div_lt; lia).
  destruct (decide (n / 2 ≤ a)) as [Hle|Hgt].
  - exists (a - n / 2). split; [lia|].
    replace (a - n / 2 + n / 2) with a by lia. by apply Nat.mod_small.
  - exists (a + n - n / 2). split; [lia|].
    replace (a + n - n / 2 + n / 2) with (a + 1 * n) by lia.
    rewrite Nat.Div0.mod_add. by apply Nat.mod_small.
Qed.

Section Shift.
Context (rows cols : nat).

Definition shape (m : list (list (option Complex))) : Prop :=
  length m = rows ∧ Forall (λ r, length r = cols) m.

Definition defined_at (m : list (list (option Complex))) (a b : nat) : Prop :=
  ∃ c, m !! a ≫= (.!! b) = Some (Some c).

Lemma shift_write (m : list (list (option Complex))) (a b : nat) (c : Complex) :
  shape m → a < rows → b < cols →
  shape (alter (<[b := Some c]>) a m) ∧
  defined_at (alter (<[b := Some c]>) a m) a b ∧
  ∀ a' b', defined_at m a' b' → defined_at (alter (<[b := Some c]>) a m) a' b'.
Proof.
  intros [Hlen Hrows] Ha Hb.
  destruct (lookup_lt_is_Some_2 m a) as [r Hr]; [lia|].
  assert (length r = cols) by (by eapply Forall_lookup_1 in Hr; [|exact Hrows]).
  split_and!.
  - split; [by rewrite length_alter|].
    apply Forall_lookup. intros i x Hx. destruct (decide (i = a)) as [->|Hne].
    + rewrite list_lookup_alter_eq, Hr in Hx. simpl in Hx. injection Hx as <-.
      by rewrite length_insert.
    + rewrite list_lookup_alter_ne in Hx by done.
      by eapply Forall_lookup_1 in Hx; [|exact Hrows].
  - exists c. rewrite list_lookup_alter_eq, Hr. simpl.
    by rewrite list_lookup_insert_eq by lia.
  - intros a' b' [c' Hc']. destruct (decide (a' = a)) as [->|Hne].
    + rewrite Hr in Hc'. simpl in Hc'.
      destruct (decide (b' = b)) as [->|Hnb].
      * exists c. rewrite list_lookup_alter_eq, Hr. simpl.
        by rewrite list_lookup_insert_eq by lia.
      * exists c'. rewrite list_lookup_alter_eq, Hr. simpl.
        by rewrite list_lookup_insert_ne.
    + exists c'. by rewrite list_lookup_alter_ne.
Qed.

(** fftShift on a fully defined matrix of [rows] rows of length [cols]. *)
Lemma fftShift_defined (matrix : list (list (option Complex))) :
  0 < rows → length matrix = rows →
  Forall (λ r, length r = cols ∧ Forall is_Some r) matrix →
  ∃ res, fftShift matrix = Returns res ∧ length res = rows ∧
         Forall (λ r, length r = cols ∧ Forall is_Some r) res.
Proof.
  intros Hpos Hlen Hall. unfold fftShift.
  destruct (lookup_lt_is_Some_2 matrix 0) as [row0 H0]; [lia|]. rewrite H0.
  destruct (Forall_lookup_1 _ _ _ _ Hall H0) as [L0 _]. cbv zeta. rewrite L0, Hlen.
  eexists. split; [done|].
  set (target := λ i j : nat, ((i + rows / 2) mod rows, (j + cols / 2) mod cols)).
  pose (Inv := λ (i : nat) (m : list (list (option Complex))),
          shape m ∧ ∀ i' j', i' < i → j' < cols →
                             defined_at m (target i' j').1 (target i' j').2).
  match goal with |- length ?loop = _ ∧ _ => assert (HI : Inv rows loop) end.
  { apply foldl_seq_inv.
    - split; [|intros; lia]. split; [by rewrite length_replicate|].
      apply Forall_replicate. by rewrite length_replicate.
    - intros i m Hi [Hshape Hdone].
      pose (Inv' := λ (j : nat) (m' : list (list (option Complex))),
              shape m' ∧ (∀ a b, defined_at m a b → defined_at m' a b) ∧
              ∀ j', j' < j → defined_at m' (target i j').1 (target i j').2).
      match goal with |- Inv (S i) ?loop => assert (HI' : Inv' cols loop) end.
      { apply foldl_seq_inv.
        - split_and!; [done|done|intros; lia].
        - intros j m' Hj (Hshape' & Hkeep & Hrow).
          destruct (lookup_lt_is_Some_2 matrix i) as [r Hr]; [lia|].
          destruct (Forall_lookup_1 _ _ _ _ Hall Hr) as [Lr Dr].
          destruct (read_Some r j) as (c & _ & Hc); [lia|done|].
          rewrite Hr. simpl. rewrite Hc. simpl.
          destruct (shift_write m' ((i + rows / 2) mod rows) ((j + cols / 2) mod cols) c)
            as (S1 & S2 & S3); [done|apply Nat.mod_upper_bound; lia..|].
          split_and!; [done|by intros; apply S3, Hkeep|].
          intros j' Hj'. destruct (decide (j' = j)) as [->|Hne]; [done|].
          apply S3, Hrow. lia. }
      destruct HI' as (Hshape' & Hkeep & Hrow). split; [done|].
      intros i' j' Hi' Hj'. destruct (decide (i' = i)) as [->|Hne].
      + by apply Hrow.
      + apply Hkeep, Hdone; [lia|done]. }
  destruct HI as [[Hl Hr] Hdef]. split; [exact Hl|].
  apply Forall_lookup. intros a r Ha.
  assert (a < rows) by (rewrite <- Hl; by eapply lookup_lt_Some).
  assert (Lr : length r = cols) by (by eapply Forall_lookup_1 in Ha; [|exact Hr]).
  split; [done|]. apply Forall_lookup. intros b x Hx.
  assert (b < cols) by (rewrite <- Lr; by eapply lookup_lt_Some).
  destruct (shift_index_onto rows a) as (i & Hi & Ea); [done|].
  destruct (shift_index_onto cols b) as (j & Hj & Eb); [done|].
  destruct (Hdef i j Hi Hj) as [c Hc]. unfold target in Hc. cbn [fst snd] in Hc.
  rewrite Ea, Eb in Hc. unfold Inv in Hc.
  rewrite Ha in Hc. simpl in Hc. rewrite Hx in Hc. injection Hc as ->. by eexists.
Qed.

End Shift.

Lemma mapM_returns {A B : Type} (f : A → outcome B) (l : list A) :
  Forall (λ x, ∃ y, f x = Returns y) l →
  ∃ out, mapM f l = Returns out ∧ length out = length l.
Proof.
  induction 1 as [|x l [y Hy] _ (out & IH & Hlen)]; [by exists []|].
  exists (y :: out). simpl. rewrite Hy, IH. simpl. by rewrite Hlen.
Qed.

(** The magnitudes of a fully defined spectrum. *)
Lemma magnitudes_returns (m : list (list (option Complex))) :
  Forall (Forall is_Some) m →
  ∃ out, mapM (mapM magnitude_of) m = Returns out ∧ length out = length m.
Proof.
  intros Hall. apply mapM_returns. eapply Forall_impl; [exact Hall|].
  intros row Hrow. simpl in Hrow.
  destruct (mapM_returns magnitude_of row) as (out & Hout & _); [|by exists out].
  eapply Forall_impl; [exact Hrow|]. intros x [c ->]. by eexists.
Qed.

(** The energy loops read rows [0 .. blockSize - 1] of the spectrum. *)
Lemma energies_returns (blockSize : nat) (logMagnitude : list (list R)) :
  blockSize ≤ length logMagnitude →
  ∃ e, energies blockSize logMagnitude = Returns e.
Proof.
  intros Hlen. unfold energies.
  apply (foldl_seq_inv (λ (_ : nat) (acc : outcome (jsnum * jsnum)), ∃ e, acc = Returns e)).
  - by eexists.
  - intros y acc Hy Hacc.
    apply (foldl_seq_inv (λ (_ : nat) (acc : outcome (jsnum * jsnum)), ∃ e, acc = Returns e));
      [done|].
    intros x acc' Hx [[lowEnergy highEnergy] ->]. cbn [obind].
    assert (Hlog : ∃ v, log_at logMagnitude y x = Returns v).
    { unfold log_at. destruct (lookup_lt_is_Some_2 logMagnitude y) as [row ->]; [lia|].
      by eexists. }
    destruct Hlog as [v ->].
    destruct (mask_at (lowFreqMask blockSize) y x); [by eexists|].
    destruct (mask_at (highFreqMask blockSize) y x); by eexists.
Qed.

(** The features of a block of [2 ^ a] rows of length [2 ^ b], for a
    block side of at most the number of rows. *)
Lemma block_features_pow2 (mat : list (list R)) (binsize : R) (ids : Z)
    (blockSize a b : nat) :
  length mat = 2 ^ a → Forall (λ row, length row = 2 ^ b) mat → blockSize ≤ 2 ^ a →
  ∃ lowEnergy highEnergy,
    block_features mat binsize ids blockSize =
    Returns (feature_vector binsize ids blockSize lowEnergy highEnergy).
Proof.
  intros Hlen Hrows Hside. unfold block_features. cbv zeta.
  match goal with |- context [fft2D ?m] =>
    destruct (fft2D_pow2 m a b) as (n_I & -> & L1 & D1) end.
  { by rewrite length_fmap. }
  { apply Forall_fmap. eapply Forall_impl; [exact Hrows|].
    intros row Hrow. simpl. by rewrite length_fmap. }
  cbn [obind].
  assert (0 < 2 ^ a) by (pose proof (Nat.pow_nonzero 2 a); lia).
  destruct (fftShift_defined (2 ^ a) (2 ^ b) n_I) as (sh & -> & L2 & D2); [done..|].
  cbn [obind].
  destruct (magnitudes_returns sh) as (mag & -> & L3).
  { eapply Forall_impl; [exact D2|]. by intros r [_ ?]. }
  cbn [obind].
  match goal with |- context [energies blockSize ?m] =>
    destruct (energies_returns blockSize m) as [[lowEnergy highEnergy] ->] end.
  { rewrite length_fmap. lia. }
  cbn [obind]. by exists lowEnergy, highEnergy.
Qed.

(** I_mat on a square number of blocks, each of [2 ^ a] rows of length
    [2 ^ b] with [blockSize ≤ 2 ^ a]: it returns, whatever [blockSize]. *)
Lemma I_mat_pow2 (matrices : list (list (list R))) (binsize : R) (ids : Z)
    (blockSize : nat) :
  Nat.sqrt (length matrices) * Nat.sqrt (length matrices) = length matrices →
  Forall (λ mat, ∃ a b, length mat = 2 ^ a ∧ Forall (λ row, length row = 2 ^ b) mat ∧
                        blockSize ≤ 2 ^ a) matrices →
  ∃ results, I_mat matrices binsize ids blockSize = Returns results ∧
             length results = Nat.sqrt (length matrices).
Proof.
  intros Hsq Hall. unfold I_mat. cbv zeta. rewrite decide_False by lia.
  apply (foldl_seq_inv (λ (_ : nat) (acc : outcome (list (list (option (list jsnum))))),
           ∃ results, acc = Returns results ∧
                      length results = Nat.sqrt (length matrices))).
  - eexists. split; [done|]. by rewrite length_replicate.
  - intros idx acc Hidx (results & -> & Hlen). cbn [obind].
    destruct (lookup_lt_is_Some_2 matrices idx Hidx) as [mat Hmat]. rewrite Hmat. simpl.
    destruct (Forall_lookup_1 _ _ _ _ Hall Hmat) as (a & b & L & Rw & Hs).
    destruct (block_features_pow2 mat binsize ids blockSize a b L Rw Hs) as (lo & hi & ->).
    cbn [obind]. eexists. split; [done|]. by rewrite length_alter.
Qed.

(** A first row whose length is not a power of two: the transform of the
    rows throws at once. *)
Lemma fft2D_row_not_pow2 (row0 : list R) (matrix : list (list R)) :
  1 ≤ length row0 → (∀ k, length row0 ≠ 2 ^ k) →
  fft2D (row0 :: matrix) = Throws undefined_read.
Proof.
  intros Hlen Hnp. unfold fft2D. cbn [lookup list_lookup length seq foldl obind default].
  rewrite fft1D_not_pow2; [|by rewrite length_fmap..].
  cbn [obind]. rewrite foldl_throws; done.
Qed.

Lemma block_features_not_pow2 (row0 : list R) (mat : list (list R))
    (binsize : R) (ids : Z) (blockSize : nat) :
  1 ≤ length row0 → (∀ k, length row0 ≠ 2 ^ k) →
  block_features (row0 :: mat) binsize ids blockSize = Throws undefined_read.
Proof.
  intros Hlen Hnp. unfold block_features. cbn zeta. rewrite fmap_cons.
  rewrite fft2D_row_not_pow2; [done|by rewrite length_fmap..].
Qed.

Lemma I_mat_not_pow2 (row0 : list R) (mat : list (list R)) (rest : list (list (list R)))
    (binsize : R) (ids : Z) (blockSize : nat) :
  1 ≤ length row0 → (∀ k, length row0 ≠ 2 ^ k) →
  Nat.sqrt (S (length rest)) * Nat.sqrt (S (length rest)) = S (length rest) →
  I_mat ((row0 :: mat) :: rest) binsize ids blockSize = Throws undefined_read.
Proof.
  intros Hlen Hnp Hsq. unfold I_mat. cbn [length]. cbn zeta.
  rewrite decide_False by lia.
  cbn [seq foldl obind lookup list_lookup default]. unfold Datatypes.id.
  rewrite block_features_not_pow2 by done. cbn [obind].
  by apply foldl_throws.
Qed.

(** A block of four rows of four pixels. *)
Definition block4 : list (list R) := replicate 4 (replicate 4 1%R).

(** *** Where I_mat puts the features of a block *)

Lemma block_features_returns (mat : list (list R)) (binsize : R) (ids : Z)
    (blockSize : nat) (hs : list jsnum) :
  block_features mat binsize ids blockSize = Returns hs →
  ∃ lowEnergy highEnergy, hs = feature_vector binsize ids blockSize lowEnergy highEnergy.
Proof.
  unfold block_features. cbv zeta.
  destruct (fft2D _) as [n_I|]; [|done]. cbn [obind].
  destruct (fftShift n_I) as [sh|]; [|done]. cbn [obind].
  destruct (mapM _ sh) as [mag|]; [|done]. cbn [obind].
  destruct (energies _ _) as [[lo hi]|]; [|done]. cbn [obind].
  intros [= <-]. by exists lo, hi.
Qed.

Lemma feature_vector_length (binsize : R) (ids : Z) (blockSize : nat)
    (lowEnergy highEnergy : jsnum) :
  length (feature_vector binsize ids blockSize lowEnergy highEnergy) =
  if decide (2 < ids)%Z then 3 else 2.
Proof. unfold feature_vector. by case_decide. Qed.

(** [results[row][col] = hs] on a grid of [n] rows of [n] cells. *)
Lemma grid_write_lookup {A : Type} (res : list (list (option A))) (n row col a b : nat)
    (hs : A) :
  length res = n → Forall (λ r, length r = n) res → row < n → col < n →
  alter (<[col := Some hs]>) row res !! a ≫= (.!! b) =
  if decide (a = row ∧ b = col) then Some (Some hs) else res !! a ≫= (.!! b).
Proof.
  intros Hlen Hrows Hrow Hcol.
  destruct (lookup_lt_is_Some_2 res row) as [r Hr]; [lia|].
  assert (length r = n) by (by eapply Forall_lookup_1 in Hr; [|exact Hrows]).
  destruct (decide (a = row)) as [->|Hne].
  - rewrite list_lookup_alter_eq, Hr. simpl.
    destruct (decide (b = col)) as [->|Hnb].
    + rewrite decide_True by done. by rewrite list_lookup_insert_eq by lia.
    + rewrite decide_False by (intros [_ ?]; done). by rewrite list_lookup_insert_ne.
  - rewrite list_lookup_alter_ne by done. by rewrite decide_False by (intros [? _]; done).
Qed.

(** When I_mat returns, the number of blocks is a square n * n, the
    result has n rows, and the cell at row r and column c holds the
    feature vector of block r * n + c: two numbers, or three when ids is
    above 2. No cell is left empty. *)
Theorem I_mat_cells (matrices : list (list (list R))) (binsize : R) (ids : Z)
    (blockSize : nat) (results : list (list (option (list jsnum)))) :
  I_mat matrices binsize ids blockSize = Returns results →
  Nat.sqrt (length matrices) * Nat.sqrt (length matrices) = length matrices ∧
  length results = Nat.sqrt (length matrices) ∧
  ∀ r c, r < Nat.sqrt (length matrices) → c < Nat.sqrt (length matrices) →
    ∃ mat hs,
      matrices !! (r * Nat.sqrt (length matrices) + c) = Some mat ∧
      block_features mat binsize ids blockSize = Returns hs ∧
      length hs = (if decide (2 < ids)%Z then 3 else 2) ∧
      results !! r ≫= (.!! c) = Some (Some hs).
Proof.
  unfold I_mat. cbv zeta. set (n := Nat.sqrt (length matrices)).
  case_decide as Hsq; [done|]. assert (Hn : n * n = length matrices) by lia.
  intros Hret. split; [done|].
  pose (Inv := λ (idx : nat) (acc : outcome (list (list (option (list jsnum))))),
          (∃ e, acc = Throws e) ∨
          ∃ res, acc = Returns res ∧ length res = n ∧ Forall (λ row, length row = n) res ∧
                 ∀ k, k < idx →
                   ∃ mat hs, matrices !! k = Some mat ∧
                             block_features mat binsize ids blockSize = Returns hs ∧
                             res !! (k / n) ≫= (.!! (k mod n)) = Some (Some hs)).
  match type of Hret with ?loop = _ => assert (HI : Inv (length matrices) loop) end.
  { apply foldl_seq_inv.
    - right. eexists. split; [done|]. split_and!.
      + by rewrite length_replicate.
      + apply Forall_replicate. by rewrite length_replicate.
      + intros; lia.
    - intros idx acc Hidx [[e ->]|(res & -> & Hlen & Hrows & Hdone)]; [left; by eexists|].
      cbn [obind].
      destruct (lookup_lt_is_Some_2 matrices idx Hidx) as [mat Hmat]. rewrite Hmat. simpl.
      destruct (block_features mat binsize ids blockSize) as [hs|e] eqn:Hf;
        [|left; by eexists].
      cbn [obind]. right. eexists. split; [done|].
      assert (0 < n) by (destruct n; simpl in *; lia).
      assert (idx / n < n) by (apply Nat.Div0.div_lt_upper_bound; lia).
      assert (idx mod n < n) by (apply Nat.mod_upper_bound; lia).
      split_and!.
      + by rewrite length_alter.
      + apply Forall_lookup. intros i row Hi. destruct (decide (i = idx / n)) as [->|Hne].
        * rewrite list_lookup_alter_eq in Hi.
          destruct (res !! (idx / n)) as [row'|] eqn:Hrow'; [|done]. simpl in Hi.
          injection Hi as <-. rewrite length_insert.
          by eapply Forall_lookup_1 in Hrow'; [|exact Hrows].
        * rewrite list_lookup_alter_ne in Hi by done.
          by eapply Forall_lookup_1 in Hi; [|exact Hrows].
      + intros k Hk. rewrite (grid_write_lookup res n) by done.
        destruct (decide (k = idx)) as [->|Hne].
        * exists mat, hs. split_and!; [done|done|]. by rewrite decide_True.
        * destruct (Hdone k) as (mat' & hs' & K1 & K2 & K3); [lia|].
          exists mat', hs'. split_and!; [done|done|].
          rewrite decide_False; [done|]. intros [Hd Hm]. apply Hne.
          rewrite (Nat.div_mod_eq k n), (Nat.div_mod_eq idx n). by rewrite Hd, Hm. }
  destruct HI as [[e He]|(res & Hres & Hlen & Hrows & Hdone)]; [congruence|].
  assert (res = results) as -> by congruence.
  split; [done|]. intros r c Hr Hc.
  destruct (Hdone (r * n + c)) as (mat & hs & K1 & K2 & K3); [nia|].
  exists mat, hs. split_and!; [done|done| |].
  - destruct (block_features_returns _ _ _ _ _ K2) as (lo & hi & ->).
    apply feature_vector_length.
  - rewrite Nat.div_add_l, Nat.div_small in K3 by lia.
    rewrite Nat.add_0_r in K3.
    replace ((r * n + c) mod n) with c in K3; [done|].
    rewrite Nat.add_comm, Nat.Div0.mod_add. by rewrite Nat.mod_small.
Qed.

Lemma I_mat_cells_block4 :
  ∃ results hs,
    I_mat [block4] 2 2 3 = Returns results ∧
    block_features block4 2 2 3 = Returns hs ∧
    length hs = 2 ∧ results !! 0 ≫= (.!! 0) = Some (Some hs).
Proof.
  destruct (I_mat_pow2 [block4] 2%R 2%Z 3) as (results & E & _); [reflexivity| |].
  { constructor; [|constructor]. exists 2, 2.
    split_and!; [reflexivity|by repeat constructor|simpl; lia]. }
  destruct (I_mat_cells [block4] 2%R 2%Z 3 results E) as (_ & _ & H).
  destruct (H 0 0) as (mat & hs & Hm & Hf & Hl & Hc); [change (0 < 1); lia..|].
  injection Hm as <-. exists results, hs. split_and!; [exact E|exact Hf|exact Hl|exact Hc].
Defined.

(** *** fftShift is a rotation, and its own inverse on even sides *)

Lemma shift_index_value (n h i : nat) :
  i < n → h < n → (i + h) mod n = if decide (i + h < n) then i + h else i + h - n.
Proof.
  intros Hi Hh. case_decide.
  - by apply Nat.mod_small.
  - replace (i + h) with (i + h - n + 1 * n) at 1 by lia.
    rewrite Nat.Div0.mod_add. apply Nat.mod_small. lia.
Qed.

Lemma shift_index_inj (n i i' : nat) :
  i < n → i' < n → (i + n / 2) mod n = (i' + n / 2) mod n → i = i'.
Proof.
  intros Hi Hi'. assert (n / 2 < n) by (apply Nat.div_lt; lia).
  rewrite !shift_index_value by done. repeat case_decide; lia.
Qed.

Lemma shift_index_twice (n i : nat) :
  Nat.Even n → i < n → ((i + n / 2) mod n + n / 2) mod n = i.
Proof.
  intros [k ->] Hi. replace (2 * k / 2) with k by (rewrite Nat.mul_comm, Nat.div_mul; lia).
  rewrite (shift_index_value (2 * k) k i) by lia.
  case_decide; rewrite shift_index_value by lia; case_decide; lia.
Qed.

Section Grids.
Context {A : Type}.

(** [m[row][col] = v] on a grid of [rows] rows of [cols] cells. *)
Lemma grid_set_lookup (m : list (list A)) (rows cols row col a b : nat) (v : A) :
  length m = rows → Forall (λ r, length r = cols) m → row < rows → col < cols →
  alter (<[col := v]>) row m !! a ≫= (.!! b) =
  if decide (a = row ∧ b = col) then Some v else m !! a ≫= (.!! b).
Proof.
  intros Hlen Hrows Hrow Hcol.
  destruct (lookup_lt_is_Some_2 m row) as [r Hr]; [lia|].
  assert (length r = cols) by (by eapply Forall_lookup_1 in Hr; [|exact Hrows]).
  destruct (decide (a = row)) as [->|Hne].
  - rewrite list_lookup_alter_eq, Hr. simpl.
    destruct (decide (b = col)) as [->|Hnb].
    + rewrite decide_True by done. by rewrite list_lookup_insert_eq by lia.
    + rewrite decide_False by (intros [_ ?]; done). by rewrite list_lookup_insert_ne.
  - rewrite list_lookup_alter_ne by done. by rewrite decide_False by (intros [? _]; done).
Qed.

Lemma grid_set_shape (m : list (list A)) (rows cols row col : nat) (v : A) :
  length m = rows → Forall (λ r, length r = cols) m →
  length (alter (<[col := v]>) row m) = rows ∧
  Forall (λ r, length r = cols) (alter (<[col := v]>) row m).
Proof.
  intros Hlen Hrows. split; [by rewrite length_alter|].
  apply Forall_lookup. intros i r Hi. destruct (decide (i = row)) as [->|Hne].
  - rewrite list_lookup_alter_eq in Hi.
    destruct (m !! row) as [r'|] eqn:Hr'; [|done]. simpl in Hi. injection Hi as <-.
    rewrite length_insert. by eapply Forall_lookup_1 in Hr'; [|exact Hrows].
  - rewrite list_lookup_alter_ne in Hi by done.
    by eapply Forall_lookup_1 in Hi; [|exact Hrows].
Qed.

(** Two grids of the same shape with the same cells are the same. *)
Lemma grid_ext (m1 m2 : list (list A)) (rows cols : nat) :
  length m1 = rows → Forall (λ r, length r = cols) m1 →
  length m2 = rows → Forall (λ r, length r = cols) m2 →
  (∀ a b, a < rows → b < cols → m1 !! a ≫= (.!! b) = m2 !! a ≫= (.!! b)) →
  m1 = m2.
Proof.
  intros L1 R1 L2 R2 Hcells. apply list_eq_same_length with rows; [done..|].
  intros a r1 r2 Ha H1 H2.
  apply list_eq_same_length with cols.
  - by eapply Forall_lookup_1 in H2; [|exact R2].
  - by eapply Forall_lookup_1 in H1; [|exact R1].
  - intros b x y Hb Hx Hy. specialize (Hcells a b Ha Hb).
    rewrite H1, H2 in Hcells. simpl in Hcells. congruence.
Qed.

End Grids.

(** The content of the shifted matrix. *)
Lemma fftShift_rotates (matrix : list (list (option Complex))) (rows cols : nat) :
  0 < rows → length matrix = rows → Forall (λ r, length r = cols) matrix →
  ∃ res, fftShift matrix = Returns res ∧
         length res = rows ∧ Forall (λ r, length r = cols) res ∧
         ∀ i j, i < rows → j < cols →
           res !! ((i + rows / 2) mod rows) ≫= (.!! ((j + cols / 2) mod cols)) =
           matrix !! i ≫= (.!! j).
Proof.
  intros Hpos Hlen Hall. unfold fftShift.
  destruct (lookup_lt_is_Some_2 matrix 0) as [row0 H0]; [lia|]. rewrite H0.
  rewrite (Forall_lookup_1 _ _ _ _ Hall H0). cbv zeta. rewrite Hlen.
  eexists. split; [done|].
  pose (Inv := λ (i : nat) (m : list (list (option Complex))),
          (length m = rows ∧ Forall (λ r, length r = cols) m) ∧
          ∀ i' j', i' < i → j' < cols →
            m !! ((i' + rows / 2) mod rows) ≫= (.!! ((j' + cols / 2) mod cols)) =
            matrix !! i' ≫= (.!! j')).
  match goal with |- length ?loop = _ ∧ _ => assert (HI : Inv rows loop) end.
  { apply foldl_seq_inv.
    - split; [|intros; lia]. split; [by rewrite length_replicate|].
      apply Forall_replicate. by rewrite length_replicate.
    - intros i m Hi [Hshape Hdone].
      pose (Inv' := λ (j : nat) (m' : list (list (option Complex))),
              (length m' = rows ∧ Forall (λ r, length r = cols) m') ∧
              (∀ i' j', i' < i → j' < cols →
                 m' !! ((i' + rows / 2) mod rows) ≫= (.!! ((j' + cols / 2) mod cols)) =
                 matrix !! i' ≫= (.!! j')) ∧
              ∀ j', j' < j →
                m' !! ((i + rows / 2) mod rows) ≫= (.!! ((j' + cols / 2) mod cols)) =
                matrix !! i ≫= (.!! j')).
      match goal with |- Inv (S i) ?loop => assert (HI' : Inv' cols loop) end.
      { apply foldl_seq_inv.
        - split; [done|]. split; [done|intros; lia].
        - intros j m' Hj ([L' R'] & Hold & Hrow).
          destruct (lookup_lt_is_Some_2 matrix i) as [r Hr]; [lia|].
          assert (Lr : length r = cols) by (by eapply Forall_lookup_1 in Hr; [|exact Hall]).
          destruct (lookup_lt_is_Some_2 r j) as [x Hx]; [lia|].
          rewrite Hr. simpl. rewrite Hx. simpl.
          assert ((i + rows / 2) mod rows < rows) by (apply Nat.mod_upper_bound; lia).
          assert ((j + cols / 2) mod cols < cols) by (apply Nat.mod_upper_bound; lia).
          split; [by apply grid_set_shape|]. split.
          + intros i' j' Hi' Hj'. rewrite (grid_set_lookup m' rows cols) by done.
            rewrite decide_False; [by apply Hold|].
            intros [E _]. apply shift_index_inj in E; lia.
          + intros j' Hj'. rewrite (grid_set_lookup m' rows cols) by done.
            destruct (decide (j' = j)) as [->|Hne].
            * rewrite decide_True by done. by rewrite Hr.
            * rewrite decide_False; [apply Hrow; lia|].
              intros [_ E]. apply shift_index_inj in E; lia. }
      destruct HI' as (Hshape' & Hold & Hrow). split; [done|].
      intros i' j' Hi' Hj'. destruct (decide (i' = i)) as [->|Hne].
      + by apply Hrow.
      + apply Hold; [lia|done]. }
  destruct HI as [[Hl Hr] Hcells]. split_and!; [exact Hl|exact Hr|exact Hcells].
Qed.

(** fftShift moves the entry at (i, j) to
    ((i + floor (rows / 2)) mod rows, (j + floor (cols / 2)) mod cols), and
    fills every cell of its result. When the number of rows and the
    number of columns are both even, shifting twice gives the matrix
    back. *)
Theorem fftShift_involution (matrix : list (list (option Complex))) (rows cols : nat) :
  0 < rows → length matrix = rows → Forall (λ r, length r = cols) matrix →
  (∃ res, fftShift matrix = Returns res ∧
          length res = rows ∧ Forall (λ r, length r = cols) res ∧
          ∀ i j, i < rows → j < cols →
            res !! ((i + rows / 2) mod rows) ≫= (.!! ((j + cols / 2) mod cols)) =
            matrix !! i ≫= (.!! j)) ∧
  (Nat.Even rows → Nat.Even cols → obind (fftShift matrix) fftShift = Returns matrix).
Proof.
  intros Hpos Hlen Hall. split; [by apply fftShift_rotates|].
  intros Hr Hc.
  destruct (fftShift_rotates matrix rows cols) as (res & -> & L1 & R1 & C1); [done..|].
  cbn [obind].
  destruct (fftShift_rotates res rows cols) as (res2 & -> & L2 & R2 & C2); [done..|].
  f_equal. apply (grid_ext res2 matrix rows cols); [done..|].
  intros a b Ha Hb.
  assert ((a + rows / 2) mod rows < rows) by (apply Nat.mod_upper_bound; lia).
  assert ((b + cols / 2) mod cols < cols) by (apply Nat.mod_upper_bound; lia).
  rewrite <- (shift_index_twice rows a) at 1 by done.
  rewrite <- (shift_index_twice cols b) at 1 by done.
  rewrite C2 by done. by apply C1.
Qed.

(** A 2 by 2 spectrum. *)
Definition spectrum2 : list (list (option Complex)) :=
  [[Some (mkComplex 1 0); Some (mkComplex 2 0)];
   [Some (mkComplex 3 0); Some (mkComplex 4 0)]].

Lemma fftShift_involution_spectrum2 :
  obind (fftShift spectrum2) fftShift = Returns spectrum2.
Proof.
  destruct (fftShift_involution spectrum2 2 2) as [_ H];
    [lia|reflexivity|by repeat constructor|].
  apply H; by exists 1.
Defined.

(** *** Quantization *)

Lemma Math_round_bounds (y : R) :
  (IZR (Int_part (y + / 2)) - / 2 <= y < IZR (Int_part (y + / 2)) + / 2)%R.
Proof. destruct (base_Int_part (y + / 2)) as [H1 H2]. lra. Qed.

(** [Math.round(e / binsize) * binsize] is a whole multiple of a bin size
    other than 0, and differs from [e] by at most half the bin size. A
    bin size of 0, or an energy that is NaN, gives NaN. *)
Theorem quantize_nearest_multiple (x binsize : R) :
  quantize NaN binsize = NaN ∧
  quantize (Num x) 0 = NaN ∧
  (binsize ≠ 0%R →
   ∃ k : Z, quantize (Num x) binsize = Num (IZR k * binsize) ∧
            (Rabs (IZR k * binsize - x) <= Rabs binsize / 2)%R).
Proof.
  split; [done|]. split; [unfold quantize; by rewrite decide_True|].
  intros Hb. exists (Int_part (x / binsize + / 2)). unfold quantize, Math_round.
  rewrite decide_False by done. split; [done|].
  pose proof (Math_round_bounds (x / binsize)) as [H1 H2].
  set (k := IZR (Int_part (x / binsize + / 2))) in *.
  replace (k * binsize - x)%R with ((k - x / binsize) * binsize)%R by (field; done).
  rewrite Rabs_mult.
  assert (Rabs (k - x / binsize) <= / 2)%R.
  { apply Rabs_le. lra. }
  pose proof (Rabs_pos binsize). nra.
Qed.

(** *** The energies are never negative *)

(** NaN, or a number that is not negative. *)
Definition nonneg (e : jsnum) : Prop :=
  match e with
  | Num x => (0 <= x)%R
  | NaN => True
  end.

Lemma jadd_nonneg (a b : jsnum) : nonneg a → nonneg b → nonneg (jadd a b).
Proof. destruct a, b; simpl; try done. lra. Qed.

Lemma mapM_Forall {A B : Type} (f : A → outcome B) (P : B → Prop) (l : list A)
    (out : list B) :
  (∀ x y, f x = Returns y → P y) → mapM f l = Returns out → Forall P out.
Proof.
  intros Hf. revert out. induction l as [|x l IH]; intros out; simpl.
  - intros [= <-]. constructor.
  - destruct (f x) as [y|] eqn:Hy; [|done]. cbn [obind].
    destruct (mapM f l) as [ys|]; [|done]. cbn [obind]. intros [= <-].
    constructor; [by eapply Hf|by apply IH].
Qed.

Lemma magnitude_nonneg (c : Complex) : (0 <= magnitude c)%R.
Proof. unfold magnitude. apply sqrt_pos. Qed.

Lemma ln_1p_nonneg (v : R) : (0 <= v)%R → (0 <= ln (1 + v))%R.
Proof.
  intros Hv. rewrite <- ln_1. destruct (Req_dec v 0) as [->|Hne].
  - rewrite Rplus_0_r. lra.
  - left. apply ln_increasing; lra.
Qed.

Lemma log_at_nonneg (logMagnitude : list (list R)) (y x : nat) (v : jsnum) :
  Forall (Forall (λ r, (0 <= r)%R)) logMagnitude →
  log_at logMagnitude y x = Returns v → nonneg v.
Proof.
  intros Hall. unfold log_at. destruct (logMagnitude !! y) as [row|] eqn:Hrow; [|done].
  intros [= <-]. destruct (row !! x) as [r|] eqn:Hr; [|done]. simpl.
  eapply Forall_lookup_1 in Hrow; [|exact Hall].
  by eapply Forall_lookup_1 in Hr; [|exact Hrow].
Qed.

Lemma energies_nonneg (blockSize : nat) (logMagnitude : list (list R))
    (lowEnergy highEnergy : jsnum) :
  Forall (Forall (λ r, (0 <= r)%R)) logMagnitude →
  energies blockSize logMagnitude = Returns (lowEnergy, highEnergy) →
  nonneg lowEnergy ∧ nonneg highEnergy.
Proof.
  intros Hall. unfold energies.
  pose (P := λ acc : outcome (jsnum * jsnum),
          ∀ lo hi, acc = Returns (lo, hi) → nonneg lo ∧ nonneg hi).
  intros E. match type of E with ?loop = _ => assert (HI : P loop) end.
  { apply (foldl_seq_inv (λ _, P)).
    - intros lo hi [= <- <-]. simpl. lra.
    - intros y acc Hy Hacc. cbv beta. apply (foldl_seq_inv (λ _, P)); [done|].
      intros x acc' Hx Hacc' lo hi.
      destruct acc' as [[lo' hi']|]; [|done]. cbn [obind].
      destruct (Hacc' lo' hi' eq_refl) as [Hlo Hhi].
      destruct (mask_at (lowFreqMask blockSize) y x).
      + destruct (log_at logMagnitude y x) as [v|] eqn:Hv; [|done]. cbn [obind].
        intros [= <- <-]. split; [|done]. apply jadd_nonneg; [done|].
        by eapply log_at_nonneg.
      + destruct (mask_at (highFreqMask blockSize) y x).
        * destruct (log_at logMagnitude y x) as [v|] eqn:Hv; [|done]. cbn [obind].
          intros [= <- <-]. split; [done|]. apply jadd_nonneg; [done|].
          by eapply log_at_nonneg.
        * by intros [= <- <-]. }
  by apply HI.
Qed.

Lemma quantize_nonneg (e : jsnum) (binsize : R) :
  (0 < binsize)%R → nonneg e → nonneg (quantize e binsize).
Proof.
  intros Hb. destruct e as [x|]; [|done]. simpl. intros Hx.
  unfold quantize. rewrite decide_False by lra. simpl. unfold Math_round.
  assert (0 <= x / binsize)%R.
  { apply Rmult_le_pos; [done|]. left. by apply Rinv_0_lt_compat. }
  pose proof (Math_round_bounds (x / binsize)) as [H1 H2].
  assert (0 <= Int_part (x / binsize + / 2))%Z.
  { apply le_IZR. destruct (Z_le_gt_dec 0 (Int_part (x / binsize + / 2))) as [Hle|Hgt].
    - by apply IZR_le.
    - assert (IZR (Int_part (x / binsize + / 2)) <= -1)%R by (apply IZR_le; lia). lra. }
  apply Rmult_le_pos; [by apply IZR_le|lra].
Qed.

(** With a bin size above 0, the high and the low energy of the feature
    vector of a block are each NaN or a number that is not negative. *)
Theorem block_features_nonneg (mat : list (list R)) (binsize : R) (ids : Z)
    (blockSize : nat) (hs : list jsnum) :
  (0 < binsize)%R →
  block_features mat binsize ids blockSize = Returns hs →
  ∃ high low, hs !! 0 = Some high ∧ hs !! 1 = Some low ∧ nonneg high ∧ nonneg low.
Proof.
  intros Hb. unfold block_features. cbv zeta.
  destruct (fft2D _) as [n_I|]; [|done]. cbn [obind].
  destruct (fftShift n_I) as [sh|]; [|done]. cbn [obind].
  destruct (mapM _ sh) as [mag|] eqn:Hmag; [|done]. cbn [obind].
  destruct (energies _ _) as [[lo hi]|] eqn:He; [|done]. cbn [obind].
  intros [= <-].
  assert (Hpos : Forall (Forall (λ r, (0 <= r)%R)) mag).
  { eapply mapM_Forall; [|exact Hmag]. intros row out Hrow.
    eapply mapM_Forall; [|exact Hrow]. intros [c|] y; [|done].
    intros [= <-]. apply magnitude_nonneg. }
  assert (nonneg lo ∧ nonneg hi) as [Hlo Hhi].
  { eapply energies_nonneg; [|exact He].
    apply Forall_fmap. eapply Forall_impl; [exact Hpos|]. intros row Hrow. simpl.
    apply Forall_fmap. eapply Forall_impl; [exact Hrow|]. intros v Hv. simpl.
    by apply ln_1p_nonneg. }
  exists (quantize hi binsize), (quantize lo binsize).
  unfold feature_vector. split_and!.
  - by case_decide.
  - by case_decide.
  - by apply quantize_nonneg.
  - by apply quantize_nonneg.
Qed.

Lemma block_features_nonneg_block4 :
  ∃ hs high low,
    block_features block4 2 2 3 = Returns hs ∧
    hs !! 0 = Some high ∧ hs !! 1 = Some low ∧ nonneg high ∧ nonneg low.
Proof.
  destruct (block_features_pow2 block4 2 2 3 2 2) as (lo & hi & Hf);
    [done|by repeat constructor|simpl; lia|].
  assert (Hb : (0 < 2)%R) by lra.
  destruct (block_features_nonneg block4 2 2 3 _ Hb Hf) as (high & low & H0 & H1 & H2 & H3).
  exists (feature_vector 2 2 3 lo hi), high, low.
  split_and!; [exact Hf|exact H0|exact H1|exact H2|exact H3].
Defined.

End SpectralFacts.

(* ================================================================= *)
(** ** intToBase62 *)

Module Base62Facts.
Import Base62.

(** The value of a character: its index in the alphabet. *)
Definition digit_value (c : ascii) : Z :=
  match list_find (λ x, x = c) base62Chars with
  | Some (i, _) => Z.of_nat i
  | None => 0
  end.

(** The number a string of digits stands for in base 62. *)
Definition decode (s : list ascii) : Z :=
  foldl (λ acc c, acc * 62 + digit_value c) 0 s.

Lemma digit_table :
  Forall (λ r, ∃ c, base62Chars !! r = Some c ∧ digit_value c = Z.of_nat r) (seq 0 62).
Proof. repeat (constructor; [eexists; split; reflexivity|]). constructor. Qed.

Lemma char_at_digit (r : Z) :
  0 ≤ r < 62 → ∃ c, char_at r = [c] ∧ c ∈ base62Chars ∧ digit_value c = r.
Proof.
  intros Hr.
  assert (Hin : Z.to_nat r ∈ seq 0 62) by (apply elem_of_seq; lia).
  destruct (proj1 (Forall_forall _ _) digit_table _ Hin) as (c & Hc & Hv).
  exists c. unfold char_at. rewrite decide_True by lia. rewrite Hc.
  split_and!; [done|by eapply list_elem_of_lookup_2|lia].
Qed.

Lemma digit_value_range (c : ascii) : 0 ≤ digit_value c < 62.
Proof.
  unfold digit_value. destruct (list_find _ _) as [[i x]|] eqn:E; [|lia].
  apply list_find_Some in E as (Hi%lookup_lt_Some & _). change (length base62Chars) with 62%nat in Hi.
  lia.
Qed.

Lemma decode_snoc (s : list ascii) (c : ascii) :
  decode (s ++ [c]) = decode s * 62 + digit_value c.
Proof. unfold decode. by rewrite foldl_app. Qed.

Lemma decode_app (a b : list ascii) :
  decode (a ++ b) = decode a * 62 ^ Z.of_nat (length b) + decode b.
Proof.
  revert a. induction b as [|c b IH] using rev_ind; intros a.
  - rewrite app_nil_r. change (decode []) with 0. simpl. lia.
  - rewrite app_assoc, !decode_snoc, IH, length_app. cbn [length].
    replace (Z.of_nat (length b + 1)) with (Z.succ (Z.of_nat (length b))) by lia.
    rewrite Z.pow_succ_r by lia. lia.
Qed.

Lemma decode_bound (s : list ascii) : 0 ≤ decode s < 62 ^ Z.of_nat (length s).
Proof.
  induction s as [|c s IH] using rev_ind; [by unfold decode|].
  rewrite decode_snoc, length_app. cbn [length].
  replace (Z.of_nat (length s + 1)) with (Z.succ (Z.of_nat (length s))) by lia.
  rewrite Z.pow_succ_r by lia.
  pose proof (digit_value_range c). lia.
Qed.

Lemma decode_zeros (k : nat) (s : list ascii) :
  decode (replicate k "0"%char ++ s) = decode s.
Proof.
  induction k as [|k IH]; [done|].
  cbn [replicate app]. change ("0"%char :: replicate k "0"%char ++ s)
    with (["0"%char] ++ (replicate k "0"%char ++ s)).
  rewrite decode_app, IH. change (decode ["0"%char]) with 0. lia.
Qed.

Lemma log2_div62 (n : Z) : 0 < n / 62 → Z.log2 (n / 62) < Z.log2 n.
Proof.
  intros Hq. assert (0 < n) by (destruct (decide (0 < n)); [done|];
    assert (n / 62 ≤ 0) by (apply Z.div_le_upper_bound; lia); lia).
  apply Z.log2_lt_pow2; [done|].
  pose proof (Z.log2_spec n ltac:(done)) as [_ Hup].
  rewrite Z.pow_succ_r in Hup by apply Z.log2_nonneg.
  apply Z.div_lt_upper_bound; lia.
Qed.

(** The loop that writes the digits of a number that is not negative. *)
Lemma digits_correct (fuel : nat) : ∀ (n : Z) (acc : list ascii),
  0 ≤ n → (Z.to_nat (Z.log2 n) < fuel)%nat →
  ∃ ds, digits fuel n acc = Some (ds ++ acc) ∧ (1 ≤ length ds)%nat ∧
        Forall (λ c, c ∈ base62Chars) ds ∧ decode ds = n.
Proof.
  induction fuel as [|fuel IH]; intros n acc Hn Hfuel; [lia|].
  cbn [digits]. rewrite Z.rem_mod_nonneg by lia.
  destruct (char_at_digit (n mod 62)) as (c & -> & Hc & Hv); [apply Z.mod_pos_bound; lia|].
  case_decide as Hq.
  - destruct (IH (n / 62) ([c] ++ acc)) as (ds & -> & Hlen & Hall & Hdec); [lia| |].
    { pose proof (log2_div62 n Hq). pose proof (Z.log2_nonneg (n / 62)). lia. }
    exists (ds ++ [c]). split_and!.
    + by rewrite <- app_assoc.
    + rewrite length_app. simpl. lia.
    + apply Forall_app. split; [done|]. by apply Forall_singleton.
    + rewrite decode_app, Hdec. change (decode [c]) with (0 * 62 + digit_value c).
      rewrite Hv. change (62 ^ Z.of_nat (length [c])) with 62.
      pose proof (Z.div_mod n 62). lia.
  - exists [c]. split_and!; [done|simpl; lia|by apply Forall_singleton|].
    change (decode [c]) with (0 * 62 + digit_value c). rewrite Hv.
    assert (n / 62 = 0) by (pose proof (Z.div_pos n 62); lia).
    pose proof (Z.div_mod n 62). lia.
Qed.

Lemma pad_correct (fuel : nat) (len : Z) : ∀ s : list ascii,
  (Z.to_nat (len - Z.of_nat (length s)) ≤ fuel)%nat →
  pad fuel len s = Some (replicate (Z.to_nat (len - Z.of_nat (length s))) "0"%char ++ s).
Proof.
  induction fuel as [|fuel IH]; intros s Hfuel.
  - simpl. case_decide; [lia|]. by replace (Z.to_nat _) with 0%nat by lia.
  - cbn [pad]. case_decide as Hlt.
    + rewrite IH by (cbn [length]; lia). cbn [length]. f_equal.
      replace (Z.to_nat (len - Z.of_nat (length s)))
        with (S (Z.to_nat (len - Z.of_nat (S (length s))))) by lia.
      cbn [replicate]. rewrite (cons_middle "0"%char), app_assoc.
      by rewrite <- replicate_cons_app.
    + by replace (Z.to_nat _) with 0%nat by lia.
Qed.

(** What intToBase62 computes before it cuts: the digits of the number
    behind as many zeros as the length asks for. *)
Lemma intToBase62_padded (number len : Z) :
  0 ≤ number →
  ∃ ds, (1 ≤ length ds)%nat ∧ Forall (λ c, c ∈ base62Chars) ds ∧ decode ds = number ∧
        let p := replicate (Z.to_nat (len - Z.of_nat (length ds))) "0"%char ++ ds in
        intToBase62 number len =
        Some (if decide (len < Z.of_nat (length p)) then slice_from p (- len) else p).
Proof.
  intros Hn. unfold intToBase62.
  destruct (digits_correct (S (Z.to_nat (Z.log2 number))) number []) as (ds & E & H1 & H2 & H3);
    [done|lia|].
  rewrite app_nil_r in E. rewrite E. simpl.
  rewrite pad_correct by lia. simpl. by exists ds.
Qed.

Lemma zero_in_alphabet : "0"%char ∈ base62Chars.
Proof. apply list_elem_of_here. Qed.

(** For a number that is not negative and a length of at least 1,
    intToBase62 returns exactly [len] characters of the alphabet, and
    they are the number modulo 62^len written in base 62; so two numbers
    below 62^len never get the same string. *)
Theorem intToBase62_fixed_length (number len : Z) :
  0 ≤ number → 1 ≤ len →
  ∃ s, intToBase62 number len = Some s ∧
       Z.of_nat (length s) = len ∧
       Forall (λ c, c ∈ base62Chars) s ∧
       decode s = number mod 62 ^ len.
Proof.
  intros Hn Hlen.
  destruct (intToBase62_padded number len Hn) as (ds & H1 & H2 & H3 & E).
  cbv zeta in E. rewrite E. clear E.
  set (k := Z.to_nat (len - Z.of_nat (length ds))).
  set (p := replicate k "0"%char ++ ds).
  assert (Hp : Forall (λ c, c ∈ base62Chars) p).
  { apply Forall_app. split; [|done]. apply Forall_replicate, zero_in_alphabet. }
  assert (Hpl : length p = (k + length ds)%nat) by (unfold p; by rewrite length_app, length_replicate).
  assert (Hpd : decode p = number) by (unfold p; by rewrite decode_zeros).
  eexists. split; [done|]. case_decide as Hcut.
  - unfold slice_from. cbv zeta. rewrite decide_True by lia.
    set (d := Z.to_nat (Z.max (Z.of_nat (length p) + - len) 0)).
    assert (Hd : d = (length p - Z.to_nat len)%nat) by (unfold d; lia).
    split_and!.
    + rewrite length_drop. lia.
    + by apply Forall_drop.
    + rewrite <- Hpd. rewrite <- (take_drop d p) at 2. rewrite decode_app.
      assert (Hdl : Z.of_nat (length (drop d p)) = len) by (rewrite length_drop; lia).
      rewrite Hdl. rewrite Z.add_comm, Z.mod_add by lia.
      rewrite Z.mod_small; [done|]. rewrite <- Hdl. apply decode_bound.
  - assert (Z.of_nat (length p) = len) by (unfold k in Hpl; lia).
    split_and!; [done|done|].
    rewrite Hpd. rewrite Z.mod_small; [done|].
    pose proof (decode_bound p) as Hb. rewrite Hpd in Hb. by replace len with (Z.of_nat (length p)).
Qed.

Lemma intToBase62_fixed_length_12 :
  ∃ s, intToBase62 3843 12 = Some s ∧ Z.of_nat (length s) = 12 ∧
       decode s = 3843 mod 62 ^ 12.
Proof.
  destruct (intToBase62_fixed_length 3843 12) as (s & E & L & _ & D); [lia|lia|].
  exists s. split_and!; [exact E|exact L|exact D].
Defined.

(** A length of 0 does not give the empty string: [slice(-0)] keeps the
    whole string, so the result is the digits of the number, uncut. *)
Theorem intToBase62_length_zero (number : Z) :
  0 ≤ number →
  ∃ s, intToBase62 number 0 = Some s ∧ (1 ≤ length s)%nat ∧
       Forall (λ c, c ∈ base62Chars) s ∧ decode s = number.
Proof.
  intros Hn.
  destruct (intToBase62_padded number 0 Hn) as (ds & H1 & H2 & H3 & E).
  cbv zeta in E. rewrite E. clear E.
  replace (Z.to_nat (0 - Z.of_nat (length ds))) with 0%nat by lia. cbn [replicate app].
  rewrite decide_True by lia. unfold slice_from. cbv zeta.
  rewrite decide_False by lia. rewrite Z.min_l by lia. simpl.
  by exists ds.
Qed.

Lemma intToBase62_length_zero_3843 :
  ∃ s, intToBase62 3843 0 = Some s ∧ (1 ≤ length s)%nat ∧ decode s = 3843.
Proof.
  destruct (intToBase62_length_zero 3843) as (s & E & L & _ & D); [lia|].
  exists s. split_and!; [exact E|exact L|exact D].
Defined.

(** A negative number is not rejected. Its one digit is looked up at a
    negative index, which no string has: the result is the text
    "undefined" behind zeros, cut to the last [len] characters when [len]
    is below 9. A negative multiple of 62 has the remainder -0, which is
    the index 0, and is encoded like 0. *)
Theorem intToBase62_negative (number len : Z) :
  number < 0 → 1 ≤ len →
  (Z.rem number 62 ≠ 0 → 9 ≤ len →
   intToBase62 number len =
   Some (replicate (Z.to_nat (len - 9)) "0"%char ++ String.list_ascii_of_string "undefined")) ∧
  (Z.rem number 62 ≠ 0 → len < 9 →
   intToBase62 number len =
   Some (drop (Z.to_nat (9 - len)) (String.list_ascii_of_string "undefined"))) ∧
  (Z.rem number 62 = 0 → intToBase62 number len = intToBase62 0 len).
Proof.
  intros Hn Hlen.
  assert (Hlog : Z.log2 number = 0) by (apply Z.log2_nonpos; lia).
  assert (Hq : ¬ 0 < number / 62).
  { assert (number / 62 < 0) by (apply Z.div_lt_upper_bound; lia). lia. }
  unfold intToBase62. rewrite Hlog. cbn [Z.to_nat digits]. rewrite decide_False by done.
  split_and!.
  - intros Hrem Hl.
    assert (Z.rem number 62 < 0).
    { pose proof (Z.rem_nonpos number 62). lia. }
    unfold char_at. rewrite decide_False by lia. rewrite app_nil_r. simpl.
    rewrite pad_correct by (simpl; lia). simpl.
    rewrite decide_False; [done|]. rewrite length_app, length_replicate. simpl. lia.
  - intros Hrem Hl.
    assert (Z.rem number 62 < 0).
    { pose proof (Z.rem_nonpos number 62). lia. }
    unfold char_at. rewrite decide_False by lia. rewrite app_nil_r. simpl.
    rewrite pad_correct by (simpl; lia). simpl.
    replace (Z.to_nat (len - Z.of_nat 9)) with 0%nat by lia.
    cbn [replicate app]. rewrite decide_True by (simpl; lia).
    unfold slice_from. cbv zeta. rewrite decide_True by lia. f_equal. f_equal. simpl. lia.
  - intros ->. done.
Qed.

Lemma intToBase62_negative_one :
  intToBase62 (-1) 12 =
  Some (String.list_ascii_of_string "000undefined").
Proof.
  destruct (intToBase62_negative (-1) 12) as (H & _ & _); [lia|lia|].
  apply H; [done|lia].
Defined.

End Base62Facts.

(* ================================================================= *)
(** ** The validation run *)

Module ValidationFacts.
Import Scorer Validation.

(** A loop from [start] in steps of [step] keeps an invariant indexed by
    the number of iterations done. *)
Lemma for_step_offset {S : Type} (Inv : nat → S → Prop) (body : nat → S → option S)
    (fuel bound step start k i : nat) (s : S) :
  (0 < step)%nat → (bound ≤ start + (k + fuel) * step)%nat →
  (∀ j s, (start + j * step < bound)%nat → Inv j s →
          ∃ s', body (start + j * step)%nat s = Some s' ∧ Inv (Datatypes.S j) s') →
  i = (start + k * step)%nat → Inv k s →
  ∃ s' m, for_step fuel i bound step body s = Some s' ∧ Inv m s' ∧
          (k ≤ m)%nat ∧ (bound ≤ start + m * step)%nat ∧
          (m = k ∨ start + (m - 1) * step < bound)%nat.
Proof.
  intros Hstep Hfuel Hbody. revert k i s Hfuel.
  induction fuel as [|fuel IH]; intros k i s Hfuel -> Hs.
  - exists s, k. simpl. case_decide; [lia|]. split_and!; auto; lia.
  - cbn [for_step]. case_decide as Hlt.
    + destruct (Hbody k s Hlt Hs) as (s1 & -> & Hs1). simpl.
      destruct (IH (Datatypes.S k) (start + k * step + step)%nat s1)
        as (s' & m & E & Hm & Hle & Hb & Hor); [lia|lia|done|].
      exists s', m. split_and!; [done|done|lia|done|].
      right. destruct Hor as [->|?]; [|done].
      by replace (Datatypes.S k - 1)%nat with k by lia.
    + exists s, k. split_and!; auto; lia.
Qed.

(** The two loops of the run, for any bounds. *)
Lemma run_loops {Num : Type}
    (detect : string → Num → Num → bool → option detection) (ac itm : Num) (ext : bool)
    (f1 b1 f2 s2 b2 : nat) :
  (b1 ≤ 1 + f1 * 3)%nat → (b2 ≤ s2 + f2 * 2)%nat →
  ∃ r m1 m2,
    (r ← for_step f1 1 b1 3 (tb_step detect ac itm ext)
            {| result := 0; tries := 0;
               st := {| tb_detected := 0; tb_missed := 0;
                        nr_detected := 0; nr_missed := 0 |} |};
     r ← for_step f2 s2 b2 2 (nr_step detect ac itm ext) r;
     Some ((JS.of_Z (result r) / JS.of_Z (tries r))%float, st r)) =
    Some ((JS.of_Z 0 / JS.of_Z (tries r))%float, st r) ∧
    (b1 ≤ 1 + m1 * 3)%nat ∧ (m1 = 0 ∨ 1 + (m1 - 1) * 3 < b1)%nat ∧
    (b2 ≤ s2 + m2 * 2)%nat ∧ (m2 = 0 ∨ s2 + (m2 - 1) * 2 < b2)%nat ∧
    result r = 0 ∧ tb_detected (st r) = 0 ∧ nr_detected (st r) = 0 ∧
    tries r = tb_missed (st r) + nr_missed (st r) ∧
    0 ≤ tb_missed (st r) ≤ Z.of_nat m1 ∧ 0 ≤ nr_missed (st r) ≤ Z.of_nat m2 ∧
    ((∀ url, is_Some (detect url ac itm ext)) →
     tb_missed (st r) = Z.of_nat m1 ∧ nr_missed (st r) = Z.of_nat m2).
Proof.
  intros Hf1 Hf2.
  pose (Inv1 := λ (j : nat) (r : run),
          result r = 0 ∧ tb_detected (st r) = 0 ∧ nr_detected (st r) = 0 ∧
          nr_missed (st r) = 0 ∧ tries r = tb_missed (st r) ∧
          0 ≤ tb_missed (st r) ≤ Z.of_nat j ∧
          ((∀ url, is_Some (detect url ac itm ext)) → tb_missed (st r) = Z.of_nat j)).
  destruct (for_step_offset Inv1 (tb_step detect ac itm ext) f1 b1 3 1 0 1
              {| result := 0; tries := 0;
                 st := {| tb_detected := 0; tb_missed := 0;
                          nr_detected := 0; nr_missed := 0 |} |})
    as (r1 & m1 & E1 & I1 & _ & Hle1 & Hor1); [lia|lia| |lia| |].
  { intros j r _ (R1 & R2 & R3 & R4 & R5 & R6 & R7). eexists. split; [done|].
    unfold tb_step. generalize (tb_url (1 + j * 3)). intros url.
    destruct (detect url ac itm ext) as [ana|] eqn:Hd.
    - change (1200 <? to_number ana)%float with false. unfold Inv1.
      cbn [result tries st tb_detected tb_missed nr_detected nr_missed].
      split_and!; try done; try lia.
      intros Hall. specialize (R7 Hall). lia.
    - split_and!; try done; try lia.
      intros Hall. destruct (Hall url) as [? Hs].
      rewrite Hd in Hs. discriminate. }
  { unfold Inv1. cbn [result tries st tb_detected tb_missed nr_detected nr_missed].
    split_and!; try done. }
  rewrite E1. cbn [mbind option_bind].
  destruct I1 as (R1 & R2 & R3 & R4 & R5 & R6 & R7).
  pose (Inv2 := λ (j : nat) (r : run),
          result r = 0 ∧ tb_detected (st r) = 0 ∧ nr_detected (st r) = 0 ∧
          tb_missed (st r) = tb_missed (st r1) ∧
          tries r = tb_missed (st r) + nr_missed (st r) ∧
          0 ≤ nr_missed (st r) ≤ Z.of_nat j ∧
          ((∀ url, is_Some (detect url ac itm ext)) → nr_missed (st r) = Z.of_nat j)).
  destruct (for_step_offset Inv2 (nr_step detect ac itm ext) f2 b2 2 s2 0 s2 r1)
    as (r2 & m2 & E2 & I2 & _ & Hle2 & Hor2); [lia|lia| |lia| |].
  { intros j r _ (Q1 & Q2 & Q3 & Q4 & Q5 & Q6 & Q7). eexists. split; [done|].
    unfold nr_step. generalize (nr_url (s2 + j * 2)). intros url.
    destruct (detect url ac itm ext) as [ana|] eqn:Hd.
    - change (to_number ana <? 1200)%float with false. unfold Inv2.
      cbn [result tries st tb_detected tb_missed nr_detected nr_missed].
      split_and!; try done; try lia.
      intros Hall. specialize (Q7 Hall). lia.
    - split_and!; try done; try lia.
      intros Hall. destruct (Hall url) as [? Hs].
      rewrite Hd in Hs. discriminate. }
  { unfold Inv2. split_and!; try done; try lia. }
  destruct I2 as (Q1 & Q2 & Q3 & Q4 & Q5 & Q6 & Q7).
  exists r2, m1, m2. split; [rewrite E2; cbn [mbind option_bind]; by rewrite Q1|].
  split_and!; try done; try lia.
  intros Hall. specialize (R7 Hall). specialize (Q7 Hall). lia.
Qed.

Lemma iterations_700 (m : nat) :
  (700 ≤ 1 + m * 3)%nat → (m = 0 ∨ 1 + (m - 1) * 3 < 700)%nat → Z.of_nat m = 233.
Proof.
  intros H1%Nat2Z.inj_le H2. assert (H3 : m = 0%nat ∨ 1 + (Z.of_nat m - 1) * 3 < 700).
  { destruct H2 as [->|H2%Nat2Z.inj_lt]; [by left|right].
    destruct m as [|m]; [simpl; lia|].
    rewrite Nat2Z.inj_add, Nat2Z.inj_mul, Nat2Z.inj_sub in H2 by lia.
    change (Z.of_nat 700) with 700 in H2. lia. }
  rewrite Nat2Z.inj_add, Nat2Z.inj_mul in H1. change (Z.of_nat 700) with 700 in H1.
  destruct H3 as [->|H3]; lia.
Qed.

Lemma iterations_1500 (m : nat) :
  (1500 ≤ 800 + m * 2)%nat → (m = 0 ∨ 800 + (m - 1) * 2 < 1500)%nat → Z.of_nat m = 350.
Proof.
  intros H1%Nat2Z.inj_le H2. assert (H3 : m = 0%nat ∨ 800 + (Z.of_nat m - 1) * 2 < 1500).
  { destruct H2 as [->|H2%Nat2Z.inj_lt]; [by left|right].
    destruct m as [|m]; [simpl; lia|].
    rewrite Nat2Z.inj_add, Nat2Z.inj_mul, Nat2Z.inj_sub in H2 by lia.
    change (Z.of_nat 1500) with 1500 in H2. change (Z.of_nat 800) with 800 in H2. lia. }
  rewrite Nat2Z.inj_add, Nat2Z.inj_mul in H1.
  change (Z.of_nat 1500) with 1500 in H1. change (Z.of_nat 800) with 800 in H1.
  destruct H3 as [->|H3]; lia.
Qed.

(** The run never counts a detection. The value compared with 1200 is
    the object detect resolves to, not its score; as a number it is NaN,
    so both [ana > 1200] and [ana < 1200] are false. Whatever detect
    answers, [result] stays 0, every image that was analysed is counted
    as missed, and the accuracy logged is 0 divided by the number of
    images analysed. *)
Theorem test_counts_no_detection {Num : Type}
    (detect : string → Num → Num → bool → option detection) (ac itm : Num) (ext : bool) :
  ∃ n s,
    test detect ac itm ext = Some ((JS.of_Z 0 / JS.of_Z n)%float, s) ∧
    tb_detected s = 0 ∧ nr_detected s = 0 ∧
    n = tb_missed s + nr_missed s ∧
    0 ≤ tb_missed s ≤ 233 ∧ 0 ≤ nr_missed s ≤ 350 ∧
    ((∀ url, is_Some (detect url ac itm ext)) → tb_missed s = 233 ∧ nr_missed s = 350).
Proof.
  destruct (run_loops detect ac itm ext 700 700 1500 800 1500)
    as (r & m1 & m2 & E & A1 & A2 & B1 & B2 & R1 & R2 & R3 & R4 & R5 & R6 & R7).
  { apply Nat.leb_le. vm_compute. reflexivity. }
  { apply Nat.leb_le. vm_compute. reflexivity. }
  pose proof (iterations_700 m1 A1 A2) as M1. pose proof (iterations_1500 m2 B1 B2) as M2.
  clear A1 A2 B1 B2. rewrite M1 in *. rewrite M2 in *.
  exists (tries r), (st r). split; [exact E|].
  clear E. split_and!; try done; try lia.
Qed.

End ValidationFacts.

(* ================================================================= *)
(** ** The noise filter and the training run *)

Module TrainingFacts.
Import Scorer Training HashFacts.

Example split_examples :
  split "_" "" = [""] ∧ split "_" "a_" = ["a"; ""] ∧
  split "_" "2_0_4_0_1" = ["2"; "0"; "4"; "0"; "1"] ∧
  parseInt "  -0.5x" = PInt true 0 ∧ parseInt "+01" = PInt false 1 ∧
  parseInt "NaN" = PNaN ∧ parseInt "" = PNaN ∧
  hasThreeZerosInFirstFour "0_0_4_0_1" = true ∧
  hasThreeZerosInFirstFour "0_0_4" = false.
Proof. by vm_compute. Qed.

Lemma split_free (c : ascii) (a : string) : free_of c a → split c a = [a].
Proof.
  induction a as [|x a IH]; [done|]. intros [Hx Ha]. simpl.
  rewrite decide_False by done. by rewrite IH.
Qed.

Lemma split_app (c : ascii) (a t : string) :
  free_of c a → split c (a +:+ String c t) = a :: split c t.
Proof.
  induction a as [|x a IH]; intros Ha; simpl.
  - by rewrite decide_True.
  - destruct Ha as [Hx Ha]. rewrite decide_False by done. by rewrite IH.
Qed.

Lemma split_sep (c : ascii) (a t : string) :
  free_of c a → split c (a +:+ String c EmptyString +:+ t) = a :: split c t.
Proof. exact (split_app c a t). Qed.

Lemma underscore_no_digit (d : N) : pretty_N_char d ≠ "_"%char.
Proof. unfold pretty_N_char. by repeat case_match. Qed.

Lemma digit_of_char (d : N) : (d < 10)%N → digit_of (pretty_N_char d) = Some d.
Proof.
  intros Hd. assert (d ∈ [0;1;2;3;4;5;6;7;8;9]%N) as Hin.
  { rewrite !elem_of_cons. lia. }
  rewrite !elem_of_cons in Hin. destruct Hin as [->|[->|[->|[->|[->|[->|[->|[->|[->|[->|H]]]]]]]]]];
    [done..|by apply elem_of_nil in H].
Qed.

(** Reading back the digits that [pretty] wrote. *)
Lemma read_digits_go (x : N) : ∀ (s : string) (a : N),
  ∃ k : N, read_digits (pretty_N_go x s) a = read_digits s (a * 10 ^ k + x)%N.
Proof.
  induction (N.lt_wf_0 x) as [x _ IH]. intros s a.
  destruct (decide (x = 0%N)) as [->|Hx].
  - exists 0%N. rewrite pretty_N_go_0, N.pow_0_r. f_equal. lia.
  - rewrite pretty_N_go_step by lia.
    destruct (IH (x / 10)%N) with (s := String (pretty_N_char (x mod 10)) s) (a := a) as [k E].
    { apply N.div_lt; lia. }
    exists (k + 1)%N. rewrite E. cbn [read_digits].
    rewrite digit_of_char by (apply N.mod_lt; lia). f_equal.
    rewrite N.pow_add_r, N.pow_1_r. pose proof (N.div_mod' x 10). nia.
Qed.

Lemma pretty_N_go_first (x : N) : ∀ s : string,
  (0 < x)%N → ∃ a s', (a < 10)%N ∧ pretty_N_go x s = String (pretty_N_char a) s'.
Proof.
  induction (N.lt_wf_0 x) as [x _ IH]. intros s Hx.
  rewrite pretty_N_go_step by lia.
  destruct (decide (x / 10 = 0)%N) as [E|Hq].
  - rewrite E, pretty_N_go_0. exists (x mod 10)%N, s. split; [apply N.mod_lt; lia|done].
  - apply IH; [apply N.div_lt; lia|by apply N.neq_0_lt_0].
Qed.

Lemma pretty_N_first (n : N) :
  ∃ a s', (a < 10)%N ∧ pretty n = String (pretty_N_char a) s'.
Proof.
  unfold pretty, pretty_N. case_decide as Hn.
  - exists 0%N, "". split; [lia|done].
  - apply pretty_N_go_first. lia.
Qed.

Lemma read_digits_pretty (n : N) : read_digits (pretty n) 0 = n.
Proof.
  unfold pretty, pretty_N. case_decide as Hn; [by subst|].
  destruct (read_digits_go n "" 0) as [k ->]. simpl. lia.
Qed.

(** parseInt reads back a natural number written in decimal. *)
Lemma parseInt_pretty (n : N) : parseInt (pretty n) = PInt false n.
Proof.
  destruct (pretty_N_first n) as (a & s' & Ha & E).
  assert (Hd := digit_of_char a Ha).
  pose proof (read_digits_pretty n) as Hr.
  unfold parseInt. rewrite E in *. cbn [trim_start].
  assert (Hw : is_white (pretty_N_char a) = false).
  { unfold digit_of in Hd. cbv zeta in Hd. case_decide as Hc; [|done].
    unfold is_white. apply bool_decide_eq_false. rewrite !elem_of_cons, elem_of_nil. lia. }
  rewrite Hw. cbv zeta.
  assert (Hsign : pretty_N_char a ≠ "-"%char ∧ pretty_N_char a ≠ "+"%char).
  { split; intros Hc; rewrite Hc in Hd; done. }
  destruct Hsign as [H1 H2].
  destruct (pretty_N_char a) as [[] [] [] [] [] [] [] []] eqn:Hc; try done;
    rewrite <- ?Hc in *; rewrite ?Hd; by rewrite ?Hr.
Qed.

Lemma pretty_N_free (c : ascii) (n : N) :
  (∀ d, pretty_N_char d ≠ c) → free_of c (pretty n).
Proof.
  intros Hc. unfold pretty, pretty_N. case_decide.
  - split; [apply (Hc 0%N)|done].
  - by apply pretty_N_go_free.
Qed.

Lemma count_zero (l : list N) :
  length (filter (λ num, is_zero num) ((λ n, PInt false n) <$> l)) =
  length (filter (λ n, n = 0%N) l).
Proof.
  induction l as [|n l IH]; [done|].
  rewrite fmap_cons, !filter_cons. destruct n; simpl; by rewrite IH.
Qed.

Lemma count_one (l : list N) :
  length (filter (λ num, is_one num) ((λ n, PInt false n) <$> l)) =
  length (filter (λ n, n = 1%N) l).
Proof.
  induction l as [|n l IH]; [done|].
  rewrite fmap_cons, !filter_cons. destruct n as [|[]]; simpl; by rewrite IH.
Qed.

(** The noise filter on the tokens of hash. For feature vectors of two
    natural numbers, written in decimal as a template literal writes
    them, a token is excluded exactly when at least three of the four
    feature values it starts with, two of the block and two of the
    neighbour, are 0, or at least three are 1; the quadrant and direction
    codes behind them are not looked at. *)
Theorem hasThreeZeros_token (ext : bool) (a b c d : N) (rel dir : Z) :
  hasThreeZerosInFirstFour (Hash.token pretty ext [a; b] [c; d] rel dir) =
  bool_decide (3 ≤ length (filter (λ n, n = 0%N) [a; b; c; d]))%nat ||
  bool_decide (3 ≤ length (filter (λ n, n = 1%N) [a; b; c; d]))%nat.
Proof.
  assert (Hparts : ∃ rest, split "_" (Hash.token pretty ext [a; b] [c; d] rel dir) =
                           pretty a :: pretty b :: pretty c :: pretty d :: rest).
  { unfold Hash.token, Hash.field. cbn [lookup list_lookup].
    destruct ext.
    - exists (split "_" (pretty rel +:+ "_" +:+ pretty dir)).
      by rewrite !split_sep by apply pretty_N_free, underscore_no_digit.
    - exists (split "_" (pretty dir)).
      by rewrite !split_sep by apply pretty_N_free, underscore_no_digit. }
  destruct Hparts as [rest Hparts].
  unfold hasThreeZerosInFirstFour. rewrite Hparts. cbv zeta.
  rewrite decide_False by (simpl; lia). cbn [take fmap list_fmap].
  rewrite !parseInt_pretty.
  rewrite take_0, fmap_nil.
  change [PInt false a; PInt false b; PInt false c; PInt false d]
    with ((λ n, PInt false n) <$> [a; b; c; d]).
  by rewrite count_zero, count_one.
Qed.

(** How often the token [e] is among [l]. *)
Definition occurrences (e : string) (l : list string) : Z :=
  Z.of_nat (length (filter (λ x, x = e) l)).

(** The entry of a token that was seen [n] times in normal images and [t]
    times in tuberculosis images. *)
Definition entry (e : string) (n t : list string) : option counts :=
  if hasThreeZerosInFirstFour e then None
  else if decide (e ∈ n ++ t) then
    Some {| normal := occurrences e n; anomaly := occurrences e t |}
  else None.

Lemma occurrences_snoc (e x : string) (l : list string) :
  occurrences e (l ++ [x]) = occurrences e l + (if decide (x = e) then 1 else 0).
Proof.
  unfold occurrences. rewrite filter_app, length_app, filter_cons, filter_nil.
  case_decide; simpl; lia.
Qed.

Lemma occurrences_absent (e : string) (l : list string) :
  e ∉ l → occurrences e l = 0.
Proof.
  intros He. unfold occurrences. induction l as [|x l IH]; [done|].
  apply not_elem_of_cons in He as [Hx Hl].
  rewrite filter_cons, decide_False by done. by apply IH.
Qed.

Lemma entry_normal_other (e x : string) (n t : list string) :
  x ≠ e → entry e (n ++ [x]) t = entry e n t.
Proof.
  intros Hne. unfold entry. destruct (hasThreeZerosInFirstFour e); [done|].
  rewrite occurrences_snoc, (decide_False (P := x = e)), Z.add_0_r by done.
  assert (Hiff : e ∈ (n ++ [x]) ++ t ↔ e ∈ n ++ t).
  { rewrite !elem_of_app, list_elem_of_singleton. intuition congruence. }
  destruct (decide (e ∈ (n ++ [x]) ++ t)), (decide (e ∈ n ++ t)); tauto || done.
Qed.

Lemma entry_tb_other (e x : string) (n t : list string) :
  x ≠ e → entry e n (t ++ [x]) = entry e n t.
Proof.
  intros Hne. unfold entry. destruct (hasThreeZerosInFirstFour e); [done|].
  rewrite occurrences_snoc, (decide_False (P := x = e)), Z.add_0_r by done.
  assert (Hiff : e ∈ n ++ t ++ [x] ↔ e ∈ n ++ t).
  { rewrite !elem_of_app, list_elem_of_singleton. intuition congruence. }
  destruct (decide (e ∈ n ++ t ++ [x])), (decide (e ∈ n ++ t)); tauto || done.
Qed.

Lemma entry_excluded (e : string) (n t : list string) :
  hasThreeZerosInFirstFour e = true → entry e n t = None.
Proof. intros He. unfold entry. by rewrite He. Qed.

Lemma record_normal_entry (hashes : TrainedModel) (n t : list string) (x : string) :
  (∀ e, hashes !! e = entry e n t) →
  ∀ e, record_normal hashes x !! e = entry e (n ++ [x]) t.
Proof.
  intros Inv e. unfold record_normal.
  destruct (decide (x = e)) as [->|Hne].
  - destruct (hasThreeZerosInFirstFour e) eqn:He; simpl.
    { by rewrite Inv, !entry_excluded. }
    rewrite (Inv e). unfold entry. rewrite He.
    rewrite occurrences_snoc, (decide_True (P := e = e)) by done.
    rewrite (decide_True (P := e ∈ (n ++ [e]) ++ t)) by set_solver.
    destruct (decide (e ∈ n ++ t)) as [Hin|Hin]; rewrite lookup_insert_eq; [done|].
    rewrite !occurrences_absent by set_solver. done.
  - rewrite entry_normal_other by done. rewrite <- Inv.
    destruct (negb (hasThreeZerosInFirstFour x)); [|done].
    destruct (hashes !! x); by rewrite lookup_insert_ne.
Qed.

Lemma record_tb_entry (hashes : TrainedModel) (n t : list string) (x : string) :
  (∀ e, hashes !! e = entry e n t) →
  ∀ e, record_tb hashes x !! e = entry e n (t ++ [x]).
Proof.
  intros Inv e. unfold record_tb.
  destruct (decide (x = e)) as [->|Hne].
  - destruct (hasThreeZerosInFirstFour e) eqn:He; simpl.
    { by rewrite Inv, !entry_excluded. }
    rewrite (Inv e). unfold entry. rewrite He.
    rewrite occurrences_snoc, (decide_True (P := e = e)) by done.
    rewrite (decide_True (P := e ∈ n ++ t ++ [e])) by set_solver.
    destruct (decide (e ∈ n ++ t)) as [Hin|Hin]; rewrite lookup_insert_eq; [done|].
    rewrite !occurrences_absent by set_solver. done.
  - rewrite entry_tb_other by done. rewrite <- Inv.
    destruct (negb (hasThreeZerosInFirstFour x)); [|done].
    destruct (hashes !! x); by rewrite lookup_insert_ne.
Qed.

Lemma forEach_normal (hashed : list string) (hashes : TrainedModel) (n t : list string) :
  (∀ e, hashes !! e = entry e n t) →
  ∀ e, foldl record_normal hashes hashed !! e = entry e (n ++ hashed) t.
Proof.
  revert hashes n. induction hashed as [|x hashed IH]; intros hashes n Inv e.
  - by rewrite app_nil_r.
  - simpl. rewrite (cons_middle x), app_assoc.
    apply IH. by apply record_normal_entry.
Qed.

Lemma forEach_tb (hashed : list string) (hashes : TrainedModel) (n t : list string) :
  (∀ e, hashes !! e = entry e n t) →
  ∀ e, foldl record_tb hashes hashed !! e = entry e n (t ++ hashed).
Proof.
  revert hashes t. induction hashed as [|x hashed IH]; intros hashes t Inv e.
  - by rewrite app_nil_r.
  - simpl. rewrite (cons_middle x), app_assoc.
    apply IH. by apply record_tb_entry.
Qed.

(** The tokens of the images [1, 1 + step, ...], [count] of them, one
    after the other; an image whose analysis failed has none. *)
Definition seen (load : nat → option (list string)) (step count : nat) : list string :=
  concat ((λ k, default [] (load (1 + k * step)%nat)) <$> seq 0 count).

Lemma seen_S (load : nat → option (list string)) (step count : nat) :
  seen load step (S count) =
  seen load step count ++ default [] (load (1 + count * step)%nat).
Proof. unfold seen. rewrite seq_S, fmap_app, concat_app. simpl. by rewrite app_nil_r. Qed.

(** The two loops of setData, for any bounds. *)
Lemma training_loops (analyze : string → float → float → bool → option (list string))
    (dts : bool) (accuracy itm : float) (ext : bool) (f1 b1 f2 b2 : nat) :
  (b1 ≤ 1 + f1 * 2)%nat → (b2 ≤ 1 + f2 * 10)%nat →
  ∃ model m1 m2,
    (hashes ← for_step f1 1 b1 2 (normal_step analyze dts accuracy itm ext) ∅;
     for_step f2 1 b2 10 (tb_step analyze dts) hashes) = Some model ∧
    (b1 ≤ 1 + m1 * 2)%nat ∧ (m1 = 0 ∨ 1 + (m1 - 1) * 2 < b1)%nat ∧
    (b2 ≤ 1 + m2 * 10)%nat ∧ (m2 = 0 ∨ 1 + (m2 - 1) * 10 < b2)%nat ∧
    ∀ e, model !! e =
         entry e (seen (λ i, analyze (basenr dts i) accuracy itm ext) 2 m1)
                 (seen (λ i, analyze (basetb dts i) 2%float 2%float false) 10 m2).
Proof.
  intros Hf1 Hf2.
  set (ln := λ i, analyze (basenr dts i) accuracy itm ext).
  set (lt := λ i, analyze (basetb dts i) 2%float 2%float false).
  pose (Inv1 := λ (j : nat) (hashes : TrainedModel),
          ∀ e, hashes !! e = entry e (seen ln 2 j) []).
  destruct (ValidationFacts.for_step_offset Inv1 (normal_step analyze dts accuracy itm ext)
              f1 b1 2 1 0 1 ∅)
    as (h1 & m1 & E1 & I1 & _ & Hle1 & Hor1); [lia|lia| |lia| |].
  { intros j hashes _ Hj. eexists. split; [done|].
    unfold Inv1. rewrite seen_S. fold (ln (1 + j * 2)%nat).
    destruct (ln (1 + j * 2)%nat) as [hashed|]; simpl.
    - by apply forEach_normal.
    - by rewrite app_nil_r. }
  { intros e. rewrite lookup_empty. unfold entry.
    destruct (hasThreeZerosInFirstFour e); [done|].
    change (seen ln 2 0) with (@nil string).
    by rewrite decide_False by (rewrite app_nil_r; apply not_elem_of_nil). }
  rewrite E1. cbn [mbind option_bind].
  pose (Inv2 := λ (j : nat) (hashes : TrainedModel),
          ∀ e, hashes !! e = entry e (seen ln 2 m1) (seen lt 10 j)).
  destruct (ValidationFacts.for_step_offset Inv2 (tb_step analyze dts) f2 b2 10 1 0 1 h1)
    as (h2 & m2 & E2 & I2 & _ & Hle2 & Hor2); [lia|lia| |lia| |].
  { intros j hashes _ Hj. eexists. split; [done|].
    unfold Inv2. rewrite seen_S. fold (lt (1 + j * 10)%nat).
    destruct (lt (1 + j * 10)%nat) as [hashed|]; simpl.
    - by apply forEach_tb.
    - by rewrite app_nil_r. }
  { exact I1. }
  exists h2, m1, m2. split_and!; try done.
Qed.

Lemma iterations_160 (m : nat) :
  (160 ≤ 1 + m * 2)%nat → (m = 0 ∨ 1 + (m - 1) * 2 < 160)%nat → m = 80%nat.
Proof.
  intros H1%Nat2Z.inj_le H2. apply Nat2Z.inj. change (Z.of_nat 80) with 80.
  assert (H3 : m = 0%nat ∨ 1 + (Z.of_nat m - 1) * 2 < 160).
  { destruct H2 as [->|H2%Nat2Z.inj_lt]; [by left|right].
    destruct m as [|m]; [simpl; lia|].
    rewrite Nat2Z.inj_add, Nat2Z.inj_mul, Nat2Z.inj_sub in H2 by lia.
    change (Z.of_nat 160) with 160 in H2. lia. }
  rewrite Nat2Z.inj_add, Nat2Z.inj_mul in H1. change (Z.of_nat 160) with 160 in H1.
  destruct H3 as [->|H3]; lia.
Qed.

Lemma iterations_600 (m : nat) :
  (600 ≤ 1 + m * 10)%nat → (m = 0 ∨ 1 + (m - 1) * 10 < 600)%nat → m = 60%nat.
Proof.
  intros H1%Nat2Z.inj_le H2. apply Nat2Z.inj. change (Z.of_nat 60) with 60.
  assert (H3 : m = 0%nat ∨ 1 + (Z.of_nat m - 1) * 10 < 600).
  { destruct H2 as [->|H2%Nat2Z.inj_lt]; [by left|right].
    destruct m as [|m]; [simpl; lia|].
    rewrite Nat2Z.inj_add, Nat2Z.inj_mul, Nat2Z.inj_sub in H2 by lia.
    change (Z.of_nat 600) with 600 in H2. lia. }
  rewrite Nat2Z.inj_add, Nat2Z.inj_mul in H1. change (Z.of_nat 600) with 600 in H1.
  destruct H3 as [->|H3]; lia.
Qed.

(** The model that setData builds. Every token that the noise filter
    keeps and that occurs in an analysed image gets one entry, holding
    the number of its occurrences in the normal images 1, 3, ..., 159 and
    in the tuberculosis images 1, 11, ..., 591; excluded tokens and
    tokens never seen have none, and an image whose analysis fails adds
    nothing. The tuberculosis images are analysed with the default
    parameters 2, 2 and false, whatever setData was called with. *)
Theorem setData_tallies (analyze : string → float → float → bool → option (list string))
    (dts : bool) (accuracy itm : float) (ext : bool) :
  ∃ model,
    setData analyze dts accuracy itm ext = Some model ∧
    ∀ e, model !! e =
         entry e (seen (λ i, analyze (basenr dts i) accuracy itm ext) 2 80)
                 (seen (λ i, analyze (basetb dts i) 2%float 2%float false) 10 60).
Proof.
  destruct (training_loops analyze dts accuracy itm ext 160 160 600 600)
    as (model & m1 & m2 & E & A1 & A2 & B1 & B2 & Hm).
  { apply Nat.leb_le. vm_compute. reflexivity. }
  { apply Nat.leb_le. vm_compute. reflexivity. }
  pose proof (iterations_160 m1 A1 A2) as M1. pose proof (iterations_600 m2 B1 B2) as M2.
  clear A1 A2 B1 B2. subst m1 m2.
  exists model. split; [exact E|exact Hm].
Qed.

End TrainingFacts.

(* ================================================================= *)
(** ** The grayscale matrix *)

Module GrayscaleFacts.
Import Grayscale.

Lemma foldl_push {A B : Type} (f : A → B) (l : list A) (acc : list B) :
  foldl (λ acc x, acc ++ [f x]) acc l = acc ++ (f <$> l).
Proof.
  revert acc. induction l as [|x l IH]; intros acc; simpl.
  - by rewrite app_nil_r.
  - by rewrite IH, <- app_assoc.
Qed.

Lemma grayscale_matrix_cells (width height : nat) (data : list Z) :
  grayscale_matrix width height data =
  (λ y, (λ x, gray data ((y * width + x) * 4)%nat) <$> seq 0 width) <$> seq 0 height.
Proof.
  unfold grayscale_matrix.
  rewrite (foldl_push (λ y, foldl (λ row x, row ++ [gray data ((y * width + x) * 4)%nat])
                                  [] (seq 0 width))).
  simpl. apply list_fmap_ext. intros _ y _. by rewrite foldl_push.
Qed.

(** The luminance of a grey level is the level itself. *)
Lemma grey_level (v : Z) :
  0 ≤ v ≤ 255 →
  JS.Math_round (0.299 * JS.of_Z v + 0.587 * JS.of_Z v + 0.114 * JS.of_Z v)%float =
  JS.of_Z v.
Proof.
  intros Hv.
  assert (Hall : Forall (λ v, JS.Math_round (0.299 * JS.of_Z v + 0.587 * JS.of_Z v +
                                              0.114 * JS.of_Z v)%float = JS.of_Z v)
                        (seqZ 0 256)).
  { let l := eval vm_compute in (seqZ 0 256) in change (seqZ 0 256) with l.
    repeat (apply Forall_cons; split; [vm_compute; reflexivity|]). apply Forall_nil_2. }
  eapply Forall_forall in Hall; [exact Hall|]. apply elem_of_seqZ. lia.
Qed.

(** The matrix of an image has one row per line of pixels and one value
    per pixel, whatever the pixel array holds. A grey pixel, one whose
    red, green and blue channels hold the same level, gets exactly that
    level: the conversion leaves a greyscale image as it is. *)
Theorem grayscale_matrix_grey (width height : nat) (data : list Z) :
  length (grayscale_matrix width height data) = height ∧
  Forall (λ row, length row = width) (grayscale_matrix width height data) ∧
  ∀ (x y : nat) (v : Z),
    (x < width)%nat → (y < height)%nat → 0 ≤ v ≤ 255 →
    data !! ((y * width + x) * 4)%nat = Some v →
    data !! ((y * width + x) * 4 + 1)%nat = Some v →
    data !! ((y * width + x) * 4 + 2)%nat = Some v →
    grayscale_matrix width height data !! y ≫= (.!! x) = Some (JS.of_Z v).
Proof.
  rewrite grayscale_matrix_cells. split_and!.
  - by rewrite length_fmap, length_seq.
  - apply Forall_fmap, Forall_forall. intros y _. simpl. by rewrite length_fmap, length_seq.
  - intros x y v Hx Hy Hv Hr Hg Hb.
    rewrite list_lookup_fmap, lookup_seq_lt by done. simpl.
    rewrite list_lookup_fmap, lookup_seq_lt by done. simpl.
    unfold gray, channel. rewrite Hr, Hg, Hb. cbv zeta. by rewrite grey_level.
Qed.

Lemma grayscale_matrix_grey_pixel :
  grayscale_matrix 1 1 [7; 7; 7; 255] !! 0%nat ≫= (.!! 0%nat) = Some (JS.of_Z 7).
Proof.
  apply (proj2 (proj2 (grayscale_matrix_grey 1 1 [7; 7; 7; 255])) 0%nat 0%nat 7);
    [lia|lia|lia|reflexivity|reflexivity|reflexivity].
Defined.

End GrayscaleFacts.

(* ================================================================= *)
(** ** The stages of analyze *)

Module PipelineFacts.
Import Blocks BlocksFacts Spectral SpectralFacts.
Local Open Scope nat_scope.

(** The blocks of a matrix whose sides are multiples of the block side:
    their number, and the shape of each. *)
Lemma extractBlocks_shape {A : Type} (mat : list (list A)) (size nbh nbw : nat) :
  0 < size → 0 < nbh → length mat = nbh * size →
  Forall (λ row, length row = nbw * size) mat →
  ∃ blocks,
    extractBlocks mat size = Some (Returns blocks) ∧
    length blocks = nbh * nbw ∧
    Forall (λ block, length block = size ∧ Forall (λ row, length row = size) block) blocks.
Proof.
  intros Hsize Hnbh Hh Hrect. unfold extractBlocks.
  destruct mat as [|row0 mat']; [simpl in Hh; nia|].
  cbn [lookup list_lookup]. cbn zeta.
  assert (Hw0 : length row0 = nbw * size) by (by apply Forall_cons in Hrect as [? _]).
  rewrite Hh, Hw0, !Nat.Div0.mod_mul, !Nat.sub_0_r.
  set (M := row0 :: mat') in *.
  set (tm := (λ row, slice row 0 (nbw * size)) <$> slice M 0 (nbh * size)).
  assert (Htm : length tm = nbh * size).
  { unfold tm, slice. rewrite length_fmap, length_take, length_drop. lia. }
  rewrite strips_tiles by (done || lia).
  eexists. split; [done|].
  set (L := (λ bi, (λ bj, tile tm size (bi * size) (bj * size)) <$> seq 0 nbw) <$> seq 0 nbh).
  assert (HL : Forall (λ l, length l = nbw) L).
  { apply Forall_fmap, Forall_forall. intros bi _. simpl. by rewrite length_fmap, length_seq. }
  split.
  { rewrite (length_concat_uniform L nbw HL). unfold L. by rewrite length_fmap, length_seq. }
  apply Forall_concat. unfold L. apply Forall_fmap, Forall_forall.
  intros bi Hbi%elem_of_seq. simpl. apply Forall_fmap, Forall_forall.
  intros bj Hbj%elem_of_seq. simpl. unfold tile. split.
  { by rewrite length_fmap, length_seq. }
  apply Forall_fmap, Forall_forall. intros k Hk%elem_of_seq. simpl.
  assert (Hrows : (bi + 1) * size ≤ nbh * size) by (apply Nat.mul_le_mono_r; lia).
  assert (Hcols : (bj + 1) * size ≤ nbw * size) by (apply Nat.mul_le_mono_r; lia).
  destruct (lookup_lt_is_Some_2 M (bi * size + k)) as [row Hrow]; [lia|].
  assert (Hrl : length row = nbw * size).
  { eapply Forall_lookup_1 in Hrow; [|exact Hrect]. done. }
  assert (Htmr : tm !! (bi * size + k) = Some (slice row 0 (nbw * size))).
  { unfold tm. rewrite list_lookup_fmap. unfold slice at 2.
    rewrite lookup_take_lt by lia. rewrite lookup_drop. simpl. by rewrite Hrow. }
  rewrite Htmr. simpl. rewrite slice_length; [lia|]. rewrite slice_length; lia.
Qed.

Lemma all_defined {A : Type} (d : A) (row : list (option A)) :
  Forall is_Some row → row = Some <$> (default d <$> row).
Proof.
  induction 1 as [|x row [a ->] _ IH]; [done|]. rewrite !fmap_cons. simpl. by f_equal.
Qed.

(** On blocks whose sides are powers of two, as many of them as a square
    has cells, I_mat fills every cell of its result. *)
Lemma I_mat_features (matrices : list (list (list R))) (binsize : R) (ids : Z)
    (blockSize n : nat) :
  n * n = length matrices →
  Forall (λ mat, ∃ a b, length mat = 2 ^ a ∧ Forall (λ row, length row = 2 ^ b) mat ∧
                        blockSize ≤ 2 ^ a) matrices →
  ∃ features : list (list (list jsnum)),
    I_mat matrices binsize ids blockSize = Returns ((λ row : list (list jsnum), Some <$> row) <$> features) ∧
    length features = n ∧ Forall (λ row, length row = n) features.
Proof.
  intros Hsq Hall. unfold I_mat. cbv zeta.
  assert (Hn : Nat.sqrt (length matrices) = n).
  { rewrite <- Hsq. apply Nat.sqrt_square. }
  rewrite Hn. rewrite decide_False by lia.
  pose (Inv := λ (idx : nat) (acc : outcome (list (list (option (list jsnum))))),
          ∃ res, acc = Returns res ∧ length res = n ∧ Forall (λ row, length row = n) res ∧
                 ∀ k, k < idx → ∃ hs, res !! (k / n) ≫= (.!! (k mod n)) = Some (Some hs)).
  match goal with |- ∃ features, ?loop = _ ∧ _ => assert (HI : Inv (length matrices) loop) end.
  { apply foldl_seq_inv.
    - eexists. split; [done|]. rewrite length_replicate. split; [done|].
      split; [|intros; lia]. apply Forall_replicate. by rewrite length_replicate.
    - intros idx acc Hidx (res & -> & Hlen & Hrows & Hdone). cbn [obind].
      destruct (lookup_lt_is_Some_2 matrices idx Hidx) as [mat Hmat]. rewrite Hmat. simpl.
      destruct (Forall_lookup_1 _ _ _ _ Hall Hmat) as (a & b & L & Rw & Hs).
      destruct (block_features_pow2 mat binsize ids blockSize a b L Rw Hs) as (lo & hi & ->).
      cbn [obind]. eexists. split; [done|].
      assert (Hn0 : n ≠ 0) by (intros ->; simpl in Hsq; lia).
      assert (Hr : idx / n < n) by (apply Nat.Div0.div_lt_upper_bound; lia).
      assert (Hc : idx mod n < n) by (apply Nat.mod_upper_bound; lia).
      split; [by rewrite length_alter|]. split.
      { apply Forall_alter; [done|]. intros row _ Hrow. by rewrite length_insert. }
      intros k Hk. rewrite (grid_write_lookup res n) by done.
      case_decide as Hkk; [by eexists|]. apply Hdone.
      destruct (decide (k = idx)) as [->|]; [|lia]. by destruct Hkk. }
  destruct HI as (res & -> & Hlen & Hrows & Hdone).
  assert (Hsome : Forall (λ row, Forall is_Some row) res).
  { apply Forall_lookup. intros r row Hrow. apply Forall_lookup. intros c x Hx.
    assert (Hr : r < n) by (rewrite <- Hlen; by apply lookup_lt_Some in Hrow).
    assert (Hc : c < n).
    { eapply Forall_lookup_1 in Hrows; [|exact Hrow]. rewrite <- Hrows.
      by apply lookup_lt_Some in Hx. }
    specialize (Hdone (r * n + c)). rewrite Nat.div_add_l, Nat.div_small in Hdone by lia.
    rewrite Nat.add_0_r, Nat.add_comm, Nat.Div0.mod_add, Nat.mod_small in Hdone by lia.
    rewrite Hrow in Hdone. simpl in Hdone. rewrite Hx in Hdone.
    destruct Hdone as [hs Hhs]; [nia|]. injection Hhs as ->. by eexists. }
  exists ((λ row : list (option (list jsnum)), default [] <$> row) <$> res). split_and!.
  - f_equal. rewrite <- list_fmap_compose.
    rewrite <- (list_fmap_id res) at 1. apply Forall_fmap_ext_1.
    eapply Forall_impl; [exact Hsome|]. intros row Hrow. simpl. by apply all_defined.
  - by rewrite length_fmap.
  - apply Forall_fmap. eapply Forall_impl; [exact Hrows|].
    intros row Hrow. simpl. by rewrite length_fmap.
Qed.

(** The stages of analyze behind the resizing compose. On a square matrix
    of numbers whose side is a multiple 8 n of the block side, n >= 1,
    extractBlocks returns n * n blocks; I_mat accepts them and fills every
    cell of its n by n result with a feature vector; hash accepts that
    grid and returns one memo key per cell and 8 n^2 - 12 n + 4 tokens.
    No stage throws, for any bin size and any number of bands. *)
Theorem analyze_stages (show : jsnum → string) (mat : list (list R)) (n : nat)
    (accuracy : R) (itm : Z) (ext : bool) :
  0 < n → length mat = 8 * n → Forall (λ row, length row = 8 * n) mat →
  ∃ blocks features hashes memo,
    extractBlocks mat 8 = Some (Returns blocks) ∧
    I_mat blocks accuracy itm 8 =
      Returns ((λ row : list (list jsnum), Some <$> row) <$> features) ∧
    Hash.hash show features ext false = Returns (hashes, memo) ∧
    length blocks = n * n ∧ length memo = n * n ∧
    length hashes + 12 * n = 8 * n * n + 4.
Proof.
  intros Hn Hlen Hrows.
  destruct (extractBlocks_shape mat 8 n n) as (blocks & Hb & Lb & Sb); [lia|lia|lia| |].
  { eapply Forall_impl; [exact Hrows|]. intros row Hrow. simpl in *. lia. }
  destruct (I_mat_features blocks accuracy itm 8 n) as (features & Hf & Lf & Rf); [lia| |].
  { eapply Forall_impl; [exact Sb|]. intros block [L Rw]. exists 3, 3.
    change (2 ^ 3) with 8. by split_and!. }
  exists blocks, features.
  rewrite (HashFacts.hash_rectangular show features n n) by done.
  eexists _, _. split_and!; [done|done|done|done| |].
  - by rewrite length_fmap, HashFacts.length_pairs.
  - assert (Htotal :
      length (concat ((λ c, HashFacts.tokens_at show features ext n n c.1 c.2)
                      <$> (i ← seq 0 n; j ← seq 0 n; [(i, j)]))) + n * n =
      (3 * n - 2) * (3 * n - 2)).
    { rewrite <- (HashFacts.length_pairs n n) at 1.
      rewrite (HashFacts.length_concat_plus _
                 (λ c, HashFacts.inside n c.1 * HashFacts.inside n c.2)).
      - by rewrite HashFacts.sum_pairs, !HashFacts.sum_inside.
      - intros c [Hi Hj]%HashFacts.elem_of_pairs. unfold HashFacts.tokens_at.
        rewrite length_fmap. by apply HashFacts.neighbour_count_inside. }
    nia.
Qed.

Lemma analyze_stages_side_16 :
  ∃ blocks features hashes memo,
    extractBlocks (replicate 16 (replicate 16 0%R)) 8 = Some (Returns blocks) ∧
    I_mat blocks 2 2 8 =
      Returns ((λ row : list (list jsnum), Some <$> row) <$> features) ∧
    Hash.hash (λ _, "0"%string) features false false = Returns (hashes, memo) ∧
    length blocks = 2 * 2 ∧ length memo = 2 * 2 ∧
    length hashes + 12 * 2 = 8 * 2 * 2 + 4.
Proof.
  apply (analyze_stages (λ _, "0"%string) (replicate 16 (replicate 16 0%R)) 2 2 2 false).
  - lia.
  - reflexivity.
  - repeat constructor.
Defined.

End PipelineFacts.

(* ================================================================= *)
(** ** The transform that fft1D and fft2D compute *)

Module TransformFacts.
Import Spectral SpectralFacts.
Local Open Scope R_scope.

Definition czero : Complex := mkComplex 0 0.

(** The point of the unit circle at the angle [θ]. *)
Definition cis (θ : R) : Complex := mkComplex (cos θ) (sin θ).

(** [f 0 + ... + f (n - 1)]. *)
Fixpoint csum (f : nat → Complex) (n : nat) : Complex :=
  match n with
  | O => czero
  | S n => add (csum f n) (f n)
  end.

(** The discrete Fourier transform of [xs] at the frequency [k]: the sum
    over [j] of [xs[j] * exp (- 2 π i j k / n)], [n] being the length. *)
Definition dft (xs : list Complex) (k : nat) : Complex :=
  csum (λ j, multiply (cis (- (2 * PI * INR j * INR k / INR (length xs))))
                      (default czero (xs !! j)))
       (length xs).

Lemma complex_eq (a b : Complex) : real a = real b → imag a = imag b → a = b.
Proof. destruct a, b. simpl. by intros -> ->. Qed.

Ltac complex := apply complex_eq; simpl; try (ring || lra).

Lemma add_assoc (a b c : Complex) : add a (add b c) = add (add a b) c.
Proof. complex. Qed.

Lemma add_comm (a b : Complex) : add a b = add b a.
Proof. complex. Qed.

Lemma add_czero_l (a : Complex) : add czero a = a.
Proof. complex. Qed.

Lemma multiply_assoc (a b c : Complex) :
  multiply a (multiply b c) = multiply (multiply a b) c.
Proof. complex. Qed.

Lemma multiply_add (w a b : Complex) :
  multiply w (add a b) = add (multiply w a) (multiply w b).
Proof. complex. Qed.

Lemma multiply_czero (w : Complex) : multiply w czero = czero.
Proof. complex. Qed.

Lemma cis_add (a b : R) : cis (a + b) = multiply (cis a) (cis b).
Proof. unfold cis. apply complex_eq; simpl; [apply cos_plus|rewrite sin_plus; ring]. Qed.

Lemma cis_0 : cis 0 = mkComplex 1 0.
Proof. unfold cis. by rewrite cos_0, sin_0. Qed.

Lemma cis_turns (θ : R) (j : nat) : cis (θ - 2 * INR j * PI) = cis θ.
Proof.
  unfold cis. f_equal.
  - rewrite <- (cos_period (θ - 2 * INR j * PI) j). f_equal. ring.
  - rewrite <- (sin_period (θ - 2 * INR j * PI) j). f_equal. ring.
Qed.

Lemma cis_half_turn (θ : R) (c : Complex) :
  multiply (cis (θ - PI)) c = subtract czero (multiply (cis θ) c).
Proof.
  unfold cis. replace (θ - PI) with (θ + - PI) by ring.
  rewrite cos_plus, sin_plus, cos_neg, sin_neg, cos_PI, sin_PI. complex.
Qed.

Lemma csum_ext (f g : nat → Complex) (n : nat) :
  (∀ j, (j < n)%nat → f j = g j) → csum f n = csum g n.
Proof.
  induction n as [|n IH]; intros H; [done|]. simpl.
  rewrite IH by (intros; apply H; lia). by rewrite H by lia.
Qed.

Lemma csum_multiply (w : Complex) (f : nat → Complex) (n : nat) :
  csum (λ j, multiply w (f j)) n = multiply w (csum f n).
Proof.
  induction n as [|n IH]; simpl; [by rewrite multiply_czero|].
  by rewrite IH, multiply_add.
Qed.

Lemma csum_even_odd (f : nat → Complex) (m : nat) :
  csum f (2 * m) = add (csum (λ j, f (2 * j)%nat) m) (csum (λ j, f (2 * j + 1)%nat) m).
Proof.
  induction m as [|m IH]; [simpl; complex|].
  replace (2 * S m)%nat with (S (S (2 * m))) by lia. cbn [csum]. rewrite IH.
  replace (S (2 * m)) with (2 * m + 1)%nat by lia.
  generalize (csum (λ j, f (2 * j)%nat) m) (csum (λ j, f (2 * j + 1)%nat) m)
             (f (2 * m)%nat) (f (2 * m + 1)%nat).
  intros a b c d. complex.
Qed.

Lemma split_parity_fmap {A B : Type} (f : A → B) (l : list A) :
  split_parity (f <$> l) = (f <$> (split_parity l).1, f <$> (split_parity l).2).
Proof.
  induction l as [l IH] using (induction_ltof1 _ (@length A)). unfold ltof in IH.
  destruct l as [|x [|y l]]; [done|done|].
  rewrite !fmap_cons. cbn [split_parity]. rewrite IH by (simpl; lia).
  by destruct (split_parity l).
Qed.

Lemma split_parity_lookup {A : Type} (l : list A) (j : nat) :
  (split_parity l).1 !! j = l !! (2 * j)%nat ∧
  (split_parity l).2 !! j = l !! (2 * j + 1)%nat.
Proof.
  revert j. induction l as [l IH] using (induction_ltof1 _ (@length A)). unfold ltof in IH.
  intros j. destruct l as [|x [|y l]].
  - by rewrite !lookup_nil.
  - destruct j; simpl; [done|]. rewrite !lookup_nil. done.
  - cbn [split_parity]. specialize (IH l). destruct (split_parity l) as [even odd].
    destruct j as [|j]; [done|]. cbn [fst snd] in *.
    replace (2 * S j)%nat with (S (S (2 * j))) by lia.
    replace (S (S (2 * j)) + 1)%nat with (S (S (2 * j + 1))) by lia.
    cbn [lookup list_lookup]. apply IH. simpl. lia.
Qed.

(** What the combining loop writes: the two butterflies of every index
    of the half transforms. *)
Lemma combine_values (h : nat) (E O : list Complex) :
  length E = h → length O = h →
  ∃ out, combine (2 * h) (Some <$> E) (Some <$> O) = Returns out ∧
         length out = (2 * h)%nat ∧
         ∀ k, (k < h)%nat →
           ∃ e o, E !! k = Some e ∧ O !! k = Some o ∧
                  out !! k =
                    Some (Some (add e (multiply (cis (- 2 * PI * INR k / INR (2 * h))) o))) ∧
                  out !! (k + h)%nat =
                    Some (Some (subtract e (multiply (cis (- 2 * PI * INR k / INR (2 * h))) o))).
Proof.
  intros He Ho. unfold combine.
  replace ((2 * h + 1) / 2)%nat with h.
  2:{ replace (2 * h + 1)%nat with (1 + h * 2)%nat by lia. rewrite Nat.div_add by lia. done. }
  pose (Inv := λ (j : nat) (acc : outcome (list (option Complex))),
          ∃ out, acc = Returns out ∧ length out = (2 * h)%nat ∧
                 ∀ k, (k < j)%nat →
                   ∃ e o, E !! k = Some e ∧ O !! k = Some o ∧
                          out !! k =
                            Some (Some (add e (multiply (cis (- 2 * PI * INR k / INR (2 * h))) o))) ∧
                          out !! (k + h)%nat =
                            Some (Some (subtract e
                                     (multiply (cis (- 2 * PI * INR k / INR (2 * h))) o)))).
  assert (HI : Inv h (foldl (combine_step (2 * h) (Some <$> E) (Some <$> O))
                        (Returns (replicate (2 * h) None)) (seq 0 h))).
  { apply foldl_seq_inv.
    - exists (replicate (2 * h) None). split_and!; [done|by rewrite length_replicate|lia].
    - intros j acc Hj (out & -> & Hlen & Hdone). unfold combine_step. cbn [obind].
      destruct (lookup_lt_is_Some_2 E j) as [e Hej]; [lia|].
      destruct (lookup_lt_is_Some_2 O j) as [o Hoj]; [lia|].
      unfold read. rewrite !list_lookup_fmap, Hej, Hoj. cbn [fmap option_fmap option_map obind].
      assert (Nat.even (2 * h) = true) as -> by (rewrite Nat.even_mul; done).
      replace (2 * h / 2)%nat with h by (rewrite Nat.mul_comm, Nat.div_mul; lia).
      eexists. split; [done|]. split; [by rewrite !length_insert|].
      intros k Hk. destruct (decide (k = j)) as [->|Hne].
      + exists e, o. split_and!; [done|done| |].
        * rewrite list_lookup_insert_ne by lia.
          by rewrite list_lookup_insert_eq by lia.
        * by rewrite list_lookup_insert_eq by (rewrite length_insert; lia).
      + destruct (Hdone k) as (e' & o' & ? & ? & ? & ?); [lia|].
        exists e', o'. rewrite !list_lookup_insert_ne by lia. done. }
  destruct HI as (out & -> & Hlen & Hdone). by exists out.
Qed.

(** The half sums of the transform at a frequency [q] of any size. *)
Definition half_sum (L : list Complex) (h q : nat) : Complex :=
  csum (λ j, multiply (cis (- (2 * PI * INR j * INR q / INR h))) (default czero (L !! j))) h.

Lemma half_sum_dft (L : list Complex) (k : nat) : half_sum L (length L) k = dft L k.
Proof. done. Qed.

Lemma half_sum_period (L : list Complex) (h k : nat) :
  (0 < h)%nat → half_sum L h (k + h) = half_sum L h k.
Proof.
  intros Hh. unfold half_sum. apply csum_ext. intros j _. f_equal.
  rewrite <- (cis_turns (- (2 * PI * INR j * INR k / INR h)) j). f_equal.
  rewrite plus_INR. field. apply not_0_INR. lia.
Qed.

(** The transform of a list of even length, from the transforms of its
    elements at the even and at the odd indices. *)
Lemma dft_split (xs : list Complex) (h q : nat) :
  length xs = (2 * h)%nat → (0 < h)%nat →
  dft xs q =
  add (half_sum (split_parity xs).1 h q)
      (multiply (cis (- 2 * PI * INR q / INR (2 * h))) (half_sum (split_parity xs).2 h q)).
Proof.
  intros Hlen Hh. unfold dft. rewrite Hlen, csum_even_odd.
  assert (Hnz : INR h ≠ 0) by (apply not_0_INR; lia).
  f_equal.
  - unfold half_sum. apply csum_ext. intros j _.
    destruct (split_parity_lookup xs j) as [-> _]. f_equal. f_equal.
    rewrite !mult_INR. simpl. field. done.
  - unfold half_sum. rewrite <- csum_multiply. apply csum_ext. intros j _.
    destruct (split_parity_lookup xs j) as [_ ->].
    rewrite multiply_assoc, <- cis_add. f_equal. f_equal.
    rewrite plus_INR, !mult_INR. simpl. field. done.
Qed.

Lemma dft_low (xs : list Complex) (h k : nat) :
  length xs = (2 * h)%nat → (0 < h)%nat →
  dft xs k =
  add (half_sum (split_parity xs).1 h k)
      (multiply (cis (- 2 * PI * INR k / INR (2 * h))) (half_sum (split_parity xs).2 h k)).
Proof. apply dft_split. Qed.

Lemma dft_high (xs : list Complex) (h k : nat) :
  length xs = (2 * h)%nat → (0 < h)%nat →
  dft xs (k + h) =
  subtract (half_sum (split_parity xs).1 h k)
           (multiply (cis (- 2 * PI * INR k / INR (2 * h))) (half_sum (split_parity xs).2 h k)).
Proof.
  intros Hlen Hh. rewrite (dft_split xs h (k + h)) by done.
  rewrite !half_sum_period by done.
  assert (Hnz : INR h ≠ 0) by (apply not_0_INR; lia).
  replace (- 2 * PI * INR (k + h) / INR (2 * h))
    with (- 2 * PI * INR k / INR (2 * h) - PI).
  2:{ rewrite plus_INR, !mult_INR. simpl. field. done. }
  rewrite cis_half_turn.
  generalize (half_sum (split_parity xs).1 h k)
             (multiply (cis (- 2 * PI * INR k / INR (2 * h))) (half_sum (split_parity xs).2 h k)).
  intros a b. complex.
Qed.

(** The recursion of fft1D on an input of 2^a complex numbers. *)
Lemma fft1D_transform (a : nat) (xs : list Complex) :
  length xs = (2 ^ a)%nat →
  fft1D (Some <$> xs) = Returns (Some <$> (dft xs <$> seq 0 (length xs))).
Proof.
  revert xs. induction a as [|a IH]; intros xs Hlen.
  - destruct xs as [|x [|y l]]; try done. rewrite !fmap_cons. simp fft1D. simpl.
    do 3 f_equal. unfold dft. simpl.
    replace (- (2 * PI * 0 * 0 / 1)) with 0 by field. rewrite cis_0.
    destruct x. complex.
  - set (h := (2 ^ a)%nat). assert (Hh : (0 < h)%nat).
    { unfold h. pose proof (Nat.pow_nonzero 2 a). lia. }
    assert (Hlen' : length xs = (2 * h)%nat) by (rewrite Hlen; done).
    destruct xs as [|x [|y l]]; [simpl in *; lia..|].
    set (xs := x :: y :: l) in *.
    change (Some <$> xs) with (Some x :: Some y :: (Some <$> l)). simp fft1D.
    change (Some x :: Some y :: (Some <$> l)) with (Some <$> xs).
    rewrite split_parity_fmap. cbn [fst snd].
    destruct (split_parity_length xs) as [L1 L2]. rewrite Hlen' in L1, L2.
    replace ((2 * h + 1) / 2)%nat with h in L1.
    2:{ replace (2 * h + 1)%nat with (1 + h * 2)%nat by lia. by rewrite Nat.div_add by lia. }
    replace (2 * h / 2)%nat with h in L2 by (rewrite Nat.mul_comm, Nat.div_mul; lia).
    rewrite (IH _ L1), (IH _ L2). cbn [obind].
    rewrite length_fmap, Hlen'.
    destruct (combine_values h (dft (split_parity xs).1 <$> seq 0 (length (split_parity xs).1))
                (dft (split_parity xs).2 <$> seq 0 (length (split_parity xs).2)))
      as (out & -> & Lout & Hout).
    { by rewrite length_fmap, length_seq. }
    { by rewrite length_fmap, length_seq. }
    f_equal. apply list_eq. intros i.
    rewrite !list_lookup_fmap.
    destruct (decide (i < 2 * h)%nat) as [Hi|Hi].
    2:{ rewrite lookup_ge_None_2 by lia. by rewrite lookup_ge_None_2 by (rewrite length_seq; lia). }
    rewrite lookup_seq_lt by done. simpl.
    assert (Hval : ∀ k, (k < h)%nat →
              out !! k = Some (Some (dft xs k)) ∧
              out !! (k + h)%nat = Some (Some (dft xs (k + h)))).
    { intros k Hk. destruct (Hout k Hk) as (e & o & He & Ho & -> & ->).
      rewrite list_lookup_fmap, lookup_seq_lt in He by lia.
      rewrite list_lookup_fmap, lookup_seq_lt in Ho by lia.
      simpl in He, Ho. injection He as <-. injection Ho as <-.
      rewrite (dft_low xs h k), (dft_high xs h k) by done.
      by rewrite <- (half_sum_dft (split_parity xs).1), <- (half_sum_dft (split_parity xs).2),
                 L1, L2. }
    destruct (decide (i < h)%nat) as [Hlow|Hhigh].
    + by destruct (Hval i Hlow) as [-> _].
    + destruct (Hval (i - h)%nat) as [_ Hv]; [lia|].
      by replace (i - h + h)%nat with i in Hv by lia.
Qed.

(** fft1D computes the discrete Fourier transform. On an input of 2^a
    complex numbers it returns as many, and the one at index k is the sum
    over j of [xs[j] * exp (- 2 π i j k / n)]. *)
Theorem fft1D_dft (a : nat) (xs : list Complex) :
  length xs = (2 ^ a)%nat →
  ∃ out, fft1D (Some <$> xs) = Returns (Some <$> out) ∧
         length out = length xs ∧
         ∀ k, (k < length xs)%nat → out !! k = Some (dft xs k).
Proof.
  intros Hlen. exists (dft xs <$> seq 0 (length xs)). split_and!.
  - by apply (fft1D_transform a).
  - by rewrite length_fmap, length_seq.
  - intros k Hk. by rewrite list_lookup_fmap, lookup_seq_lt.
Qed.

Lemma fft1D_dft_pair :
  ∃ out, fft1D (Some <$> [mkComplex 1 0; mkComplex 2 0]) = Returns (Some <$> out) ∧
         length out = length [mkComplex 1 0; mkComplex 2 0] ∧
         ∀ k, (k < length [mkComplex 1 0; mkComplex 2 0])%nat →
              out !! k = Some (dft [mkComplex 1 0; mkComplex 2 0] k).
Proof. apply (fft1D_dft 1). reflexivity. Defined.

(** *** The transform of a matrix *)

(** A sample as a complex number. *)
Definition cplx (val : R) : Complex := mkComplex val 0.

(** The discrete Fourier transform of a matrix of [rows] rows of [cols]
    samples at the frequencies [u] and [v]: the sum over [r] and [c] of
    [matrix[r][c] * exp (- 2 π i (r u / rows + c v / cols))]. *)
Definition dft2 (matrix : list (list R)) (u v : nat) : Complex :=
  let rows := length matrix in
  let cols := length (default [] (matrix !! 0%nat)) in
  csum (λ r,
          csum (λ c,
                  multiply
                    (cis (- (2 * PI * INR r * INR u / INR rows) +
                          - (2 * PI * INR c * INR v / INR cols)))
                    (cplx (default 0 (matrix !! r ≫= (.!! c)))))
               cols)
       rows.

(** The transform of one row at the frequency [v]. *)
Definition row_dft (matrix : list (list R)) (r v : nat) : Complex :=
  dft (cplx <$> default [] (matrix !! r)) v.

Lemma fft2D_rows_values (matrix : list (list R)) (b : nat) :
  Forall (λ row, length row = (2 ^ b)%nat) matrix →
  foldl (λ acc i,
           obind acc (λ rowTransformed,
           let row : list (option Complex) :=
             fmap (M := list) (λ val : R, Some (mkComplex val 0))
                  (default [] (matrix !! i)) in
           obind (fft1D row) (λ t, Returns (rowTransformed ++ [t]))))
        (Returns []) (seq 0 (length matrix)) =
  Returns ((λ r, (λ v, Some (row_dft matrix r v)) <$> seq 0 (2 ^ b))
           <$> seq 0 (length matrix)).
Proof.
  intros Hrows.
  apply (foldl_seq_inv (λ i acc,
           acc = Returns ((λ r, (λ v, Some (row_dft matrix r v)) <$> seq 0 (2 ^ b))
                          <$> seq 0 i))).
  - done.
  - intros i acc Hi ->. cbn [obind]. cbn zeta.
    destruct (lookup_lt_is_Some_2 matrix i Hi) as [row Hrow].
    assert (Hl : length row = (2 ^ b)%nat) by (by eapply Forall_lookup_1 in Hrow; [|exact Hrows]).
    replace ((λ val : R, Some (mkComplex val 0)) <$> default [] (matrix !! i))
      with (Some <$> (cplx <$> default [] (matrix !! i)))
      by (by rewrite <- list_fmap_compose).
    rewrite (fft1D_transform b) by (rewrite Hrow; simpl; by rewrite length_fmap).
    cbn [obind]. rewrite seq_S, fmap_app. simpl. do 3 f_equal.
    rewrite <- list_fmap_compose. rewrite length_fmap, Hrow. simpl. rewrite Hl.
    apply list_fmap_ext. intros _ v _. simpl. unfold row_dft. by rewrite Hrow.
Qed.

Lemma fft2D_write_column_values (rows j : nat) (cs : list Complex)
    (result : list (list (option Complex))) (R : nat → list (option Complex)) :
  length cs = rows → (length result ≤ rows)%nat →
  (∀ i, (i < rows)%nat → default [] (result !! i) = R i ∧ length (R i) = j) →
  let result' :=
    foldl (λ result i,
             let r := default [] (result !! i) in
             assign [] result i (assign None r j (mjoin ((Some <$> cs) !! i))))
          result (seq 0 rows) in
  length result' = rows ∧
  ∀ i, (i < rows)%nat →
    default [] (result' !! i) = R i ++ [Some (default czero (cs !! i))].
Proof.
  intros Hlen Hres Hrows. cbn zeta.
  pose (Inv := λ (i : nat) (res : list (list (option Complex))),
          (i ≤ length res ≤ rows)%nat ∧
          (∀ i', (i' < i)%nat →
                 default [] (res !! i') = R i' ++ [Some (default czero (cs !! i'))]) ∧
          (∀ i', (i ≤ i' < rows)%nat → default [] (res !! i') = R i')).
  assert (HI : Inv rows (foldl (λ result i,
             let r := default [] (result !! i) in
             assign [] result i (assign None r j (mjoin ((Some <$> cs) !! i))))
          result (seq 0 rows))).
  { apply foldl_seq_inv.
    - split_and!; [lia|lia|intros; lia|]. intros i' Hi'. apply Hrows. lia.
    - intros i res Hi ([Hl1 Hl2] & Hdone & Htodo). cbn zeta.
      destruct (Hrows i Hi) as [_ Lr]. rewrite (Htodo i) by lia.
      destruct (lookup_lt_is_Some_2 cs i) as [c Hc]; [lia|].
      rewrite list_lookup_fmap, Hc. cbn [fmap option_fmap option_map mjoin option_join].
      simpl. rewrite <- Lr at 1. rewrite assign_end.
      split_and!.
      + rewrite assign_length by done. lia.
      + rewrite assign_length by done. lia.
      + intros i' Hi'. rewrite assign_lookup by done. case_decide as Hii.
        * subst i'. simpl. by rewrite Hc.
        * apply Hdone. lia.
      + intros i' Hi'. rewrite assign_lookup by done. rewrite decide_False by lia.
        apply Htodo. lia. }
  destruct HI as ([Hl1 Hl2] & Hdone & _).
  split; [apply Nat.le_antisymm; [exact Hl2|exact Hl1]|exact Hdone].
Qed.

(** The transform of the column [v] of the transformed rows at the
    frequency [u]. *)
Definition col_dft (matrix : list (list R)) (u v : nat) : Complex :=
  dft ((λ r, row_dft matrix r v) <$> seq 0 (length matrix)) u.

Lemma fft2D_columns_values (matrix : list (list R)) (a b : nat) :
  length matrix = (2 ^ a)%nat →
  foldl (λ acc j,
           obind acc (λ result,
           let col : list (option Complex) :=
             fmap (M := list)
                  (λ i : nat,
                     mjoin (default []
                              (((λ r, (λ v, Some (row_dft matrix r v)) <$> seq 0 (2 ^ b))
                                <$> seq 0 (length matrix)) !! i) !! j))
                  (seq 0 (2 ^ a)) in
           obind (fft1D col) (λ colTransformed,
           Returns
             (foldl (λ result i,
                       let r := default [] (result !! i) in
                       assign [] result i
                         (assign None r j (mjoin (colTransformed !! i))))
                    result (seq 0 (2 ^ a))))))
        (Returns []) (seq 0 (2 ^ b)) =
  Returns ((λ u, (λ v, Some (col_dft matrix u v)) <$> seq 0 (2 ^ b)) <$> seq 0 (2 ^ a)).
Proof.
  intros Hlen.
  pose (Inv := λ (j : nat) (acc : outcome (list (list (option Complex)))),
          ∃ res, acc = Returns res ∧ (length res ≤ 2 ^ a)%nat ∧
                 ((0 < j)%nat → length res = (2 ^ a)%nat) ∧
                 ∀ i, (i < 2 ^ a)%nat →
                      default [] (res !! i) =
                      (λ v, Some (col_dft matrix i v)) <$> seq 0 j).
  match goal with |- ?loop = _ => assert (HI : Inv (2 ^ b)%nat loop) end.
  { apply foldl_seq_inv.
    - exists []. split_and!; [done|simpl; lia|lia|]. intros i _. by rewrite lookup_nil.
    - intros j acc Hj (res & -> & Hle & _ & Hrows). cbn [obind]. cbn zeta.
      assert (Hcol : (λ i : nat,
                 mjoin (default []
                          (((λ r, (λ v, Some (row_dft matrix r v)) <$> seq 0 (2 ^ b))
                            <$> seq 0 (length matrix)) !! i) !! j)) <$> seq 0 (2 ^ a) =
              Some <$> ((λ r, row_dft matrix r j) <$> seq 0 (length matrix))).
      { replace (seq 0 (2 ^ a)) with (seq 0 (length matrix)) by (by rewrite Hlen).
        rewrite <- list_fmap_compose. apply list_fmap_ext.
        intros k i [-> Hi]%lookup_seq. simpl.
        rewrite list_lookup_fmap, lookup_seq_lt by done. simpl.
        by rewrite list_lookup_fmap, lookup_seq_lt by done. }
      rewrite Hcol.
      rewrite (fft1D_transform a) by (by rewrite length_fmap, length_seq).
      cbn [obind]. rewrite length_fmap, length_seq.
      destruct (fft2D_write_column_values (2 ^ a) j
                  (dft ((λ r, row_dft matrix r j) <$> seq 0 (length matrix))
                   <$> seq 0 (length matrix))
                  res (λ i, (λ v, Some (col_dft matrix i v)) <$> seq 0 j))
        as [L' R'].
      { by rewrite length_fmap, length_seq. }
      { done. }
      { intros i Hi. split; [by apply Hrows|]. by rewrite length_fmap, length_seq. }
      eexists. split; [done|].
      split_and!; [exact (Nat.eq_le_incl _ _ L')|intros _; exact L'|].
      intros i Hi. etrans; [exact (R' i Hi)|]. rewrite seq_S, fmap_app. simpl. do 3 f_equal.
      by rewrite list_lookup_fmap, lookup_seq_lt by lia. }
  destruct HI as (res & -> & _ & Hfull & Hrows).
  assert (0 < 2 ^ b)%nat by (pose proof (Nat.pow_nonzero 2 b); lia).
  f_equal. apply list_eq. intros i. rewrite list_lookup_fmap.
  destruct (decide (i < 2 ^ a)%nat) as [Hi|Hi].
  - rewrite lookup_seq_lt by done. simpl. rewrite <- (Hrows i Hi).
    destruct (lookup_lt_is_Some_2 res i) as [r ->]; [rewrite Hfull by done; lia|]. done.
  - rewrite lookup_ge_None_2 by (rewrite Hfull by done; lia).
    by rewrite lookup_ge_None_2 by (rewrite length_seq; lia).
Qed.

Lemma csum_csum_multiply (w : Complex) (f : nat → Complex) (n : nat) :
  multiply w (csum f n) = csum (λ j, multiply w (f j)) n.
Proof. by rewrite csum_multiply. Qed.

(** The column transform of the row transforms is the double sum. *)
Lemma col_dft_dft2 (matrix : list (list R)) (cols u v : nat) :
  Forall (λ row, length row = cols) matrix →
  col_dft matrix u v = dft2 matrix u v.
Proof.
  intros Hrows. unfold col_dft, dft2, dft. cbv zeta.
  rewrite length_fmap, length_seq. apply csum_ext. intros r Hr.
  rewrite list_lookup_fmap, lookup_seq_lt by done. simpl.
  destruct (lookup_lt_is_Some_2 matrix r Hr) as [row Hrow].
  assert (Hl : length row = cols) by (by eapply Forall_lookup_1 in Hrow; [|exact Hrows]).
  assert (H0 : length (default [] (matrix !! 0%nat)) = cols).
  { destruct (lookup_lt_is_Some_2 matrix 0) as [row0 Hrow0]; [lia|]. rewrite Hrow0. simpl.
    by eapply Forall_lookup_1 in Hrow0; [|exact Hrows]. }
  rewrite H0. unfold row_dft, dft. rewrite Hrow. simpl.
  rewrite length_fmap, Hl, csum_csum_multiply. apply csum_ext. intros c Hc.
  rewrite multiply_assoc, <- cis_add. f_equal.
  rewrite list_lookup_fmap. by destruct (row !! c).
Qed.

(** The two passes of fft2D on a matrix of 2^a rows of 2^b samples. *)
Lemma fft2D_transform (matrix : list (list R)) (a b : nat) :
  length matrix = (2 ^ a)%nat → Forall (λ row, length row = (2 ^ b)%nat) matrix →
  fft2D matrix =
  Returns ((λ u, (λ v, Some (dft2 matrix u v)) <$> seq 0 (2 ^ b)) <$> seq 0 (2 ^ a)).
Proof.
  intros Hlen Hrows. unfold fft2D.
  assert (0 < 2 ^ a)%nat by (pose proof (Nat.pow_nonzero 2 a); lia).
  destruct (lookup_lt_is_Some_2 matrix 0) as [row0 H0]; [lia|]. rewrite H0.
  pose proof (fft2D_rows_values matrix b Hrows) as Hrt.
  cbv zeta in Hrt |- *. rewrite Hrt. cbn [obind].
  rewrite (Forall_lookup_1 _ _ _ _ Hrows H0).
  pose proof (fft2D_columns_values matrix a b Hlen) as Hct.
  cbv zeta in Hct. rewrite Hlen in Hct |- *. rewrite Hct. f_equal.
  apply list_fmap_ext. intros _ u _. apply list_fmap_ext. intros _ v _.
  f_equal. by apply (col_dft_dft2 matrix (2 ^ b)).
Qed.

(** fft2D computes the discrete Fourier transform of a matrix. On a
    matrix of 2^a rows of 2^b samples it returns a matrix of the same
    shape whose entry at (u, v) is the sum over r and c of
    [matrix[r][c] * exp (- 2 π i (r u / rows + c v / cols))]. *)
Theorem fft2D_dft2 (matrix : list (list R)) (a b : nat) :
  length matrix = (2 ^ a)%nat → Forall (λ row, length row = (2 ^ b)%nat) matrix →
  ∃ out, fft2D matrix = Returns out ∧
         length out = (2 ^ a)%nat ∧ Forall (λ row, length row = (2 ^ b)%nat) out ∧
         ∀ u v, (u < 2 ^ a)%nat → (v < 2 ^ b)%nat →
                out !! u ≫= (.!! v) = Some (Some (dft2 matrix u v)).
Proof.
  intros Hlen Hrows. eexists. split; [by apply (fft2D_transform matrix a b)|]. split_and!.
  - by rewrite length_fmap, length_seq.
  - apply Forall_fmap, Forall_forall. intros u _. simpl. by rewrite length_fmap, length_seq.
  - intros u v Hu Hv. rewrite list_lookup_fmap, lookup_seq_lt by done. simpl.
    by rewrite list_lookup_fmap, lookup_seq_lt by done.
Qed.

Lemma fft2D_dft2_matrix2 :
  ∃ out, fft2D [[1; 2]; [3; 4]] = Returns out ∧
         length out = (2 ^ 1)%nat ∧ Forall (λ row, length row = (2 ^ 1)%nat) out ∧
         ∀ u v, (u < 2 ^ 1)%nat → (v < 2 ^ 1)%nat →
                out !! u ≫= (.!! v) = Some (Some (dft2 [[1; 2]; [3; 4]] u v)).
Proof. apply (fft2D_dft2 [[1; 2]; [3; 4]] 1 1); [reflexivity|by repeat constructor]. Defined.

(** *** The block side and the transform *)

(** A block with no row: reading the length of its first row throws. *)
Lemma I_mat_no_row (rest : list (list (list R))) (binsize : R) (ids : Z)
    (blockSize : nat) :
  (Nat.sqrt (S (length rest)) * Nat.sqrt (S (length rest)) = S (length rest))%nat →
  I_mat ([] :: rest) binsize ids blockSize = Throws undefined_read.
Proof.
  intros Hsq. unfold I_mat. cbn [length]. cbn zeta.
  rewrite decide_False by lia.
  cbn [seq foldl obind lookup list_lookup default]. unfold Datatypes.id.
  by apply foldl_throws.
Qed.

Lemma sqrt_of_square (n m : nat) : (n * n = m)%nat → Nat.sqrt m = n.
Proof. intros <-. apply Nat.sqrt_square. Qed.

(** C8. The transform is the radix-2 one and it works on powers of two
    only. Take at least one block, every block a square of side
    [blockSize]. If [blockSize] is no power of two, 0 included, I_mat
    returns nothing: it throws, and when the number of blocks is a
    perfect square what it throws is the TypeError that the transform
    raises, reading an element that the odd half of an input does not
    have. If [blockSize] is a power of two, I_mat returns a feature grid
    for every perfect-square number of blocks, and fft2D on a matrix of
    that side is the discrete Fourier transform in two dimensions, the
    rows first and the columns next. fft1D itself returns the discrete
    Fourier transform of every input whose length is a power of two and
    throws on every other input that is not empty. *)
Theorem transform_power_of_two (matrices : list (list (list R))) (binsize : R)
    (ids : Z) (blockSize : nat) :
  matrices ≠ [] →
  Forall (λ mat, length mat = blockSize ∧ Forall (λ row, length row = blockSize) mat)
         matrices →
  ((∀ k, blockSize ≠ (2 ^ k)%nat) →
     (∃ e, I_mat matrices binsize ids blockSize = Throws e) ∧
     (∀ n, (n * n)%nat = length matrices →
           I_mat matrices binsize ids blockSize = Throws undefined_read)) ∧
  ((∃ k, blockSize = (2 ^ k)%nat) →
     (∀ n, (n * n)%nat = length matrices →
           ∃ results, I_mat matrices binsize ids blockSize = Returns results ∧
                      length results = n) ∧
     (∀ matrix : list (list R),
        length matrix = blockSize → Forall (λ row, length row = blockSize) matrix →
        fft2D matrix =
        Returns ((λ u, (λ v, Some (dft2 matrix u v)) <$> seq 0 blockSize)
                 <$> seq 0 blockSize))) ∧
  (∀ xs : list Complex, xs ≠ [] →
     ((∃ k, length xs = (2 ^ k)%nat) →
      fft1D (Some <$> xs) = Returns (Some <$> (dft xs <$> seq 0 (length xs)))) ∧
     ((∀ k, length xs ≠ (2 ^ k)%nat) →
      fft1D (Some <$> xs) = Throws undefined_read)).
Proof.
  intros Hne Hall. split_and!.
  - intros Hnp.
    assert (Hsq : ∀ n, (n * n)%nat = length matrices →
              I_mat matrices binsize ids blockSize = Throws undefined_read).
    { intros n Hn. destruct matrices as [|mat rest]; [done|].
      apply Forall_cons in Hall as [[Hrows Hcols] _].
      pose proof (sqrt_of_square n _ Hn) as Hs. cbn [length] in Hn, Hs.
      destruct mat as [|row0 mat].
      - apply I_mat_no_row. rewrite Hs. exact Hn.
      - apply Forall_cons in Hcols as [Hrow0 _].
        apply I_mat_not_pow2.
        + rewrite Hrow0, <- Hrows. simpl. lia.
        + by rewrite Hrow0.
        + rewrite Hs. exact Hn. }
    split; [|exact Hsq].
    destruct (decide (Nat.sqrt (length matrices) * Nat.sqrt (length matrices)
                      = length matrices)%nat) as [Hn|Hn].
    + exists undefined_read. by apply (Hsq (Nat.sqrt (length matrices))).
    + eexists. unfold I_mat. cbv zeta. by rewrite decide_True.
  - intros [k ->]. split.
    + intros n Hn. pose proof (sqrt_of_square n _ Hn) as Hs.
      destruct (I_mat_pow2 matrices binsize ids (2 ^ k)) as (results & E & L).
      { rewrite Hs. exact Hn. }
      { eapply Forall_impl; [exact Hall|]. intros mat [H1 H2]. by exists k, k. }
      exists results. split; [exact E|]. by rewrite L.
    + intros matrix Hlen Hrows. by apply fft2D_transform.
  - intros xs Hxs. split.
    + intros [k Hk]. by apply (fft1D_transform k).
    + intros Hnp. apply fft1D_not_pow2; rewrite length_fmap; [|done].
      destruct xs; [done|simpl; lia].
Qed.

(** A block of three rows of three pixels. *)
Definition block3 : list (list R) := replicate 3 (replicate 3 1).

Lemma three_not_pow2 (k : nat) : 3%nat ≠ (2 ^ k)%nat.
Proof.
  destruct k as [|[|k]]; [done|done|].
  change (2 ^ S (S k))%nat with (2 * (2 * 2 ^ k))%nat. lia.
Qed.

(** With a block side of 3 the stage throws the TypeError; with a block
    side of 4 it returns the feature grid of the block. *)
Lemma transform_power_of_two_sides_3_and_4 :
  I_mat [block3] 2 2 3 = Throws undefined_read ∧
  ∃ results, I_mat [block4] 2 2 4 = Returns results ∧ length results = 1%nat.
Proof.
  split.
  - destruct (transform_power_of_two [block3] 2 2 3) as ([_ H] & _ & _).
    + done.
    + by repeat constructor.
    + exact three_not_pow2.
    + apply (H 1%nat). reflexivity.
  - destruct (transform_power_of_two [block4] 2 2 4) as (_ & H & _).
    + done.
    + by repeat constructor.
    + destruct H as [H _]; [by exists 2%nat|].
      apply (H 1%nat). reflexivity.
Defined.

End TransformFacts.

(* ================================================================= *)
(** ** Flat blocks *)

Module FlatFacts.
Import Spectral SpectralFacts TransformFacts Training TrainingFacts.
Local Open Scope R_scope.

Lemma csum_czero (f : nat → Complex) (n : nat) :
  (∀ j, (j < n)%nat → f j = czero) → csum f n = czero.
Proof.
  induction n as [|n IH]; intros H; [done|]. simpl.
  rewrite IH by (intros; apply H; lia). rewrite H by lia. by apply complex_eq; simpl; lra.
Qed.

Lemma sumR_replicate (n : nat) (v acc : R) :
  foldl Rplus acc (replicate n v) = acc + INR n * v.
Proof.
  revert acc. induction n as [|n IH]; intros acc.
  - simpl. lra.
  - cbn [replicate foldl]. rewrite IH, S_INR. lra.
Qed.

Lemma squares_replicate (n : nat) (v mean acc : R) :
  v = mean →
  foldl (λ sum val, sum + (val - mean) ^ 2) acc (replicate n v) = acc.
Proof.
  intros ->. revert acc. induction n as [|n IH]; intros acc; [done|].
  cbn [replicate foldl]. rewrite IH. lra.
Qed.

Lemma concat_replicate {A : Type} (n m : nat) (x : A) :
  concat (replicate n (replicate m x)) = replicate (n * m) x.
Proof.
  induction n as [|n IH]; [done|]. cbn [replicate concat]. rewrite IH.
  by rewrite <- replicate_add.
Qed.

Lemma mapM_replicate {A B : Type} (f : A → outcome B) (x : A) (y : B) (n : nat) :
  f x = Returns y → mapM f (replicate n x) = Returns (replicate n y).
Proof. intros H. induction n as [|n IH]; [done|]. simpl. by rewrite H, IH. Qed.

Lemma lookup_grid {A : Type} (rows cols a b : nat) (x : A) :
  (a < rows)%nat → (b < cols)%nat →
  replicate rows (replicate cols x) !! a ≫= (.!! b) = Some x.
Proof.
  intros Ha Hb. rewrite lookup_replicate_2 by done. simpl.
  by rewrite lookup_replicate_2.
Qed.

(** The transform of a matrix of zeros is zero everywhere. *)
Lemma fft2D_zero (a b : nat) :
  fft2D (replicate (2 ^ a) (replicate (2 ^ b) 0)) =
  Returns (replicate (2 ^ a) (replicate (2 ^ b) (Some czero))).
Proof.
  rewrite (fft2D_transform _ a b).
  2:{ by rewrite length_replicate. }
  2:{ apply Forall_replicate. by rewrite length_replicate. }
  f_equal.
  rewrite (fmap_const _ (replicate (2 ^ b) (Some czero))), length_seq; [done|].
  intros u. rewrite (fmap_const _ (Some czero)), length_seq; [done|].
  intros v. f_equal. unfold dft2. cbv zeta.
  apply csum_czero. intros r _. apply csum_czero. intros c _.
  assert (default 0 (replicate (2 ^ a) (replicate (2 ^ b) 0) !! r ≫= (.!! c)) = 0) as ->.
  { destruct (replicate (2 ^ a) (replicate (2 ^ b) 0) !! r) as [row|] eqn:Hr; [|done].
    apply lookup_replicate in Hr as [-> _]. simpl.
    destruct (replicate (2 ^ b) 0 !! c) as [x|] eqn:Hx; [|done].
    by apply lookup_replicate in Hx as [-> _]. }
  apply multiply_czero.
Qed.

(** Shifting a matrix whose entries are all the same changes nothing. *)
Lemma fftShift_uniform (rows cols : nat) (x : option Complex) :
  (0 < rows)%nat →
  fftShift (replicate rows (replicate cols x)) = Returns (replicate rows (replicate cols x)).
Proof.
  intros Hrows.
  destruct (fftShift_rotates (replicate rows (replicate cols x)) rows cols)
    as (res & -> & L & Rw & Hcells).
  { done. }
  { by rewrite length_replicate. }
  { apply Forall_replicate. by rewrite length_replicate. }
  f_equal. apply (grid_ext _ _ rows cols); [done|done| | |].
  { by rewrite length_replicate. }
  { apply Forall_replicate. by rewrite length_replicate. }
  intros i j Hi Hj.
  destruct (shift_index_onto rows i Hi) as (i' & Hi' & <-).
  destruct (shift_index_onto cols j Hj) as (j' & Hj' & <-).
  rewrite (Hcells i' j') by done. rewrite !lookup_grid; try done.
  all: apply Nat.mod_upper_bound; lia.
Qed.

(** The energies of a spectrum of zeros. *)
Lemma energies_zero (blockSize rows cols : nat) :
  (blockSize ≤ rows)%nat → (blockSize ≤ cols)%nat →
  energies blockSize (replicate rows (replicate cols 0)) = Returns (Num 0, Num 0).
Proof.
  intros Hr Hc. unfold energies.
  apply (foldl_seq_inv (λ (_ : nat) (acc : outcome (jsnum * jsnum)),
           acc = Returns (Num 0, Num 0))); [done|].
  intros y acc Hy ->.
  apply (foldl_seq_inv (λ (_ : nat) (acc : outcome (jsnum * jsnum)),
           acc = Returns (Num 0, Num 0))); [done|].
  intros x acc Hx ->. cbn [obind].
  assert (Hlog : log_at (replicate rows (replicate cols 0)) y x = Returns (Num 0)).
  { unfold log_at. rewrite lookup_replicate_2 by lia.
    by rewrite lookup_replicate_2 by lia. }
  rewrite Hlog. cbn [obind jadd]. rewrite Rplus_0_r.
  destruct (mask_at (lowFreqMask blockSize) y x); [done|].
  by destruct (mask_at (highFreqMask blockSize) y x).
Qed.

Lemma quantize_zero (binsize : R) : binsize ≠ 0 → quantize (Num 0) binsize = Num 0.
Proof.
  intros Hb. unfold quantize. rewrite decide_False by done. f_equal.
  unfold Math_round. unfold Rdiv. rewrite Rmult_0_l.
  rewrite <- (Int_part_spec (0 + / 2) 0) by (simpl; lra). simpl. lra.
Qed.

(** A flat block, one whose samples are all the same, has no energy in
    any band: its two features are 0. *)
Lemma block_features_flat_value (v binsize : R) (ids : Z) (blockSize a b : nat) :
  (blockSize ≤ 2 ^ a)%nat → (blockSize ≤ 2 ^ b)%nat →
  block_features (replicate (2 ^ a) (replicate (2 ^ b) v)) binsize ids blockSize =
  Returns (feature_vector binsize ids blockSize (Num 0) (Num 0)).
Proof.
  intros Ha Hb. unfold block_features. cbv zeta.
  assert (Hpa : (0 < 2 ^ a)%nat) by (pose proof (Nat.pow_nonzero 2 a); lia).
  assert (Hpb : (0 < 2 ^ b)%nat) by (pose proof (Nat.pow_nonzero 2 b); lia).
  rewrite concat_replicate, length_replicate.
  set (n := (2 ^ a * 2 ^ b)%nat).
  assert (Hn : INR n ≠ 0) by (apply not_0_INR; unfold n; nia).
  assert (Hmean : sumR (replicate n v) / INR n = v).
  { unfold sumR. rewrite sumR_replicate. field. done. }
  rewrite Hmean. rewrite squares_replicate by done.
  rewrite !fmap_replicate.
  replace ((v - v) / (sqrt (0 / INR n) + / 10 ^ 10)) with 0
    by (unfold Rminus, Rdiv; rewrite Rplus_opp_r, Rmult_0_l; done).
  rewrite fft2D_zero. cbn [obind].
  rewrite fftShift_uniform by done. cbn [obind].
  rewrite (mapM_replicate _ _ (replicate (2 ^ b) 0)).
  2:{ apply mapM_replicate. simpl. f_equal. unfold magnitude. simpl.
      rewrite Rmult_0_l, Rplus_0_l. apply sqrt_0. }
  cbn [obind]. rewrite !fmap_replicate.
  rewrite Rplus_0_r, ln_1.
  by rewrite energies_zero.
Qed.

(** A token whose four leading features are 0 is taken out by the noise
    filter. *)
Lemma token_zero_filtered (show : jsnum → string) (ext : bool) (hs1 hs2 : list jsnum)
    (rel dir : Z) :
  show (Num 0) = "0"%string →
  hs1 !! 0%nat = Some (Num 0) → hs1 !! 1%nat = Some (Num 0) →
  hs2 !! 0%nat = Some (Num 0) → hs2 !! 1%nat = Some (Num 0) →
  hasThreeZerosInFirstFour (Hash.token show ext hs1 hs2 rel dir) = true.
Proof.
  intros Hshow H10 H11 H20 H21.
  assert (Hparts : ∃ rest, split "_" (Hash.token show ext hs1 hs2 rel dir) =
                           "0"%string :: "0"%string :: "0"%string :: "0"%string :: rest).
  { unfold Hash.token, Hash.field. rewrite H10, H11, H20, H21, Hshow.
    assert (Hfree : HashFacts.free_of "_" "0") by (split; [done|done]).
    destruct ext; eexists; by rewrite !split_sep by exact Hfree. }
  destruct Hparts as [rest Hparts].
  unfold hasThreeZerosInFirstFour. rewrite Hparts. cbv zeta.
  rewrite decide_False by (simpl; lia). cbn [take]. rewrite take_0. done.
Qed.

(** Flat blocks leave no trace in the model. A block whose samples are
    all the same has the features 0 and 0, whatever the level and for
    every bin size other than 0; and a token that hash builds from two
    such blocks, which starts with four zeros, is one that
    hasThreeZerosInFirstFour excludes. *)
Theorem flat_blocks_filtered (show : jsnum → string) (v1 v2 binsize : R) (ids : Z)
    (blockSize a b : nat) (ext : bool) (rel dir : Z) :
  show (Num 0) = "0"%string → binsize ≠ 0 →
  (blockSize ≤ 2 ^ a)%nat → (blockSize ≤ 2 ^ b)%nat →
  ∃ hs1 hs2,
    block_features (replicate (2 ^ a) (replicate (2 ^ b) v1)) binsize ids blockSize =
      Returns hs1 ∧
    block_features (replicate (2 ^ a) (replicate (2 ^ b) v2)) binsize ids blockSize =
      Returns hs2 ∧
    take 2 hs1 = [Num 0; Num 0] ∧ take 2 hs2 = [Num 0; Num 0] ∧
    hasThreeZerosInFirstFour (Hash.token show ext hs1 hs2 rel dir) = true.
Proof.
  intros Hshow Hbin Ha Hb.
  exists (feature_vector binsize ids blockSize (Num 0) (Num 0)),
         (feature_vector binsize ids blockSize (Num 0) (Num 0)).
  rewrite !block_features_flat_value by done.
  assert (Hhs : ∃ rest, feature_vector binsize ids blockSize (Num 0) (Num 0) =
                        Num 0 :: Num 0 :: rest).
  { unfold feature_vector. rewrite quantize_zero by done.
    case_decide; eexists; simpl; done. }
  destruct Hhs as [rest ->].
  split_and!; try done. by apply token_zero_filtered.
Qed.

Lemma flat_blocks_filtered_black_white :
  ∃ hs1 hs2,
    block_features (replicate (2 ^ 3) (replicate (2 ^ 3) 0)) 2 2 8 = Returns hs1 ∧
    block_features (replicate (2 ^ 3) (replicate (2 ^ 3) 255)) 2 2 8 = Returns hs2 ∧
    take 2 hs1 = [Num 0; Num 0] ∧ take 2 hs2 = [Num 0; Num 0] ∧
    hasThreeZerosInFirstFour (Hash.token (λ _, "0"%string) false hs1 hs2 0 4) = true.
Proof.
  apply (flat_blocks_filtered (λ _, "0"%string) 0 255 2 2 8 3 3 false 0 4).
  - reflexivity.
  - lra.
  - simpl; lia.
  - simpl; lia.
Defined.

End FlatFacts.

(* ================================================================= *)
(** ** Brightness *)

Module InvarianceFacts.
Import Spectral SpectralFacts.
Local Open Scope R_scope.

Lemma sumR_acc (l : list R) (acc : R) : foldl Rplus acc l = acc + foldl Rplus 0 l.
Proof.
  revert acc. induction l as [|x l IH]; intros acc.
  - simpl. lra.
  - cbn [foldl]. rewrite (IH (acc + x)), (IH (0 + x)). lra.
Qed.

Lemma sumR_shift (l : list R) (c acc : R) :
  foldl Rplus acc ((λ val, val + c) <$> l) = foldl Rplus acc l + INR (length l) * c.
Proof.
  revert acc. induction l as [|x l IH]; intros acc.
  - simpl. lra.
  - rewrite fmap_cons. cbn [foldl length]. rewrite IH, S_INR.
    rewrite (sumR_acc l (acc + (x + c))), (sumR_acc l (acc + x)). lra.
Qed.

Lemma squares_shift (l : list R) (c mean acc : R) :
  foldl (λ sum val, sum + (val - (mean + c)) ^ 2) acc ((λ val, val + c) <$> l) =
  foldl (λ sum val, sum + (val - mean) ^ 2) acc l.
Proof.
  revert acc. induction l as [|x l IH]; intros acc; [done|].
  rewrite fmap_cons. cbn [foldl]. rewrite IH. f_equal. ring.
Qed.

Lemma concat_shift (mat : list (list R)) (c : R) :
  concat ((λ row : list R, (λ val, val + c) <$> row) <$> mat) =
  (λ val, val + c) <$> concat mat.
Proof.
  induction mat as [|row mat IH]; [done|].
  rewrite fmap_cons. cbn [concat]. by rewrite IH, fmap_app.
Qed.

(** The features of a block do not depend on its brightness: adding the
    same amount to every sample changes nothing, the mean being taken
    off before the transform. *)
Theorem block_features_brightness (mat : list (list R)) (c binsize : R) (ids : Z)
    (blockSize : nat) :
  block_features ((λ row : list R, (λ val, val + c) <$> row) <$> mat) binsize ids blockSize =
  block_features mat binsize ids blockSize.
Proof.
  unfold block_features. cbv zeta.
  rewrite concat_shift, length_fmap. unfold sumR. rewrite sumR_shift.
  destruct (decide (concat mat = [])) as [Hnil|Hne].
  - assert (Hrows : Forall (λ row, row = []) mat).
    { clear -Hnil. induction mat as [|row mat IH]; [done|].
      simpl in Hnil. apply app_eq_nil in Hnil as [-> ?]. constructor; [done|by apply IH]. }
    assert (Hmat : (λ row : list R, (λ val, val + c) <$> row) <$> mat = mat).
    { clear -Hrows. induction Hrows as [|row mat -> _ IH]; [done|].
      rewrite fmap_cons. simpl. by rewrite IH. }
    rewrite Hnil. simpl. rewrite Rmult_0_l, Rplus_0_r.
    rewrite <- list_fmap_compose.
    assert (Hn : ∀ f : R → R, (λ row : list R, f <$> row) <$> mat = mat).
    { intros f. clear -Hrows. induction Hrows as [|row mat -> _ IH]; [done|].
      rewrite fmap_cons. simpl. by rewrite IH. }
    assert (Hn' : ∀ f : R → R,
              ((λ row : list R, f <$> row) ∘ (λ row : list R, (λ val, val + c) <$> row))
              <$> mat = mat).
    { intros f. clear -Hrows. induction Hrows as [|row mat -> _ IH]; [done|].
      rewrite fmap_cons. simpl. by rewrite IH. }
    by rewrite Hn, Hn'.
  - assert (Hlen : INR (length (concat mat)) ≠ 0).
    { apply not_0_INR. destruct (concat mat); [done|simpl; lia]. }
    set (n := INR (length (concat mat))) in *.
    set (s := foldl Rplus 0 (concat mat)).
    replace ((s + n * c) / n) with (s / n + c) by (field; done).
    rewrite squares_shift.
    rewrite <- list_fmap_compose.
    replace ((λ row : list R, (λ val, (val - (s / n + c)) /
               (sqrt (foldl (λ sum val0, sum + (val0 - s / n) ^ 2) 0 (concat mat) / n) +
                / 10 ^ 10)) <$> row) ∘ (λ row : list R, (λ val, val + c) <$> row) <$> mat)
      with ((λ row : list R, (λ val, (val - s / n) /
               (sqrt (foldl (λ sum val0, sum + (val0 - s / n) ^ 2) 0 (concat mat) / n) +
                / 10 ^ 10)) <$> row) <$> mat); [done|].
    apply list_fmap_ext. intros _ row _. simpl. rewrite <- list_fmap_compose.
    apply list_fmap_ext. intros _ val _. simpl. f_equal. ring.
Qed.

End InvarianceFacts.

(* ================================================================= *)
(** ** From a blank image to the verdict of detect *)

Module BlankImageFacts.
Import Blocks BlocksFacts Spectral SpectralFacts Scorer Training TrainingFacts FlatFacts.
Local Open Scope nat_scope.

Lemma slice_replicate {A : Type} (m a len : nat) (x : A) :
  a + len ≤ m → slice (replicate m x) a (a + len) = replicate len x.
Proof.
  intros H. unfold slice. rewrite drop_replicate, take_replicate. f_equal. lia.
Qed.

Lemma fmap_seq_const {A : Type} (f : nat → A) (c : A) (n : nat) :
  (∀ k, k < n → f k = c) → f <$> seq 0 n = replicate n c.
Proof.
  intros H. rewrite <- (length_seq n 0) at 2. rewrite <- (fmap_const (λ _, c)) by done.
  apply list_fmap_ext. intros _ k Hk%list_elem_of_lookup_2%elem_of_seq. apply H. lia.
Qed.

(** The blocks of a flat matrix are flat. *)
Lemma extractBlocks_flat {A : Type} (size n : nat) (v : A) :
  0 < size → 0 < n →
  extractBlocks (replicate (n * size) (replicate (n * size) v)) size =
  Some (Returns (replicate (n * n) (replicate size (replicate size v)))).
Proof.
  intros Hsize Hn. unfold extractBlocks.
  rewrite lookup_replicate_2 by nia. cbv zeta.
  rewrite !length_replicate, !Nat.Div0.mod_mul, !Nat.sub_0_r.
  replace (slice (replicate (n * size) (replicate (n * size) v)) 0 (n * size))
    with (replicate (n * size) (replicate (n * size) v))
    by (by rewrite (slice_replicate (n * size) 0 (n * size)) by lia).
  rewrite fmap_replicate.
  rewrite (slice_replicate (n * size) 0 (n * size)) by lia.
  rewrite strips_tiles by (rewrite ?length_replicate; done || lia).
  do 2 f_equal.
  rewrite (fmap_seq_const _ (replicate n (replicate size (replicate size v)))).
  { by rewrite concat_replicate. }
  intros bi Hbi. apply fmap_seq_const. intros bj Hbj.
  unfold tile. apply fmap_seq_const. intros k Hk.
  assert (Hrows : (bi + 1) * size ≤ n * size) by (apply Nat.mul_le_mono_r; lia).
  assert (Hcols : (bj + 1) * size ≤ n * size) by (apply Nat.mul_le_mono_r; lia).
  rewrite lookup_replicate_2 by lia. simpl.
  apply slice_replicate. lia.
Qed.

(** I_mat on a square number of copies of one block. *)
Lemma I_mat_uniform (mat : list (list R)) (hs : list jsnum) (binsize : R) (ids : Z)
    (blockSize n : nat) :
  0 < n → block_features mat binsize ids blockSize = Returns hs →
  I_mat (replicate (n * n) mat) binsize ids blockSize =
  Returns (replicate n (replicate n (Some hs))).
Proof.
  intros Hn Hhs. unfold I_mat. cbv zeta. rewrite length_replicate.
  rewrite Nat.sqrt_square. rewrite decide_False by lia.
  pose (Inv := λ (idx : nat) (acc : outcome (list (list (option (list jsnum))))),
          ∃ res, acc = Returns res ∧ length res = n ∧ Forall (λ row, length row = n) res ∧
                 ∀ k, k < idx → res !! (k / n) ≫= (.!! (k mod n)) = Some (Some hs)).
  match goal with |- ?loop = _ => assert (HI : Inv (n * n) loop) end.
  { apply foldl_seq_inv.
    - eexists. split; [done|]. rewrite length_replicate. split; [done|].
      split; [|intros; lia]. apply Forall_replicate. by rewrite length_replicate.
    - intros idx acc Hidx (res & -> & Hlen & Hrows & Hdone). cbn [obind].
      rewrite lookup_replicate_2 by done. simpl. rewrite Hhs. cbn [obind].
      eexists. split; [done|].
      assert (Hr : idx / n < n) by (apply Nat.Div0.div_lt_upper_bound; lia).
      assert (Hc : idx mod n < n) by (apply Nat.mod_upper_bound; lia).
      split; [by rewrite length_alter|]. split.
      { apply Forall_alter; [done|]. intros row _ Hrow. by rewrite length_insert. }
      intros k Hk. rewrite (grid_write_lookup res n) by done.
      case_decide as Hkk; [done|]. apply Hdone.
      destruct (decide (k = idx)) as [->|]; [|lia]. by destruct Hkk. }
  destruct HI as (res & -> & Hlen & Hrows & Hdone). f_equal.
  apply (grid_ext _ _ n n); [done|done| | |].
  { by rewrite length_replicate. }
  { apply Forall_replicate. by rewrite length_replicate. }
  intros r c Hr Hc. rewrite lookup_grid by done.
  specialize (Hdone (r * n + c)). rewrite Nat.div_add_l, Nat.div_small in Hdone by lia.
  rewrite Nat.add_0_r, Nat.add_comm, Nat.Div0.mod_add, Nat.mod_small in Hdone by lia.
  apply Hdone. nia.
Qed.

(** On a grid whose cells all hold the same feature vector, starting
    with two zeros, every token is one the noise filter excludes. *)
Lemma uniform_tokens_filtered (show : jsnum → string) (fv : list jsnum) (n : nat)
    (ext : bool) (i j : nat) (el : string) :
  show (Num 0) = "0"%string → fv !! 0 = Some (Num 0) → fv !! 1 = Some (Num 0) →
  i < n → j < n →
  el ∈ HashFacts.tokens_at show (replicate n (replicate n fv)) ext n n i j →
  hasThreeZerosInFirstFour el = true.
Proof.
  intros Hshow H0 H1 Hi Hj Hel. unfold HashFacts.tokens_at in Hel.
  apply list_elem_of_fmap in Hel as (d & -> & Hd).
  apply list_elem_of_filter in Hd as [Hb _]. destruct Hb as (B1 & B2 & B3 & B4).
  unfold HashFacts.cell_at. rewrite !Nat2Z.id.
  rewrite !lookup_grid by lia. simpl.
  by apply token_zero_filtered.
Qed.

(** A blank image is never flagged. Take any model that setData has
    built, from whatever images, and an image whose pixels are all the
    same, of side 8 n. Its blocks are flat, I_mat gives every block the
    features 0 and 0, every token hash emits is one the noise filter
    kept out of the model, and the scoring and clustering of detect
    report no cluster and the score 0. *)
Theorem blank_image_never_flagged
    (analyze : string → float → float → bool → option (list string))
    (dts : bool) (accuracy itm : float) (ext_training : bool)
    (show : jsnum → string) (v binsize : R) (ids : Z) (n : nat) (ext : bool) :
  show (Num 0) = "0"%string → binsize ≠ 0%R → 0 < n →
  ∃ data blocks features hashes memo,
    setData analyze dts accuracy itm ext_training = Some data ∧
    extractBlocks (replicate (n * 8) (replicate (n * 8) v)) 8 = Some (Returns blocks) ∧
    I_mat blocks binsize ids 8 =
      Returns ((λ row : list (list jsnum), Some <$> row) <$> features) ∧
    Hash.hash show features ext false = Returns (hashes, memo) ∧
    Forall (λ el, hasThreeZerosInFirstFour el = true ∧ data !! el = None) hashes ∧
    detect_memo data memo = Some {| det_score := Some 0%float; similar := 0 |}.
Proof.
  intros Hshow Hbin Hn.
  destruct (training_loops analyze dts accuracy itm ext_training 160 160 600 600)
    as (data & m1 & m2 & E & _ & _ & _ & _ & Hdata).
  { apply Nat.leb_le. vm_compute. reflexivity. }
  { apply Nat.leb_le. vm_compute. reflexivity. }
  assert (Hfv : ∃ rest, feature_vector binsize ids 8 (Num 0) (Num 0) = Num 0 :: Num 0 :: rest).
  { unfold feature_vector. rewrite quantize_zero by done. case_decide; eexists; simpl; done. }
  destruct Hfv as [rest Hfv].
  set (fv := Num 0 :: Num 0 :: rest) in *.
  exists data, (replicate (n * n) (replicate 8 (replicate 8 v))),
         (replicate n (replicate n fv)).
  rewrite (HashFacts.hash_rectangular show (replicate n (replicate n fv)) n n).
  2:{ by rewrite length_replicate. }
  2:{ apply Forall_replicate. by rewrite length_replicate. }
  eexists _, _. split; [exact E|]. clear E.
  split; [apply extractBlocks_flat; lia|].
  split.
  { rewrite !fmap_replicate. apply I_mat_uniform; [done|].
    rewrite <- Hfv. apply (block_features_flat_value v binsize ids 8 3 3); simpl; lia. }
  split; [done|].
  assert (Hfiltered : ∀ c el, c ∈ (i ← seq 0 n; j ← seq 0 n; [(i, j)]) →
            el ∈ HashFacts.tokens_at show (replicate n (replicate n fv)) ext n n c.1 c.2 →
            hasThreeZerosInFirstFour el = true ∧ data !! el = None).
  { intros c el [Hi Hj]%HashFacts.elem_of_pairs Hel.
    assert (Hex : hasThreeZerosInFirstFour el = true)
      by (by eapply (uniform_tokens_filtered show fv n ext c.1 c.2)).
    split; [done|]. rewrite Hdata. by apply entry_excluded. }
  split.
  { apply Forall_concat, Forall_fmap, Forall_forall. intros c Hc. simpl.
    apply Forall_forall. intros el Hel. by apply (Hfiltered c). }
  unfold detect_memo.
  match goal with |- context [activations data ?m] => set (memo := m) end.
  assert (Habs : ∀ kv el, kv ∈ memo → el ∈ kv.2 → data !! el = None).
  { intros kv el Hkv Hel. unfold memo in Hkv.
    apply list_elem_of_fmap in Hkv as (c & -> & Hc). simpl in Hel.
    by destruct (Hfiltered c el Hc Hel). }
  rewrite (ScorerFacts.activations_absent data memo Habs).
  assert (Hlen : length memo = n * n).
  { unfold memo. by rewrite length_fmap, HashFacts.length_pairs. }
  destruct (ScorerFacts.getgrid_slices (replicate (length memo) 0%Z)) as (m & -> & Hle & Hor).
  simpl. rewrite length_replicate in *.
  rewrite (ClusterFacts.findclusters_zero_grid _ 7); [done| |].
  - destruct m; [simpl in *; nia|]. done.
  - apply Forall_fmap, Forall_forall. intros j _. simpl.
    unfold slice. apply Forall_take, Forall_drop, Forall_replicate. lia.
Qed.

Lemma blank_image_never_flagged_black16 :
  ∃ data blocks features hashes memo,
    setData (λ _ _ _ _, None) true 2%float 2%float false = Some data ∧
    extractBlocks (replicate (2 * 8) (replicate (2 * 8) 0%R)) 8 = Some (Returns blocks) ∧
    I_mat blocks 2 2 8 =
      Returns ((λ row : list (list jsnum), Some <$> row) <$> features) ∧
    Hash.hash (λ _, "0"%string) features false false = Returns (hashes, memo) ∧
    Forall (λ el, hasThreeZerosInFirstFour el = true ∧ data !! el = None) hashes ∧
    detect_memo data memo = Some {| det_score := Some 0%float; similar := 0 |}.
Proof.
  apply (blank_image_never_flagged (λ _ _ _ _, None) true 2%float 2%float false
           (λ _, "0"%string) 0%R 2%R 2%Z 2 false).
  - reflexivity.
  - lra.
  - lia.
Defined.

End BlankImageFacts.
